(** * African sanctions screening: the fuzzy-matching core

    A shallow embedding of [src/lib/sanctions-service.ts] (the string
    utilities [levenshteinDistance], [normalizeString],
    [calculateSimilarity], [getBestMatchScore]) and of the [handleSearch]
    callback of the [AfricaSanctions] component, followed by the
    properties the specification states about them, by the other
    callbacks of the component ([toggleCountry], [setAllCountries],
    [handleReset], [generatePDF]) and by what the code shows of all of
    them.

    Conventions.
    - A JavaScript string is the list of its UTF-16 code units.
    - A JavaScript number that only ever holds a count or an index is a
      [nat]; a score or a threshold is a [Z]; the one place where the
      source computes with fractions uses IEEE 754 binary64 ([float]).
    - [String.prototype.normalize] reads the Unicode tables of the
      runtime and is a parameter, [nfd]; what is evaluated on a concrete
      string uses the Latin-1 part of the tables, [nfd_latin1].
    - React state is passed explicitly; [alert] and [preventDefault] are
      recorded in an effect log.

    Sections 1 to 5 and 8 follow the source, sections 6, 7 and 9 hold
    the notions and the inputs the statements are phrased with, and the
    proofs start at section 10: sections 10 to 16 lead to what the
    specification states, sections 17 to 22 to what else the code
    shows. *)

From Stdlib Require Import Ascii String.
From Stdlib Require Import List Bool Arith ZArith NArith Lia.
From Stdlib Require Import Permutation Sorted.
From Stdlib Require Import Floats Uint63.
Import ListNotations.

Set Implicit Arguments.

(* ================================================================== *)
(** * 1. Strings and the built-ins the source calls                     *)
(* ================================================================== *)

(** A UTF-16 code unit, and a string as the list of its code units. *)
Abbreviation codeunit := N (only parsing).
Abbreviation jsstring := (list N) (only parsing).

Definition str_eqb (x y : jsstring) : bool :=
  if list_eq_dec N.eq_dec x y then true else false.

(** The class [\s] of a regular expression without the [u] flag, which is
    also the set [String.prototype.trim] strips: WhiteSpace and
    LineTerminator of ECMA-262. *)
Definition isWhiteSpace (c : codeunit) : bool :=
  ((9 <=? c) && (c <=? 13) || (c =? 32) || (c =? 160) || (c =? 0x1680)
   || (0x2000 <=? c) && (c <=? 0x200a) || (c =? 0x2028) || (c =? 0x2029)
   || (c =? 0x202f) || (c =? 0x205f) || (c =? 0x3000) || (c =? 0xfeff))%N.

(** The class [\u0300-\u036f] of the first [replace]. *)
Definition isCombiningMark (c : codeunit) : bool :=
  ((0x300 <=? c) && (c <=? 0x36f))%N.

Definition isDigit (c : codeunit) : bool := ((48 <=? c) && (c <=? 57))%N.
Definition isUpper (c : codeunit) : bool := ((65 <=? c) && (c <=? 90))%N.
Definition isLower (c : codeunit) : bool := ((97 <=? c) && (c <=? 122))%N.

(** [[a-zA-Z0-9\s]], the class whose complement the second [replace]
    deletes. *)
Definition isKept (c : codeunit) : bool :=
  isLower c || isUpper c || isDigit c || isWhiteSpace c.

Definition isAscii (c : codeunit) : bool := (c <? 128)%N.

(** [str.replace(/[...]/g, '')] with a character class: every code unit of
    the class is deleted. *)
Definition replace_class (cls : codeunit -> bool) (s : jsstring) : jsstring :=
  filter (fun c => negb (cls c)) s.

(** [String.prototype.toLowerCase].  The call site applies it to the
    output of [replace(/[^a-zA-Z0-9\s]/g, '')], on whose code units the
    built-in maps [A-Z] to [a-z] and fixes digits, lower-case letters and
    white space. *)
Definition lowerUnit (c : codeunit) : codeunit :=
  if isUpper c then (c + 32)%N else c.

Definition toLowerCase (s : jsstring) : jsstring := map lowerUnit s.

Fixpoint trimStart (s : jsstring) : jsstring :=
  match s with
  | [] => []
  | c :: r => if isWhiteSpace c then trimStart r else s
  end.

Fixpoint trimEnd (s : jsstring) : jsstring :=
  match s with
  | [] => []
  | c :: r =>
      match trimEnd r with
      | [] => if isWhiteSpace c then [] else [c]
      | r' => c :: r'
      end
  end.

(** [String.prototype.trim] *)
Definition trim (s : jsstring) : jsstring := trimEnd (trimStart s).

(** [str.split(/\s+/)]: the pieces between maximal runs of white space.
    A leading (trailing) run yields an empty first (last) piece, and the
    empty string yields one empty piece. *)
Fixpoint split_ws (s : jsstring) : list jsstring :=
  match s with
  | [] => [[]]
  | c :: r =>
      if isWhiteSpace c then
        match r with
        | [] => [[]; []]
        | c' :: _ => if isWhiteSpace c' then split_ws r else [] :: split_ws r
        end
      else
        match split_ws r with
        | [] => [[c]]
        | t :: ts => (c :: t) :: ts
        end
  end.

(** [arr.join(sep)] *)
Fixpoint join (sep : jsstring) (l : list jsstring) : jsstring :=
  match l with
  | [] => []
  | [t] => t
  | t :: r => t ++ sep ++ join sep r
  end.

(** Code-unit order on strings, the order of the default comparator of
    [Array.prototype.sort]: [str_leb x y] is [x <= y]. *)
Fixpoint str_leb (x y : jsstring) : bool :=
  match x, y with
  | [], _ => true
  | _ :: _, [] => false
  | a :: x', b :: y' =>
      if (a <? b)%N then true
      else if (b <? a)%N then false
      else str_leb x' y'
  end.

(** [Array.prototype.sort].  ECMAScript 2019 requires the sort to be
    stable, which fixes its result for a comparator that is a total
    preorder (see [stable_sort_unique] below); insertion from the right
    computes that result.  [le x y] says that [x] may stay before [y]. *)
Section ArraySort.
Variable A : Type.
Variable le : A -> A -> bool.

Fixpoint insert (x : A) (l : list A) : list A :=
  match l with
  | [] => [x]
  | y :: r => if le x y then x :: l else y :: insert x r
  end.

Fixpoint Array_sort (l : list A) : list A :=
  match l with
  | [] => []
  | x :: r => insert x (Array_sort r)
  end.

End ArraySort.

(* ================================================================== *)
(** * 2. The normalizer                                                 *)
(* ================================================================== *)

Section Normalizer.
(** [String.prototype.normalize("NFD")], canonical decomposition by the
    Unicode tables of the runtime.  The tables are not part of the
    repository, so the function is a parameter here. *)
Variable nfd : jsstring -> jsstring.

Definition normalizeString (str : jsstring) : jsstring :=
  match str with
  | [] => []
  | _ =>
      join [32%N]
        (Array_sort str_leb
          (split_ws
            (trim
              (toLowerCase
                (replace_class (fun c => negb (isKept c))
                  (replace_class isCombiningMark (nfd str)))))))
  end.

End Normalizer.

(** What the theorems below need of canonical decomposition: a string of
    ASCII code units is its own decomposition. *)
Definition nfd_fixes_ascii (nfd : jsstring -> jsstring) : Prop :=
  forall s, forallb isAscii s = true -> nfd s = s.

(* ================================================================== *)
(** * 3. The distance engine                                           *)
(* ================================================================== *)

(** [arr[n] = v] on a JavaScript array: an index below the length
    overwrites, the index equal to the length appends, and a larger one
    would leave holes (filled with [hole] here; the source never writes
    past the length). *)
Fixpoint array_set (A : Type) (hole : A) (l : list A) (n : nat) (v : A)
  : list A :=
  match n, l with
  | O, [] => [v]
  | O, _ :: r => v :: r
  | S n', [] => hole :: array_set hole [] n' v
  | S n', x :: r => x :: array_set hole r n' v
  end.

(** [number[][]] *)
Abbreviation matrix := (list (list nat)) (only parsing).

(** [matrix[i][j]] *)
Definition mget (m : matrix) (i j : nat) : nat := nth j (nth i m []) 0.

(** [matrix[i][j] = v] *)
Definition mset (m : matrix) (i j v : nat) : matrix :=
  array_set [] m i (array_set 0 (nth i m []) j v).

(** [s.charAt(i)]: a one-unit string, or the empty string out of range. *)
Definition charAt (s : jsstring) (i : nat) : jsstring :=
  match nth_error s i with
  | Some c => [c]
  | None => []
  end.

(** The body of the innermost loop. *)
Definition lev_cell (a b : jsstring) (i : nat) (m : matrix) (j : nat)
  : matrix :=
  if str_eqb (charAt b (i - 1)) (charAt a (j - 1)) then
    mset m i j (mget m (i - 1) (j - 1))
  else
    mset m i j
      (Nat.min (mget m (i - 1) (j - 1) + 1)
         (Nat.min (mget m i (j - 1) + 1) (mget m (i - 1) j + 1))).

Definition lev_row (a b : jsstring) (m : matrix) (i : nat) : matrix :=
  fold_left (lev_cell a b i) (seq 1 (length a)) m.

Definition lev_init (a b : jsstring) : matrix :=
  let first_column :=
    fold_left (fun m i => array_set [] m i [i]) (seq 0 (S (length b))) [] in
  fold_left (fun m j => mset m 0 j j) (seq 0 (S (length a))) first_column.

Definition levenshteinDistance (a b : jsstring) : nat :=
  let m := fold_left (lev_row a b) (seq 1 (length b)) (lev_init a b) in
  mget m (length b) (length a).

(* ================================================================== *)
(** * 4. The similarity scorer                                         *)
(* ================================================================== *)

(** A length or a distance as a JavaScript number (exact below 2^53). *)
Definition number_of_nat (n : nat) : float :=
  PrimFloat.of_uint63 (Uint63.of_Z (Z.of_nat n)).

(** [Math.round]: the integer closest to [x], a tie going to the one
    closer to plus infinity, that is the floor of [x + 1/2] computed
    without rounding.  A binary64 value is [+-m * 2^e]; NaN and the
    infinities have no integer value and are mapped to 0 (the source
    divides by a length it has checked to be positive). *)
Definition Math_round (x : float) : Z :=
  match Prim2SF x with
  | S754_finite s m e =>
      let n := if s then Z.neg m else Z.pos m in
      if (0 <=? e)%Z then (n * 2 ^ e)%Z
      else ((2 * n + 2 ^ (- e)) / 2 ^ (1 - e))%Z
  | _ => 0%Z
  end.

Definition isEmpty (s : jsstring) : bool :=
  match s with [] => true | _ => false end.

Section Matching.
Variable nfd : jsstring -> jsstring.

Definition calculateSimilarity (s1 s2 : jsstring) : Z :=
  let norm1 := normalizeString nfd s1 in
  let norm2 := normalizeString nfd s2 in
  if isEmpty norm1 || isEmpty norm2 then 0%Z
  else if str_eqb norm1 norm2 then 100%Z
  else
    let distance := levenshteinDistance norm1 norm2 in
    let maxLength := Nat.max (length norm1) (length norm2) in
    if (maxLength =? 0)%nat then 100%Z
    else
      let similarity :=
        ((1 - number_of_nat distance / number_of_nat maxLength) * 100)%float in
      Math_round similarity.

(** The result of [getBestMatchScore]: [{ score, matchedOn }]. *)
Inductive MatchedOn := Name | Alias.

Record BestMatch := { score : Z; matchedOn : MatchedOn }.

(** [Math.max(...xs)] is only evaluated under [aliases.length > 0]; the
    empty case below is the branch that keeps the initial [0]. *)
Definition getBestMatchScore (query name : jsstring) (aliases : list jsstring)
  : BestMatch :=
  let nameScore := calculateSimilarity query name in
  let maxAliasScore :=
    match map (fun alias => calculateSimilarity query alias) aliases with
    | [] => 0%Z
    | x :: xs => fold_left Z.max xs x
    end in
  let finalScore := Z.max nameScore maxAliasScore in
  let matchedOn := if (maxAliasScore >? nameScore)%Z then Alias else Name in
  {| score := finalScore; matchedOn := matchedOn |}.

End Matching.

(* ================================================================== *)
(** * 5. The screening engine ([handleSearch])                         *)
(* ================================================================== *)

(** ['Person' | 'Entity' | 'All'] *)
Inductive TargetType := Person | Entity | All.

(** The records of the two lists.  Only the fields the matching reads are
    kept; the other fields of the interfaces are display data that
    [handleSearch] carries along unread. *)
Record SanctionedPerson := {
  person_id : Z;
  person_source_country : jsstring;
  full_name : jsstring;
  person_aliases : list jsstring
}.

Record SanctionedEntity := {
  entity_id : Z;
  entity_source_country : jsstring;
  entity_name : jsstring;
  entity_aliases : list jsstring
}.

Inductive MatchResult :=
| PersonMatchResult (item : SanctionedPerson) (sc : Z) (on : MatchedOn)
| EntityMatchResult (item : SanctionedEntity) (sc : Z) (on : MatchedOn).

Definition result_score (r : MatchResult) : Z :=
  match r with
  | PersonMatchResult _ sc _ => sc
  | EntityMatchResult _ sc _ => sc
  end.

Record SearchParams := {
  query : jsstring;
  targetType : TargetType;
  sourceCountries : list jsstring;
  fuzzyThreshold : Z
}.

(** The React state [handleSearch] writes. *)
Record ScreenState := {
  matches : list MatchResult;
  hasSearched : bool;
  comment : jsstring;
  screenerName : jsstring;
  showValidationError : bool
}.

(** What the callback does besides writing state. *)
Inductive Effect :=
| PreventDefault
| Alert (msg : jsstring).

(** [arr.includes(x)] on an array of strings. *)
Definition includes (l : list jsstring) (x : jsstring) : bool :=
  existsb (str_eqb x) l.

Section Screening.
Variable nfd : jsstring -> jsstring.
(** [t.selectAtLeastOne], the text of the alert. *)
Variable selectAtLeastOne : jsstring.

(** One turn of [for (const person of persons)]; [results.push] appends. *)
Definition person_step (sp : SearchParams) (results : list MatchResult)
  (person : SanctionedPerson) : list MatchResult :=
  if negb (includes (sourceCountries sp) (person_source_country person))
  then results
  else
    let bm := getBestMatchScore nfd (query sp) (full_name person)
                (person_aliases person) in
    if (score bm >=? fuzzyThreshold sp)%Z
    then results ++ [PersonMatchResult person (score bm) (matchedOn bm)]
    else results.

(** One turn of [for (const entity of entities)]. *)
Definition entity_step (sp : SearchParams) (results : list MatchResult)
  (entity : SanctionedEntity) : list MatchResult :=
  if negb (includes (sourceCountries sp) (entity_source_country entity))
  then results
  else
    let bm := getBestMatchScore nfd (query sp) (entity_name entity)
                (entity_aliases entity) in
    if (score bm >=? fuzzyThreshold sp)%Z
    then results ++ [EntityMatchResult entity (score bm) (matchedOn bm)]
    else results.

(** The two loops: [results] before it is sorted. *)
Definition scan (sp : SearchParams) (persons : list SanctionedPerson)
  (entities : list SanctionedEntity) : list MatchResult :=
  let results := [] in
  let results :=
    match targetType sp with
    | All | Person => fold_left (person_step sp) persons results
    | Entity => results
    end in
  match targetType sp with
  | All | Entity => fold_left (entity_step sp) entities results
  | Person => results
  end.

(** The comparator [(a, b) => b.score - a.score]: [a] stays before [b]
    when it does not return a positive number. *)
Definition by_score_desc (a b : MatchResult) : bool :=
  (result_score b - result_score a <=? 0)%Z.

Definition handleSearch (sp : SearchParams) (persons : list SanctionedPerson)
  (entities : list SanctionedEntity) (st : ScreenState)
  : ScreenState * list Effect :=
  if isEmpty (trim (query sp)) then (st, [PreventDefault])
  else if (length (sourceCountries sp) =? 0)%nat
  then (st, [PreventDefault; Alert selectAtLeastOne])
  else
    let results := scan sp persons entities in
    ({| matches := Array_sort by_score_desc results;
        hasSearched := true;
        comment := [];
        screenerName := [];
        showValidationError := false |},
     [PreventDefault]).

End Screening.

(* ================================================================== *)
(** * 6. Reference notions the statements are measured against         *)
(* ================================================================== *)

(** Edit distance as the glossary words it: a way to turn [a] into [b]
    by single-character insertions, deletions and substitutions, read
    from left to right, together with the number of edits it spends. *)
Inductive edit_script : jsstring -> jsstring -> nat -> Prop :=
| edit_done : edit_script [] [] 0
| edit_keep c a b n :
    edit_script a b n -> edit_script (c :: a) (c :: b) n
| edit_substitute c c' a b n :
    edit_script a b n -> edit_script (c :: a) (c' :: b) (S n)
| edit_delete c a b n :
    edit_script a b n -> edit_script (c :: a) b (S n)
| edit_insert c a b n :
    edit_script a b n -> edit_script a (c :: b) (S n).

(** [d] is the minimum number of edits. *)
Definition is_edit_distance (a b : jsstring) (d : nat) : Prop :=
  edit_script a b d /\ forall n, edit_script a b n -> d <= n.

(** The textbook recursion for the same number. *)
Fixpoint lev (s t : jsstring) : nat :=
  match s with
  | [] => length t
  | x :: s' =>
      (fix lev_s (t : jsstring) : nat :=
         match t with
         | [] => S (length s')
         | y :: t' =>
             Nat.min ((if (x =? y)%N then 0 else 1) + lev s' t')
               (Nat.min (S (lev_s t')) (S (lev s' t)))
         end) t
  end.

(** [round((1 - d/m) * 100)] over the rationals, a half going up: the
    floor of [100 (m - d) / m + 1/2]. *)
Definition round_half_up_percent (d m : nat) : Z :=
  ((2 * (100 * (Z.of_nat m - Z.of_nat d)) + Z.of_nat m) / (2 * Z.of_nat m))%Z.

(** A subject is a person or an entity; the screening reads its country,
    its primary name and its aliases. *)
Inductive Subject :=
| PersonSubject (p : SanctionedPerson)
| EntitySubject (e : SanctionedEntity).

Definition subject_country (s : Subject) : jsstring :=
  match s with
  | PersonSubject p => person_source_country p
  | EntitySubject e => entity_source_country e
  end.

Definition subject_name (s : Subject) : jsstring :=
  match s with
  | PersonSubject p => full_name p
  | EntitySubject e => entity_name e
  end.

Definition subject_aliases (s : Subject) : list jsstring :=
  match s with
  | PersonSubject p => person_aliases p
  | EntitySubject e => entity_aliases e
  end.

(** Is the variant of [s] allowed by the target filter? *)
Definition variant_allowed (t : TargetType) (s : Subject) : bool :=
  match t, s with
  | All, _ => true
  | Person, PersonSubject _ => true
  | Entity, EntitySubject _ => true
  | _, _ => false
  end.

(** The scan order: the persons, then the entities. *)
Definition subjects (persons : list SanctionedPerson)
  (entities : list SanctionedEntity) : list Subject :=
  map PersonSubject persons ++ map EntitySubject entities.

Section Reference.
Variable nfd : jsstring -> jsstring.

Definition best_match (q : jsstring) (s : Subject) : BestMatch :=
  getBestMatchScore nfd q (subject_name s) (subject_aliases s).

(** The three conditions of the claim on a subject. *)
Definition is_hit (sp : SearchParams) (s : Subject) : bool :=
  includes (sourceCountries sp) (subject_country s)
  && variant_allowed (targetType sp) s
  && (fuzzyThreshold sp <=? score (best_match (query sp) s))%Z.

(** The result that reports a subject. *)
Definition result_of (q : jsstring) (s : Subject) : MatchResult :=
  match s with
  | PersonSubject p =>
      PersonMatchResult p (score (best_match q s)) (matchedOn (best_match q s))
  | EntitySubject e =>
      EntityMatchResult e (score (best_match q s)) (matchedOn (best_match q s))
  end.

End Reference.

(** The caller learns something from a call when the state it reads has
    changed or an alert was raised. *)
Definition signalled (before : ScreenState) (out : ScreenState * list Effect)
  : Prop :=
  fst out <> before \/ exists msg, In (Alert msg) (snd out).

(* ================================================================== *)
(** * 7. Concrete inputs                                               *)
(* ================================================================== *)

(** An ASCII literal as a JavaScript string. *)
Definition js (s : string) : jsstring :=
  map N_of_ascii (list_ascii_of_string s).

(** Canonical decomposition restricted to Latin-1: the 53 precomposed
    letters of U+00C0..U+00FF split into base letter and combining mark
    (UnicodeData.txt), every other code unit below U+0100 is its own
    decomposition.  It is the instance used where a statement is
    evaluated on a concrete string, all of which stay below U+0100. *)
Definition latin1_decomposition : list (codeunit * jsstring) :=
  [ (192, [65; 768]); (193, [65; 769]); (194, [65; 770]); (195, [65; 771]);
    (196, [65; 776]); (197, [65; 778]); (199, [67; 807]); (200, [69; 768]);
    (201, [69; 769]); (202, [69; 770]); (203, [69; 776]); (204, [73; 768]);
    (205, [73; 769]); (206, [73; 770]); (207, [73; 776]); (209, [78; 771]);
    (210, [79; 768]); (211, [79; 769]); (212, [79; 770]); (213, [79; 771]);
    (214, [79; 776]); (217, [85; 768]); (218, [85; 769]); (219, [85; 770]);
    (220, [85; 776]); (221, [89; 769]); (224, [97; 768]); (225, [97; 769]);
    (226, [97; 770]); (227, [97; 771]); (228, [97; 776]); (229, [97; 778]);
    (231, [99; 807]); (232, [101; 768]); (233, [101; 769]); (234, [101; 770]);
    (235, [101; 776]); (236, [105; 768]); (237, [105; 769]); (238, [105; 770]);
    (239, [105; 776]); (241, [110; 771]); (242, [111; 768]); (243, [111; 769]);
    (244, [111; 770]); (245, [111; 771]); (246, [111; 776]); (249, [117; 768]);
    (250, [117; 769]); (251, [117; 770]); (252, [117; 776]); (253, [121; 769]);
    (255, [121; 776]) ]%N.

Definition decompose_unit (c : codeunit) : jsstring :=
  match find (fun e => (fst e =? c)%N) latin1_decomposition with
  | Some e => snd e
  | None => [c]
  end.

Definition nfd_latin1 (s : jsstring) : jsstring := flat_map decompose_unit s.

(** The alert text of the English interface. *)
Definition alert_text : jsstring :=
  js "Please select at least one source list.".

(** The first record of the Burkina Faso list (README). *)
Definition bande_hama : SanctionedPerson :=
  {| person_id := 1;
     person_source_country := js "BF";
     full_name := js "BANDE Hama";
     person_aliases := [js "Balobo"] |}.

(** The state of a fresh component, and the state a search without hits
    leaves behind. *)
Definition fresh_state : ScreenState :=
  {| matches := []; hasSearched := false; comment := [];
     screenerName := []; showValidationError := false |}.

Definition no_match_state : ScreenState :=
  {| matches := []; hasSearched := true; comment := [];
     screenerName := []; showValidationError := false |}.

(** A blank query with one list ticked; a blank query with none; a name
    with none; a name with the Burkina Faso list. *)
Definition blank_query : SearchParams :=
  {| query := js "   "; targetType := All;
     sourceCountries := [js "BF"]; fuzzyThreshold := 70 |}.

Definition blank_query_no_list : SearchParams :=
  {| query := js "   "; targetType := All;
     sourceCountries := []; fuzzyThreshold := 70 |}.

Definition name_no_list : SearchParams :=
  {| query := js "Hama Bande"; targetType := All;
     sourceCountries := []; fuzzyThreshold := 70 |}.

Definition name_bf : SearchParams :=
  {| query := js "Hama Bande"; targetType := All;
     sourceCountries := [js "BF"]; fuzzyThreshold := 100 |}.

(** Two keys of 40 letters, 17 substitutions apart, and two keys of 200
    letters, one substitution apart. *)
Definition forty_a : jsstring := repeat 97%N 40.
Definition forty_a_17_b : jsstring := repeat 97%N 23 ++ repeat 98%N 17.
Definition two_hundred_a : jsstring := repeat 97%N 200.
Definition two_hundred_a_1_b : jsstring := repeat 97%N 199 ++ [98%N].

(* ================================================================== *)
(** * 8. The other callbacks of the component                          *)
(* ================================================================== *)

(** [COUNTRY_CODES], a [Record<string, string>], as its entries in
    insertion order. *)
Definition COUNTRY_CODES : list (jsstring * jsstring) :=
  [ (js "CI", js "C" ++ [244%N] ++ js "te d'Ivoire");
    (js "BF", js "Burkina Faso");
    (js "ML", js "Mali");
    (js "NE", js "Niger") ].

(** [Object.keys(o)]: the own keys of [o]; none of them is an array
    index, so they come in insertion order. *)
Definition Object_keys (o : list (jsstring * jsstring)) : list jsstring :=
  map fst o.

(** [{ ...prev, sourceCountries: l }] *)
Definition with_sourceCountries (prev : SearchParams) (l : list jsstring)
  : SearchParams :=
  {| query := query prev;
     targetType := targetType prev;
     sourceCountries := l;
     fuzzyThreshold := fuzzyThreshold prev |}.

(** The updater [toggleCountry] hands to [setSearchParams]. *)
Definition toggleCountry (code : jsstring) (prev : SearchParams)
  : SearchParams :=
  let current := sourceCountries prev in
  let isSelected := includes current code in
  if isSelected
  then with_sourceCountries prev
         (filter (fun c => negb (str_eqb c code)) current)
  else with_sourceCountries prev (current ++ [code]).

(** The updater [setAllCountries] hands to [setSearchParams]. *)
Definition setAllCountries (selectAll : bool) (prev : SearchParams)
  : SearchParams :=
  with_sourceCountries prev
    (if selectAll then Object_keys COUNTRY_CODES else []).

(** The state of the component: the search parameters, the state
    [handleSearch] writes, and the flag of the report generator. *)
Record Component := {
  searchParams : SearchParams;
  screen : ScreenState;
  isGeneratingPdf : bool
}.

(** The initial values of the [useState] calls. *)
Definition mounted : Component :=
  {| searchParams :=
       {| query := [];
          targetType := All;
          sourceCountries := Object_keys COUNTRY_CODES;
          fuzzyThreshold := 70 |};
     screen :=
       {| matches := [];
          hasSearched := false;
          comment := [];
          screenerName := [];
          showValidationError := false |};
     isGeneratingPdf := false |}.

Definition handleReset (c : Component) : Component :=
  {| searchParams :=
       {| query := [];
          targetType := All;
          sourceCountries := Object_keys COUNTRY_CODES;
          fuzzyThreshold := 70 |};
     screen :=
       {| matches := [];
          hasSearched := false;
          comment := [];
          screenerName := [];
          showValidationError := false |};
     isGeneratingPdf := isGeneratingPdf c |}.

(** ['fr' | 'en'] *)
Inductive Language := fr | en.

(** The text of the alert of [generatePDF]. *)
Definition actionRequired (language : Language) : jsstring :=
  match language with
  | fr =>
      js "Action requise : Veuillez renseigner le nom de l'analyste "
      ++ js "et un commentaire d'analyse pour g"
      ++ [233%N] ++ js "n" ++ [233%N] ++ js "rer le rapport."
  | en =>
      js "Action required: Please provide analyst name and analysis "
      ++ js "comment to generate the report."
  end.

(** What [generatePDF] does besides writing state: it schedules an alert
    ([setTimeout(() => alert(msg), ms)]) or enters the [try] block that
    drives jsPDF.  The block reads the analyst, the comment, the search
    parameters and the matches; what the library makes of them, and
    whether it throws, is outside the repository. *)
Inductive ReportEffect :=
| AlertAfter (ms : nat) (msg : jsstring)
| Report (analyst remarks : jsstring) (sp : SearchParams)
    (found : list MatchResult).

Definition with_showValidationError (st : ScreenState) (b : bool)
  : ScreenState :=
  {| matches := matches st;
     hasSearched := hasSearched st;
     comment := comment st;
     screenerName := screenerName st;
     showValidationError := b |}.

(** The block runs between [setIsGeneratingPdf(true)] and, in [finally],
    [setIsGeneratingPdf(false)]; nothing in it awaits, so the flag is
    [false] again when the callback returns. *)
Definition generatePDF (language : Language) (c : Component)
  : Component * list ReportEffect :=
  let st := screen c in
  if isEmpty (trim (screenerName st)) || isEmpty (trim (comment st)) then
    ({| searchParams := searchParams c;
        screen := with_showValidationError st true;
        isGeneratingPdf := isGeneratingPdf c |},
     [AlertAfter 10 (actionRequired language)])
  else if isGeneratingPdf c then
    ({| searchParams := searchParams c;
        screen := with_showValidationError st false;
        isGeneratingPdf := isGeneratingPdf c |},
     [])
  else
    ({| searchParams := searchParams c;
        screen := with_showValidationError st false;
        isGeneratingPdf := false |},
     [Report (screenerName st) (comment st) (searchParams c) (matches st)]).

Section ReportLabels.
(** [COUNTRY_CODES[code]] falls back to [Object.prototype] for a key the
    object does not own (['constructor'], ['toString'], ...); [inherited]
    is the text [join] prints for what is found there, empty for
    [undefined]. *)
Variable inherited : jsstring -> jsstring.

Definition country_text (code : jsstring) : jsstring :=
  match find (fun entry => str_eqb (fst entry) code) COUNTRY_CODES with
  | Some entry => snd entry
  | None => inherited code
  end.

(** The value the report prints for the scanned lists. *)
Definition sourceLabel (sp : SearchParams) : jsstring :=
  let allCountriesSelected :=
    (length (sourceCountries sp) =? length (Object_keys COUNTRY_CODES))%nat in
  if allCountriesSelected
  then js "Toutes les listes (Consolid" ++ [233%N] ++ js ")"
  else join (js ", ") (map country_text (sourceCountries sp)).

End ReportLabels.

(** What the user can do on the page: type in the three text fields, pick
    a target type, move the slider, click a country tile or one of the
    two links above the tiles, submit the form, press the reset button or
    the report button. *)
Inductive Event :=
| TypeQuery (value : jsstring)
| PickTarget (val : TargetType)
| MoveSlider (val : Z)
| ClickCountry (code : jsstring)
| ClickAll (selectAll : bool)
| Submit
| Reset
| TypeAnalyst (value : jsstring)
| TypeComment (value : jsstring)
| ClickReport.

(** Is the control on the page?  There is one tile for each key of
    [COUNTRY_CODES]; the reset button, the two fields of the analysis and
    the report button are rendered under [hasSearched], and the report
    button is disabled while a report is generated.  (A browser holds
    back the submission of a form whose name field is empty; leaving
    that out only adds calls of [handleSearch] that return at once.) *)
Definition offered (c : Component) (ev : Event) : bool :=
  match ev with
  | ClickCountry code => includes (Object_keys COUNTRY_CODES) code
  | Reset | TypeAnalyst _ | TypeComment _ => hasSearched (screen c)
  | ClickReport => hasSearched (screen c) && negb (isGeneratingPdf c)
  | _ => true
  end.

Section Page.
Variable nfd : jsstring -> jsstring.
Variable language : Language.
(** [t.selectAtLeastOne] *)
Variable selectAtLeastOne : jsstring.
(** The two lists, once loaded. *)
Variable persons : list SanctionedPerson.
Variable entities : list SanctionedEntity.

Definition with_searchParams (c : Component) (sp : SearchParams)
  : Component :=
  {| searchParams := sp;
     screen := screen c;
     isGeneratingPdf := isGeneratingPdf c |}.

Definition with_screen (c : Component) (st : ScreenState) : Component :=
  {| searchParams := searchParams c;
     screen := st;
     isGeneratingPdf := isGeneratingPdf c |}.

(** The state after the handler of an event has run. *)
Definition handle (c : Component) (ev : Event) : Component :=
  let sp := searchParams c in
  let st := screen c in
  match ev with
  | TypeQuery value =>
      with_searchParams c
        {| query := value;
           targetType := targetType sp;
           sourceCountries := sourceCountries sp;
           fuzzyThreshold := fuzzyThreshold sp |}
  | PickTarget val =>
      with_searchParams c
        {| query := query sp;
           targetType := val;
           sourceCountries := sourceCountries sp;
           fuzzyThreshold := fuzzyThreshold sp |}
  | MoveSlider val =>
      with_searchParams c
        {| query := query sp;
           targetType := targetType sp;
           sourceCountries := sourceCountries sp;
           fuzzyThreshold := val |}
  | ClickCountry code => with_searchParams c (toggleCountry code sp)
  | ClickAll selectAll => with_searchParams c (setAllCountries selectAll sp)
  | Submit =>
      with_screen c
        (fst (handleSearch nfd selectAtLeastOne sp persons entities st))
  | Reset => handleReset c
  | TypeAnalyst value =>
      with_screen c
        {| matches := matches st;
           hasSearched := hasSearched st;
           comment := comment st;
           screenerName := value;
           showValidationError := showValidationError st |}
  | TypeComment value =>
      with_screen c
        {| matches := matches st;
           hasSearched := hasSearched st;
           comment := value;
           screenerName := screenerName st;
           showValidationError := showValidationError st |}
  | ClickReport => fst (generatePDF language c)
  end.

(** The states the page can be brought to. *)
Inductive reachable : Component -> Prop :=
| reachable_mounted : reachable mounted
| reachable_handle c ev :
    reachable c -> offered c ev = true -> reachable (handle c ev).

End Page.

(** ** Inputs of the runs *)

(** A name in Arabic script (U+0645 U+062D U+0645 U+062F); the Burkina
    Faso list searched for it; the query [Hama Bande] with two other
    selections; and the page after that query was typed with the Burkina
    Faso list alone. *)
Definition muhammad : jsstring := [1605; 1581; 1605; 1583]%N.

Definition muhammad_bf : SearchParams :=
  {| query := muhammad; targetType := All;
     sourceCountries := [js "BF"]; fuzzyThreshold := 70 |}.

Definition name_ci_bf : SearchParams :=
  {| query := js "Hama Bande"; targetType := All;
     sourceCountries := [js "CI"; js "BF"]; fuzzyThreshold := 70 |}.

Definition name_ml_ci : SearchParams :=
  {| query := js "Hama Bande"; targetType := All;
     sourceCountries := [js "ML"; js "CI"]; fuzzyThreshold := 70 |}.

Definition name_typed : Component :=
  {| searchParams := name_bf; screen := fresh_state;
     isGeneratingPdf := false |}.

(* ================================================================== *)
(** * 9. Vocabulary of the proofs                                      *)
(* ================================================================== *)

(** A comparator read as a relation: [x] may stay before [y]. *)
Definition stays_before (A : Type) (le : A -> A -> bool) (x y : A) : Prop :=
  le x y = true.

(** Descending order of a key, and the class of the elements with a given
    key. *)
Definition key_desc (A : Type) (key : A -> Z) (x y : A) : Prop :=
  (key x >= key y)%Z.

Definition has_key (A : Type) (key : A -> Z) (v : Z) (r : A) : bool :=
  (key r =? v)%Z.

(** The alphabet of a normalized token. *)
Definition isKey (c : codeunit) : bool := isLower c || isDigit c.

(** A string that does not start, or does not end, with white space. *)
Definition starts_clean (s : jsstring) : bool :=
  match s with
  | [] => true
  | c :: _ => negb (isWhiteSpace c)
  end.

Fixpoint ends_clean (s : jsstring) : bool :=
  match s with
  | [] => true
  | c :: r =>
      match r with
      | [] => negb (isWhiteSpace c)
      | _ => ends_clean r
      end
  end.

(** A token of a normalized key: not empty, letters and digits only. *)
Definition is_token (t : jsstring) : Prop :=
  t <> [] /\ Forall (fun c => isKey c = true) t.

(** A normalized key: sorted tokens joined by single spaces. *)
Definition is_key (k : jsstring) : Prop :=
  exists toks,
    toks <> [] /\ Forall is_token toks
    /\ Sorted (stays_before str_leb) toks
    /\ k = join [32%N] toks.

Section TableVocabulary.
Variables a b : jsstring.

(** What the cell in row [i] and column [j] must hold. *)
Definition cell (i j : nat) : nat := lev (rev (firstn i b)) (rev (firstn j a)).

(** Rows [0..i] are complete, the rows below still hold their first
    column only. *)
Definition rows_done (i : nat) (m : matrix) : Prop :=
  length m = S (length b)
  /\ (forall r, r <= i ->
        length (nth r m []) = S (length a)
        /\ forall c, c <= length a -> mget m r c = cell r c)
  /\ (forall r, i < r <= length b -> nth r m [] = [r]).

(** Row [i] is filled up to column [j - 1]. *)
Definition row_open (i j : nat) (m : matrix) : Prop :=
  length m = S (length b)
  /\ (forall r, r < i ->
        length (nth r m []) = S (length a)
        /\ forall c, c <= length a -> mget m r c = cell r c)
  /\ (forall r, i < r <= length b -> nth r m [] = [r])
  /\ length (nth i m []) = j
  /\ (forall c, c < j -> mget m i c = cell i c).

End TableVocabulary.

Section ScreeningVocabulary.
Variable nfd : jsstring -> jsstring.

(** What a loop keeps of a subject, whatever its variant. *)
Definition in_reach (sp : SearchParams) (s : Subject) : bool :=
  includes (sourceCountries sp) (subject_country s)
  && (fuzzyThreshold sp <=? score (best_match nfd (query sp) s))%Z.

End ScreeningVocabulary.

(** Does the double of the source give the exact quotient rounded half
    up? *)
Definition rounds_as_claimed (d m : nat) : bool :=
  (Math_round ((1 - number_of_nat d / number_of_nat m) * 100)%float
   =? round_half_up_percent d m)%Z.

(** A binary64 value that is at most one: the condition under which
    [1 - q] is not negative. *)
Definition at_most_one (q : spec_float) : Prop :=
  match q with
  | S754_finite s m e => s = false /\ (e <= 0)%Z /\ (Zpos m <= 2 ^ (- e))%Z
  | _ => True
  end.

(** Zero, an infinity, not a number, or a positive number. *)
Definition not_negative (x : spec_float) : Prop :=
  match x with
  | S754_finite true _ _ => False
  | _ => True
  end.

(** A binary64 value that is at most one hundred. *)
Definition at_most_hundred (x : spec_float) : Prop :=
  match x with
  | S754_finite false m e =>
      (e <= -46)%Z /\ (Zpos m <= 7036874417766400 * 2 ^ (-46 - e))%Z
  | _ => True
  end.

(** The words of a string: its maximal runs of code units that are not
    white space. *)
Definition words (s : jsstring) : list jsstring :=
  filter (fun t => negb (isEmpty t)) (split_ws s).

(** The pieces of a list that are not empty once [g] has been applied
    to them. *)
Definition kept_pieces (g : jsstring -> jsstring) (l : list jsstring)
  : list jsstring :=
  filter (fun t => negb (isEmpty t)) (map g l).

(** No white space next to white space. *)
Fixpoint single_spaced (s : jsstring) : bool :=
  match s with
  | [] => true
  | c :: r =>
      match r with
      | [] => true
      | d :: _ => negb (isWhiteSpace c && isWhiteSpace d) && single_spaced r
      end
  end.

(** An ASCII letter or digit: what the second [replace] of the
    normalizer keeps besides white space. *)
Definition isAlnum (c : codeunit) : bool :=
  isLower c || isUpper c || isDigit c.

(** A word: letters and digits, at least one. *)
Definition is_word (t : jsstring) : Prop :=
  t <> [] /\ Forall (fun c => isAlnum c = true) t.

(** A string the normalizer reads nothing from: its decomposition holds
    no ASCII letter and no digit. *)
Definition unreadable (nfd : jsstring -> jsstring) (s : jsstring) : Prop :=
  Forall (fun c => isAlnum c = false) (nfd s).

(** A selection of lists as the tiles can produce it: keys of
    [COUNTRY_CODES], each at most once. *)
Definition selection_ok (l : list jsstring) : Prop :=
  NoDup l /\ incl l (Object_keys COUNTRY_CODES).

(** The country of the record a result reports. *)
Definition result_country (r : MatchResult) : jsstring :=
  match r with
  | PersonMatchResult item _ _ => person_source_country item
  | EntityMatchResult item _ _ => entity_source_country item
  end.

(** Does the double of the source stay below 100 for a distance [d] of
    at least one edit in [m] code units? *)
Definition below_full_score (d m : nat) : bool :=
  (Math_round ((1 - number_of_nat d / number_of_nat m) * 100)%float <? 100)%Z.

(** A string of a length that ECMAScript allows, at most [2^53 - 1] code
    units; such a length is a number without rounding. *)
Definition fits_number (s : jsstring) : Prop :=
  (Z.of_nat (length s) < 2 ^ 53)%Z.

(* ================================================================== *)
(** * 10. Facts about the built-ins                                    *)
(* ================================================================== *)

(** ** Sorting *)

Section SortFacts.
Variable A : Type.
Variable le : A -> A -> bool.
Hypothesis le_total : forall x y, le x y = false -> le y x = true.

Lemma insert_perm x l : Permutation (insert le x l) (x :: l).
Proof.
  induction l as [|y r IH]; simpl; [reflexivity|].
  destruct (le x y); [reflexivity|].
  rewrite IH. apply perm_swap.
Qed.

Lemma Array_sort_perm l : Permutation (Array_sort le l) l.
Proof.
  induction l as [|x r IH]; simpl; [constructor|].
  rewrite insert_perm. now constructor.
Qed.

Lemma insert_sorted x l : Sorted (stays_before le) l -> Sorted (stays_before le) (insert le x l).
Proof.
  induction 1 as [|y r Hr IH Hhd]; simpl.
  - repeat constructor.
  - destruct (le x y) eqn:E.
    + constructor; [now constructor|]. now constructor.
    + constructor; [exact IH|].
      destruct r as [|z r']; simpl.
      * constructor. now apply le_total.
      * destruct (le x z); constructor.
        -- now apply le_total.
        -- now inversion Hhd.
Qed.

Lemma Array_sort_sorted l : Sorted (stays_before le) (Array_sort le l).
Proof.
  induction l as [|x r IH]; simpl; [constructor|]. now apply insert_sorted.
Qed.

Lemma Array_sort_fixed l : Sorted (stays_before le) l -> Array_sort le l = l.
Proof.
  induction 1 as [|x r Hr IH Hhd]; simpl; [reflexivity|].
  rewrite IH. destruct Hhd as [|y r' Hxy]; simpl; [reflexivity|].
  unfold stays_before in Hxy. now rewrite Hxy.
Qed.

Lemma Array_sort_Forall (P : A -> Prop) l :
  Forall P l -> Forall P (Array_sort le l).
Proof.
  intros H. eapply Permutation_Forall; [|exact H].
  symmetry. apply Array_sort_perm.
Qed.

(** Stability: a class of elements the comparator ties keeps its order. *)
Lemma insert_stable (p : A -> bool) x l :
  (forall a b, p a = true -> p b = true -> le a b = true) ->
  filter p (insert le x l) = filter p (x :: l).
Proof.
  intros Htie. induction l as [|y r IH]; simpl; [reflexivity|].
  destruct (le x y) eqn:E; simpl; [reflexivity|].
  rewrite IH. simpl.
  destruct (p x) eqn:Px, (p y) eqn:Py; try reflexivity.
  rewrite (Htie x y Px Py) in E. discriminate.
Qed.

Lemma Array_sort_stable (p : A -> bool) l :
  (forall a b, p a = true -> p b = true -> le a b = true) ->
  filter p (Array_sort le l) = filter p l.
Proof.
  intros Htie. induction l as [|x r IH]; simpl; [reflexivity|].
  rewrite insert_stable by exact Htie. simpl. now rewrite IH.
Qed.

End SortFacts.

(** ** Code units *)

Ltac units :=
  unfold isKey, isKept, isLower, isUpper, isDigit, isWhiteSpace,
    isCombiningMark, isAscii, lowerUnit in *;
  repeat match goal with
         | |- _ = false => apply not_true_is_false; intro
         | H : _ = false |- _ => apply not_true_iff_false in H
         end;
  repeat rewrite ?andb_true_iff, ?orb_true_iff, ?negb_true_iff, ?N.leb_le,
    ?N.eqb_eq, ?N.ltb_lt in *;
  try lia.

Lemma key_not_space c : isKey c = true -> isWhiteSpace c = false.
Proof. intros. units. Qed.

Lemma key_not_mark c : isKey c = true -> isCombiningMark c = false.
Proof. intros. units. Qed.

Lemma key_kept c : isKey c = true -> isKept c = true.
Proof. intros. units. Qed.

Lemma key_ascii c : isKey c = true -> isAscii c = true.
Proof. intros. units. Qed.

Lemma key_lower c : isKey c = true -> lowerUnit c = c.
Proof.
  intros H. unfold lowerUnit.
  assert (E : isUpper c = false) by units. now rewrite E.
Qed.

Lemma kept_lower c :
  isKept c = true ->
  isKey (lowerUnit c) = true \/ isWhiteSpace (lowerUnit c) = true.
Proof.
  intros H. unfold lowerUnit. destruct (isUpper c) eqn:E.
  - left. units.
  - units.
Qed.

Lemma str_leb_total x y : str_leb x y = false -> str_leb y x = true.
Proof.
  revert y. induction x as [|a x IH]; intros [|b y]; simpl; try easy.
  destruct (N.ltb_spec a b), (N.ltb_spec b a); try easy; try lia.
  apply IH.
Qed.

Lemma str_eqb_eq x y : str_eqb x y = true <-> x = y.
Proof. unfold str_eqb. destruct (list_eq_dec N.eq_dec x y); easy. Qed.

Lemma str_eqb_refl x : str_eqb x x = true.
Proof. now apply str_eqb_eq. Qed.

Lemma isEmpty_true s : isEmpty s = true <-> s = [].
Proof. destruct s; simpl; easy. Qed.

(** ** Trimming, splitting and joining *)

Lemma trimStart_Forall (P : codeunit -> Prop) s :
  Forall P s -> Forall P (trimStart s).
Proof.
  induction 1 as [|c r Hc Hr IH]; simpl; [constructor|].
  destruct (isWhiteSpace c); [exact IH|now constructor].
Qed.

Lemma trimEnd_Forall (P : codeunit -> Prop) s :
  Forall P s -> Forall P (trimEnd s).
Proof.
  induction 1 as [|c r Hc Hr IH]; simpl; [constructor|].
  destruct (trimEnd r) as [|d r'].
  - destruct (isWhiteSpace c); repeat constructor; assumption.
  - now constructor.
Qed.

Lemma trim_Forall (P : codeunit -> Prop) s : Forall P s -> Forall P (trim s).
Proof. intros. now apply trimEnd_Forall, trimStart_Forall. Qed.

Lemma trimStart_starts s : starts_clean (trimStart s) = true.
Proof.
  induction s as [|c r IH]; simpl; [reflexivity|].
  destruct (isWhiteSpace c) eqn:E; [exact IH|]. simpl. now rewrite E.
Qed.

Lemma trimEnd_starts s :
  starts_clean s = true -> starts_clean (trimEnd s) = true.
Proof.
  destruct s as [|c r]; simpl; [reflexivity|]. intros H.
  destruct (trimEnd r); simpl; [|exact H].
  destruct (isWhiteSpace c) eqn:W; [discriminate|]. simpl. now rewrite W.
Qed.

Lemma trimEnd_ends s : ends_clean (trimEnd s) = true.
Proof.
  induction s as [|c r IH]; simpl; [reflexivity|].
  destruct (trimEnd r) as [|d r'] eqn:E.
  - destruct (isWhiteSpace c) eqn:W; simpl; [reflexivity|now rewrite W].
  - exact IH.
Qed.

Lemma trimStart_fixed s : starts_clean s = true -> trimStart s = s.
Proof.
  destruct s as [|c r]; simpl; [reflexivity|].
  now destruct (isWhiteSpace c).
Qed.

Lemma trimEnd_fixed s : ends_clean s = true -> trimEnd s = s.
Proof.
  induction s as [|c r IH]; [reflexivity|].
  intros H. simpl in *. destruct r as [|d r'].
  - simpl. now destruct (isWhiteSpace c).
  - rewrite (IH H). reflexivity.
Qed.

Lemma trim_fixed s :
  starts_clean s = true -> ends_clean s = true -> trim s = s.
Proof.
  intros Hs He. unfold trim. rewrite (trimStart_fixed _ Hs).
  now apply trimEnd_fixed.
Qed.

Lemma trim_clean s :
  starts_clean (trim s) = true /\ ends_clean (trim s) = true.
Proof.
  split; [apply trimEnd_starts, trimStart_starts|apply trimEnd_ends].
Qed.

Lemma split_ws_cons s : exists t ts, split_ws s = t :: ts.
Proof.
  induction s as [|c r (t & ts & IH)]; simpl; [now eexists _, _|].
  destruct (isWhiteSpace c).
  - destruct r as [|d r']; [now eexists _, _|].
    destruct (isWhiteSpace d); [now rewrite IH; eexists _, _|now eexists _, _].
  - rewrite IH. now eexists _, _.
Qed.

Lemma split_ws_Forall (P : codeunit -> Prop) s :
  Forall P s -> Forall (Forall P) (split_ws s).
Proof.
  induction 1 as [|c r Hc Hr IH]; simpl; [repeat constructor|].
  destruct (isWhiteSpace c).
  - destruct r as [|d r']; [repeat constructor|].
    destruct (isWhiteSpace d); [exact IH|now constructor].
  - destruct (split_ws r) as [|t ts]; [repeat constructor; assumption|].
    inversion IH; subst. constructor; [now constructor|assumption].
Qed.

(** No piece contains white space. *)
Lemma split_ws_no_space s :
  Forall (Forall (fun c => isWhiteSpace c = false)) (split_ws s).
Proof.
  induction s as [|c r IH]; simpl; [repeat constructor|].
  destruct (isWhiteSpace c) eqn:W.
  - destruct r as [|d r']; [repeat constructor|].
    destruct (isWhiteSpace d); [exact IH|now constructor].
  - destruct (split_ws r) as [|t ts]; [repeat constructor; assumption|].
    inversion IH; subst. constructor; [now constructor|assumption].
Qed.

Lemma split_ws_head c r :
  isWhiteSpace c = false -> exists t ts, split_ws (c :: r) = (c :: t) :: ts.
Proof.
  intros W. simpl. rewrite W.
  destruct (split_ws r) as [|t ts]; now eexists _, _.
Qed.

(** Only the first and the last piece can be empty. *)
Lemma split_ws_tail s :
  ends_clean s = true -> Forall (fun t => t <> []) (tl (split_ws s)).
Proof.
  induction s as [|c r IH]; intros H; [constructor|].
  destruct r as [|d r'].
  - simpl in *. destruct (isWhiteSpace c); [discriminate|constructor].
  - assert (H' : ends_clean (d :: r') = true) by exact H.
    specialize (IH H').
    change (split_ws (c :: d :: r'))
      with (if isWhiteSpace c
            then (if isWhiteSpace d then split_ws (d :: r')
                  else [] :: split_ws (d :: r'))
            else match split_ws (d :: r') with
                 | [] => [[c]]
                 | t :: ts => (c :: t) :: ts
                 end).
    destruct (isWhiteSpace c).
    + destruct (isWhiteSpace d) eqn:W'; [exact IH|].
      destruct (@split_ws_head d r' W') as (t & ts & E).
      rewrite E in *. simpl. constructor; [discriminate|exact IH].
    + destruct (split_ws (d :: r')) as [|t ts]; [constructor|exact IH].
Qed.

Lemma split_ws_clean s :
  starts_clean s = true -> ends_clean s = true ->
  s = [] \/ Forall (fun t => t <> []) (split_ws s).
Proof.
  intros Hs He. destruct s as [|c r]; [now left|right].
  simpl in Hs. apply negb_true_iff in Hs.
  pose proof (split_ws_tail _ He) as Ht.
  destruct (@split_ws_head c r Hs) as (t & ts & E). rewrite E in *.
  constructor; [discriminate|exact Ht].
Qed.

Lemma split_ws_token t :
  Forall (fun c => isWhiteSpace c = false) t -> split_ws t = [t].
Proof.
  induction 1 as [|c r Hc Hr IH]; simpl; [reflexivity|].
  now rewrite Hc, IH.
Qed.

Lemma split_ws_app t d rest :
  Forall (fun c => isWhiteSpace c = false) t ->
  isWhiteSpace d = false ->
  split_ws (t ++ 32%N :: d :: rest) = t :: split_ws (d :: rest).
Proof.
  intros Ht Hd. induction Ht as [|c r Hc Hr IH].
  - simpl app. change (split_ws (32%N :: d :: rest))
      with (if isWhiteSpace d then split_ws (d :: rest)
            else [] :: split_ws (d :: rest)).
    now rewrite Hd.
  - simpl app. simpl split_ws at 1. rewrite Hc.
    cbn [app] in IH. now rewrite IH.
Qed.

Lemma join_cons_cons sep t u r :
  join sep (t :: u :: r) = t ++ sep ++ join sep (u :: r).
Proof. reflexivity. Qed.

Lemma join_head sep c t r :
  exists rest, join sep ((c :: t) :: r) = c :: rest.
Proof. destruct r; simpl; now eexists. Qed.

Lemma token_no_space t :
  is_token t -> Forall (fun c => isWhiteSpace c = false) t.
Proof.
  intros [_ H]. eapply Forall_impl; [|exact H]. apply key_not_space.
Qed.

Lemma split_join l :
  l <> [] -> Forall is_token l -> split_ws (join [32%N] l) = l.
Proof.
  intros Hne H. induction H as [|t r Ht Hr IH]; [easy|].
  destruct r as [|u r'].
  - simpl. now apply split_ws_token, token_no_space.
  - assert (Hu : is_token u) by now inversion Hr.
    destruct u as [|d u']; [now destruct Hu|].
    destruct (join_head [32%N] d u' r') as (rest & E).
    rewrite join_cons_cons, E.
    change ([32%N] ++ d :: rest) with (32%N :: d :: rest).
    rewrite split_ws_app.
    + rewrite <- E, IH; [reflexivity|discriminate].
    + now apply token_no_space.
    + apply key_not_space. destruct Hu as [_ Hu]. now inversion Hu.
Qed.

Lemma ends_clean_app a b : b <> [] -> ends_clean (a ++ b) = ends_clean b.
Proof.
  intros Hb. induction a as [|c r IH]; [reflexivity|].
  simpl app. simpl ends_clean. rewrite IH.
  destruct (r ++ b) eqn:E; [|reflexivity].
  apply app_eq_nil in E. now destruct E.
Qed.

Lemma token_ends_clean t : is_token t -> ends_clean t = true.
Proof.
  intros [Hne H]. induction H as [|c r Hc Hr IH]; [easy|].
  simpl. destruct r as [|d r'].
  - now rewrite (key_not_space _ Hc).
  - apply IH. discriminate.
Qed.

Lemma join_clean l :
  l <> [] -> Forall is_token l ->
  join [32%N] l <> [] /\ starts_clean (join [32%N] l) = true
  /\ ends_clean (join [32%N] l) = true.
Proof.
  intros Hne H. induction H as [|t r Ht Hr IH]; [easy|].
  destruct t as [|c t']; [now destruct Ht|].
  assert (Hc : isWhiteSpace c = false).
  { apply key_not_space. destruct Ht as [_ Ht]. now inversion Ht. }
  destruct (join_head [32%N] c t' r) as (rest & E).
  split; [rewrite E; discriminate|]. split; [now rewrite E; simpl; rewrite Hc|].
  destruct r as [|u r'].
  - now apply token_ends_clean.
  - rewrite join_cons_cons. destruct IH as (Hj & _ & He); [discriminate|].
    rewrite ends_clean_app.
    + rewrite ends_clean_app; assumption.
    + simpl. discriminate.
Qed.

Lemma join_units l :
  Forall is_token l ->
  Forall (fun c => isKey c = true \/ c = 32%N) (join [32%N] l).
Proof.
  induction 1 as [|t r Ht Hr IH]; [constructor|].
  assert (Hk : Forall (fun c => isKey c = true \/ c = 32%N) t).
  { destruct Ht as [_ Ht]. eapply Forall_impl; [|exact Ht]. now left. }
  destruct r as [|u r']; [exact Hk|].
  rewrite join_cons_cons. apply Forall_app. split; [exact Hk|].
  simpl app. constructor; [now right|exact IH].
Qed.

(* ================================================================== *)
(** * 11. The normalizer                                               *)
(* ================================================================== *)

Lemma filter_fixed (f : codeunit -> bool) s :
  Forall (fun c => f c = true) s -> filter f s = s.
Proof.
  induction 1 as [|c r Hc Hr IH]; simpl; [reflexivity|].
  now rewrite Hc, IH.
Qed.

Lemma map_fixed (f : codeunit -> codeunit) s :
  Forall (fun c => f c = c) s -> map f s = s.
Proof.
  induction 1 as [|c r Hc Hr IH]; simpl; [reflexivity|].
  now rewrite Hc, IH.
Qed.

Lemma key_unit_facts c :
  isKey c = true \/ c = 32%N ->
  isAscii c = true /\ negb (isCombiningMark c) = true
  /\ negb (negb (isKept c)) = true /\ lowerUnit c = c.
Proof.
  intros [H| ->]; [|now vm_compute].
  rewrite (key_ascii _ H), (key_not_mark _ H), (key_kept _ H), (key_lower _ H).
  easy.
Qed.

Section NormalizerFacts.
Variable nfd : jsstring -> jsstring.

Lemma normalizeString_nonempty s :
  s <> [] ->
  normalizeString nfd s =
  join [32%N]
    (Array_sort str_leb
      (split_ws
        (trim
          (toLowerCase
            (replace_class (fun c => negb (isKept c))
              (replace_class isCombiningMark (nfd s))))))).
Proof. now destruct s. Qed.

(** What reaches [trim]: letters, digits and white space. *)
Lemma cleaned_units s :
  Forall (fun c => isKey c = true \/ isWhiteSpace c = true)
    (toLowerCase (replace_class (fun c => negb (isKept c)) s)).
Proof.
  unfold toLowerCase, replace_class. apply Forall_map, Forall_forall.
  intros c Hc. apply filter_In in Hc. destruct Hc as [_ Hc].
  apply kept_lower. now rewrite negb_involutive in Hc.
Qed.

Lemma normalize_shape s :
  normalizeString nfd s = [] \/ is_key (normalizeString nfd s).
Proof.
  destruct s as [|c0 s0]; [now left|].
  rewrite normalizeString_nonempty by discriminate.
  set (w := toLowerCase _).
  assert (Hw : Forall (fun c => isKey c = true \/ isWhiteSpace c = true) w)
    by apply cleaned_units.
  destruct (trim_clean w) as [Hs He].
  destruct (split_ws_clean _ Hs He) as [E|Hne]; [left; now rewrite E|right].
  set (toks := split_ws (trim w)) in *.
  assert (Htok : Forall is_token toks).
  { pose proof (split_ws_no_space (trim w)) as H1.
    pose proof (split_ws_Forall (trim_Forall Hw)) as H2.
    fold toks in H1, H2. rewrite Forall_forall in *.
    intros t Ht. split; [now apply Hne|].
    specialize (H1 t Ht). specialize (H2 t Ht). rewrite Forall_forall in *.
    intros c Hc. destruct (H2 c Hc) as [K|W]; [exact K|].
    rewrite (H1 c Hc) in W. discriminate. }
  exists (Array_sort str_leb toks). repeat split.
  - destruct (split_ws_cons (trim w)) as (t & ts & E). fold toks in E.
    intros N. pose proof (Array_sort_perm str_leb toks) as P.
    rewrite N, E in P. now apply Permutation_nil_cons in P.
  - now apply Array_sort_Forall.
  - apply Array_sort_sorted, str_leb_total.
Qed.

Lemma normalize_key k :
  nfd_fixes_ascii nfd -> is_key k -> normalizeString nfd k = k.
Proof.
  intros Hnfd (toks & Hne & Htok & Hsorted & ->).
  destruct (join_clean Hne Htok) as (Hj & Hs & He).
  pose proof (join_units Htok) as Hu.
  set (k := join [32%N] toks) in *.
  assert (F : Forall (fun c => isAscii c = true
                        /\ negb (isCombiningMark c) = true
                        /\ negb (negb (isKept c)) = true
                        /\ lowerUnit c = c) k).
  { eapply Forall_impl; [|exact Hu]. apply key_unit_facts. }
  rewrite normalizeString_nonempty by exact Hj.
  rewrite Hnfd.
  2:{ apply forallb_forall. rewrite Forall_forall in F. intros c Hc.
      now apply F. }
  unfold replace_class, toLowerCase.
  rewrite (filter_fixed (fun c => negb (isCombiningMark c))).
  2:{ eapply Forall_impl; [|exact F]. now intros c (_ & H & _). }
  rewrite (filter_fixed (fun c => negb (negb (isKept c)))).
  2:{ eapply Forall_impl; [|exact F]. now intros c (_ & _ & H & _). }
  rewrite map_fixed.
  2:{ eapply Forall_impl; [|exact F]. now intros c (_ & _ & _ & H). }
  rewrite (trim_fixed _ Hs He). unfold k.
  rewrite (split_join Hne Htok).
  now rewrite (Array_sort_fixed Hsorted).
Qed.

End NormalizerFacts.

(** C9.  Normalizing a normalized key changes nothing:
    [normalize(normalize(s)) = normalize(s)] for every string [s], for a
    canonical decomposition that leaves ASCII strings alone. *)
Theorem normalize_idempotent (nfd : jsstring -> jsstring) (s : jsstring) :
  nfd_fixes_ascii nfd ->
  normalizeString nfd (normalizeString nfd s) = normalizeString nfd s.
Proof.
  intros Hnfd. destruct (normalize_shape nfd s) as [E|K].
  - now rewrite E.
  - now apply normalize_key.
Qed.

(* ================================================================== *)
(** * 12. The distance engine computes the edit distance              *)
(* ================================================================== *)

(** ** The textbook recursion is the minimum over edit scripts *)

Lemma lev_nil_r s : lev s [] = length s.
Proof. now destruct s. Qed.

Lemma lev_cons_cons x y s t :
  lev (x :: s) (y :: t) =
  Nat.min ((if (x =? y)%N then 0 else 1) + lev s t)
    (Nat.min (S (lev (x :: s) t)) (S (lev s (y :: t)))).
Proof. reflexivity. Qed.

Lemma edit_script_nil_l t : edit_script [] t (length t).
Proof. induction t; simpl; now constructor. Qed.

Lemma edit_script_nil_r s : edit_script s [] (length s).
Proof. induction s; simpl; now constructor. Qed.

Lemma lev_script s t : edit_script s t (lev s t).
Proof.
  revert t. induction s as [|x s IHs]; intros t; [apply edit_script_nil_l|].
  induction t as [|y t IHt]; [apply (edit_script_nil_r (x :: s))|].
  rewrite lev_cons_cons.
  destruct (Nat.min_spec ((if (x =? y)%N then 0 else 1) + lev s t)
              (Nat.min (S (lev (x :: s) t)) (S (lev s (y :: t)))))
    as [[_ ->]|[_ ->]].
  - destruct (N.eqb_spec x y) as [->|_]; simpl.
    + now apply edit_keep.
    + now apply edit_substitute.
  - destruct (Nat.min_spec (S (lev (x :: s) t)) (S (lev s (y :: t))))
      as [[_ ->]|[_ ->]].
    + now apply edit_insert.
    + now apply edit_delete.
Qed.

Lemma lev_least s t n : edit_script s t n -> lev s t <= n.
Proof.
  induction 1 as [|c a b n _ IH|c c' a b n _ IH|c a b n _ IH|c a b n _ IH].
  - reflexivity.
  - rewrite lev_cons_cons, N.eqb_refl. lia.
  - rewrite lev_cons_cons. destruct (c =? c')%N; lia.
  - destruct b as [|y b].
    + rewrite lev_nil_r in *. simpl. lia.
    + rewrite lev_cons_cons. lia.
  - destruct a as [|x a].
    + simpl in *. lia.
    + rewrite lev_cons_cons. lia.
Qed.

Lemma lev_is_edit_distance s t : is_edit_distance s t (lev s t).
Proof. split; [apply lev_script|apply lev_least]. Qed.

Lemma is_edit_distance_unique s t d d' :
  is_edit_distance s t d -> is_edit_distance s t d' -> d = d'.
Proof.
  intros [H1 M1] [H2 M2]. apply Nat.le_antisymm; auto.
Qed.

(** Dropping the first character of either string saves at most one edit. *)
Lemma edit_script_drop_r s y t n :
  edit_script s (y :: t) n -> exists m, m <= S n /\ edit_script s t m.
Proof.
  intros H. remember (y :: t) as u eqn:E. revert y t E.
  induction H as [|c a b n H IH|c c' a b n H IH|c a b n H IH|c a b n H IH];
    intros y t E; try discriminate.
  - injection E as -> ->. exists (S n). split; [lia|now constructor].
  - injection E as -> ->. exists (S n). split; [lia|now constructor].
  - destruct (IH _ _ E) as (m & Hm & Hs).
    exists (S m). split; [lia|now constructor].
  - injection E as -> ->. exists n. split; [lia|assumption].
Qed.

Lemma edit_script_sym s t n : edit_script s t n -> edit_script t s n.
Proof. induction 1; now constructor. Qed.

Lemma edit_script_drop_l x s t n :
  edit_script (x :: s) t n -> exists m, m <= S n /\ edit_script s t m.
Proof.
  intros H. apply edit_script_sym, edit_script_drop_r in H.
  destruct H as (m & Hm & H). exists m. split; [exact Hm|].
  now apply edit_script_sym.
Qed.

Lemma lev_drop_r s y t : lev s t <= S (lev s (y :: t)).
Proof.
  destruct (edit_script_drop_r (lev_script s (y :: t))) as (m & Hm & H).
  apply lev_least in H. lia.
Qed.

Lemma lev_drop_l x s t : lev s t <= S (lev (x :: s) t).
Proof.
  destruct (edit_script_drop_l (lev_script (x :: s) t)) as (m & Hm & H).
  apply lev_least in H. lia.
Qed.

(** The recurrence the source fills the table with. *)
Lemma lev_same x s t : lev (x :: s) (x :: t) = lev s t.
Proof.
  rewrite lev_cons_cons, N.eqb_refl.
  pose proof (lev_drop_r s x t). pose proof (lev_drop_l x s t).
  lia.
Qed.

Lemma lev_differ x y s t :
  x <> y ->
  lev (x :: s) (y :: t) =
  Nat.min (lev s t + 1)
    (Nat.min (lev (x :: s) t + 1) (lev s (y :: t) + 1)).
Proof.
  intros H. rewrite lev_cons_cons.
  destruct (N.eqb_spec x y); [contradiction|]. lia.
Qed.

(** Reading both strings from the right gives the same distance. *)
Lemma edit_script_snoc_keep s t n c :
  edit_script s t n -> edit_script (s ++ [c]) (t ++ [c]) n.
Proof. induction 1; simpl; repeat constructor; assumption. Qed.

Lemma edit_script_snoc_substitute s t n c c' :
  edit_script s t n -> edit_script (s ++ [c]) (t ++ [c']) (S n).
Proof. induction 1; simpl; repeat constructor; assumption. Qed.

Lemma edit_script_snoc_delete s t n c :
  edit_script s t n -> edit_script (s ++ [c]) t (S n).
Proof. induction 1; simpl; repeat constructor; assumption. Qed.

Lemma edit_script_snoc_insert s t n c :
  edit_script s t n -> edit_script s (t ++ [c]) (S n).
Proof. induction 1; simpl; repeat constructor; assumption. Qed.

Lemma edit_script_rev s t n :
  edit_script s t n -> edit_script (rev s) (rev t) n.
Proof.
  induction 1; simpl.
  - constructor.
  - now apply edit_script_snoc_keep.
  - now apply edit_script_snoc_substitute.
  - now apply edit_script_snoc_delete.
  - now apply edit_script_snoc_insert.
Qed.

Lemma lev_rev s t : lev (rev s) (rev t) = lev s t.
Proof.
  apply Nat.le_antisymm.
  - apply lev_least, edit_script_rev, lev_script.
  - pose proof (edit_script_rev (lev_script (rev s) (rev t))) as H.
    rewrite !rev_involutive in H. now apply lev_least.
Qed.

Lemma lev_sym s t : lev s t = lev t s.
Proof.
  apply Nat.le_antisymm; apply lev_least, edit_script_sym, lev_script.
Qed.

(** ** The table of the source *)

Lemma array_set_length (A : Type) (h : A) l n v :
  n <= length l -> length (array_set h l n v) = Nat.max (length l) (S n).
Proof.
  revert l. induction n as [|n IH]; intros [|x r] H; simpl in *;
    try lia; try reflexivity.
  rewrite IH by lia. reflexivity.
Qed.

Lemma array_set_nth (A : Type) (h d : A) l n v k :
  n <= length l ->
  nth k (array_set h l n v) d = if k =? n then v else nth k l d.
Proof.
  revert l k. induction n as [|n IH]; intros [|x r] k H; simpl in *; try lia.
  - destruct k as [|[|k]]; reflexivity.
  - destruct k; reflexivity.
  - destruct k as [|k]; [reflexivity|]. apply IH. lia.
Qed.

Lemma mset_length m i j v :
  i < length m -> length (mset m i j v) = length m.
Proof.
  intros H. unfold mset. rewrite array_set_length by lia. lia.
Qed.

Lemma mset_row m i j v r :
  i < length m ->
  nth r (mset m i j v) [] =
  if r =? i then array_set 0 (nth i m []) j v else nth r m [].
Proof.
  intros H. unfold mset. apply array_set_nth. lia.
Qed.

Lemma mset_get m i j v r c :
  i < length m -> j <= length (nth i m []) ->
  mget (mset m i j v) r c =
  if r =? i then (if c =? j then v else mget m i c) else mget m r c.
Proof.
  intros Hi Hj. unfold mget. rewrite mset_row by exact Hi.
  destruct (r =? i); [|reflexivity].
  now apply array_set_nth.
Qed.

(** The rule for a counting loop: an invariant that holds on entry and is
    kept by every turn holds on exit. *)
Lemma for_loop (M : Type) (P : nat -> M -> Prop) (f : M -> nat -> M) n :
  forall start m,
    P start m ->
    (forall k m', start <= k < start + n -> P k m' -> P (S k) (f m' k)) ->
    P (start + n) (fold_left f (seq start n) m).
Proof.
  induction n as [|n IH]; intros start m H0 Hstep; simpl.
  - now rewrite Nat.add_0_r.
  - rewrite <- Nat.add_succ_comm. apply IH.
    + apply Hstep; [lia|exact H0].
    + intros k m' Hk. apply Hstep. lia.
Qed.

Section Table.
Variables a b : jsstring.

Lemma cell_0_r i : i <= length b -> cell a b i 0 = i.
Proof.
  intros H. unfold cell. simpl. rewrite lev_nil_r, length_rev.
  apply firstn_length_le. exact H.
Qed.

Lemma cell_0_l j : j <= length a -> cell a b 0 j = j.
Proof.
  intros H. unfold cell. simpl. rewrite length_rev.
  apply firstn_length_le. exact H.
Qed.

Lemma rev_firstn_S (s : jsstring) k x :
  nth_error s k = Some x -> rev (firstn (S k) s) = x :: rev (firstn k s).
Proof.
  revert k. induction s as [|y s IH]; intros [|k] H; simpl in *;
    try discriminate.
  - now injection H as ->.
  - rewrite (IH _ H). reflexivity.
Qed.

Lemma charAt_eqb (s t : jsstring) i j x y :
  nth_error s i = Some x -> nth_error t j = Some y ->
  str_eqb (charAt s i) (charAt t j) = (x =? y)%N.
Proof.
  intros Hs Ht. unfold charAt. rewrite Hs, Ht.
  destruct (N.eqb_spec x y) as [->|N]; [apply str_eqb_refl|].
  apply not_true_is_false. rewrite str_eqb_eq. congruence.
Qed.

Lemma lev_init_done : rows_done a b 0 (lev_init a b).
Proof.
  unfold lev_init. cbv zeta.
  set (col := fold_left _ (seq 0 (S (length b))) []).
  assert (Hcol : length col = S (length b)
                 /\ forall r, r < S (length b) -> nth r col [] = [r]).
  { apply (@for_loop _
             (fun k m => length m = k /\ forall r, r < k -> nth r m [] = [r])
             (fun m i => array_set [] m i [i]) (S (length b)) 0 []).
    - split; [reflexivity|]. intros r H. lia.
    - intros k m _ [Hl Hr]. split.
      + rewrite array_set_length by lia. lia.
      + intros r H. rewrite array_set_nth by lia.
        destruct (Nat.eqb_spec r k) as [->|N]; [reflexivity|].
        apply Hr. lia. }
  destruct Hcol as [Hl Hr].
  pose proof (@for_loop _
    (fun j m =>
       length m = S (length b)
       /\ (forall r, 0 < r <= length b -> nth r m [] = [r])
       /\ length (nth 0 m []) = Nat.max 1 j
       /\ forall c, c < Nat.max 1 j -> mget m 0 c = c)
    (fun m j => mset m 0 j j) (S (length a)) 0 col) as L.
  simpl Nat.add in L.
  destruct L as (L1 & L2 & L3 & L4).
  - repeat split.
    + exact Hl.
    + intros r H. apply Hr. lia.
    + now rewrite Hr by lia.
    + intros c H. unfold mget. rewrite Hr by lia.
      assert (c = 0) as -> by lia. reflexivity.
  - intros k m _ (I1 & I2 & I3 & I4). repeat split.
    + rewrite mset_length; lia.
    + intros r H. rewrite mset_row by lia.
      destruct (Nat.eqb_spec r 0); [lia|]. now apply I2.
    + rewrite mset_row by lia. rewrite Nat.eqb_refl.
      rewrite array_set_length by lia. lia.
    + intros c H. rewrite mset_get by lia. rewrite Nat.eqb_refl.
      destruct (Nat.eqb_spec c k) as [->|N]; [reflexivity|].
      apply I4. lia.
  - repeat split.
    + exact L1.
    + assert (r = 0) as -> by lia. rewrite L3. lia.
    + intros c Hc. assert (r = 0) as -> by lia.
      rewrite L4 by lia. now rewrite cell_0_l.
    + intros r H. apply L2. lia.
Qed.

Lemma lev_cell_step i j m :
  1 <= i <= length b -> 1 <= j <= length a ->
  row_open a b i j m -> row_open a b i (S j) (lev_cell a b i m j).
Proof.
  intros Hi Hj (I1 & I2 & I3 & I4 & I5).
  destruct i as [|i']; [lia|]. destruct j as [|j']; [lia|].
  unfold lev_cell.
  replace (S i' - 1) with i' by lia. replace (S j' - 1) with j' by lia.
  destruct (nth_error b i') as [x|] eqn:Ex.
  2:{ apply nth_error_None in Ex. lia. }
  destruct (nth_error a j') as [y|] eqn:Ey.
  2:{ apply nth_error_None in Ey. lia. }
  assert (Hdiag : mget m i' j' = cell a b i' j') by (apply I2; lia).
  assert (Hup : mget m i' (S j') = cell a b i' (S j')) by (apply I2; lia).
  assert (Hleft : mget m (S i') j' = cell a b (S i') j') by (apply I5; lia).
  assert (Hgoal : forall v, v = cell a b (S i') (S j') ->
                    row_open a b (S i') (S (S j')) (mset m (S i') (S j') v)).
  { intros v ->. repeat split.
    - rewrite mset_length; lia.
    - rewrite mset_row by lia. destruct (Nat.eqb_spec r (S i')); [lia|].
      now apply I2.
    - intros c Hc. rewrite mset_get by lia.
      destruct (Nat.eqb_spec r (S i')); [lia|]. now apply I2.
    - intros r Hr. rewrite mset_row by lia.
      destruct (Nat.eqb_spec r (S i')); [lia|]. now apply I3.
    - rewrite mset_row by lia. rewrite Nat.eqb_refl.
      rewrite array_set_length by lia. lia.
    - intros c Hc. rewrite mset_get by lia. rewrite Nat.eqb_refl.
      destruct (Nat.eqb_spec c (S j')) as [->|N]; [reflexivity|].
      apply I5. lia. }
  rewrite (@charAt_eqb _ _ _ _ _ _ Ex Ey), Hdiag, Hup, Hleft.
  destruct (N.eqb_spec x y) as [E|N]; apply Hgoal; unfold cell;
    rewrite (@rev_firstn_S _ _ _ Ex), (@rev_firstn_S _ _ _ Ey).
  - subst y. now rewrite lev_same.
  - rewrite (@lev_differ _ _ _ _ N). lia.
Qed.

Lemma lev_row_step i m :
  1 <= i <= length b -> rows_done a b (i - 1) m -> rows_done a b i (lev_row a b m i).
Proof.
  intros Hi (D1 & D2 & D3).
  pose proof (@for_loop _ (row_open a b i) (lev_cell a b i) (length a) 1 m) as L.
  destruct L as (L1 & L2 & L3 & L4 & L5).
  - repeat split.
    + exact D1.
    + apply D2. lia.
    + intros c Hc. apply D2; lia.
    + intros r Hr. apply D3. lia.
    + rewrite D3 by lia. reflexivity.
    + intros c Hc. unfold mget. rewrite D3 by lia.
      assert (c = 0) as -> by lia. simpl. now rewrite cell_0_r by lia.
  - intros k m' Hk. apply lev_cell_step; lia.
  - unfold lev_row. repeat split.
    + exact L1.
    + destruct (Nat.eq_dec r i) as [->|N]; [exact L4|]. apply L2. lia.
    + intros c Hc. destruct (Nat.eq_dec r i) as [->|N].
      * apply L5. lia.
      * apply L2; lia.
    + intros r Hr. apply L3. lia.
Qed.

Lemma levenshteinDistance_cell :
  levenshteinDistance a b = cell a b (length b) (length a).
Proof.
  unfold levenshteinDistance.
  pose proof (@for_loop _ (fun i m => rows_done a b (i - 1) m) (lev_row a b)
                (length b) 1 (lev_init a b)) as L.
  destruct L as (_ & L & _).
  - exact lev_init_done.
  - intros k m Hk H. replace (S k - 1) with k by lia.
    apply lev_row_step; [lia|exact H].
  - replace (1 + length b - 1) with (length b) in L by lia.
    apply L; lia.
Qed.

End Table.

(** The distance engine returns the textbook number. *)
Lemma levenshteinDistance_lev a b : levenshteinDistance a b = lev a b.
Proof.
  rewrite levenshteinDistance_cell. unfold cell.
  rewrite !firstn_all, lev_rev. apply lev_sym.
Qed.

(** The distance engine returns the minimum number of single-character
    insertions, deletions and substitutions that turn [a] into [b]. *)
Lemma levenshteinDistance_correct a b :
  is_edit_distance a b (levenshteinDistance a b).
Proof. rewrite levenshteinDistance_lev. apply lev_is_edit_distance. Qed.

Lemma levenshteinDistance_bound a b :
  levenshteinDistance a b <= Nat.max (length a) (length b).
Proof.
  rewrite levenshteinDistance_lev. revert b.
  induction a as [|x a IH]; intros b; [simpl; lia|].
  destruct b as [|y b]; [rewrite lev_nil_r; lia|].
  rewrite lev_cons_cons. specialize (IH b).
  destruct (x =? y)%N; simpl Nat.max; lia.
Qed.

(* ================================================================== *)
(** * 13. The double arithmetic of the scorer                          *)
(* ================================================================== *)

(** The scorer divides, subtracts and multiplies in binary64.  The
    section derives from the specification of the format ([SpecFloat],
    [FloatAxioms]) that the rounded result lies between 0 and 100; the
    match selector relies on the lower bound. *)

Unset Implicit Arguments.

Section DoubleArithmetic.
Local Open Scope Z_scope.

(** ** Binary digits *)

Lemma digits2_pos_bounds p :
  2 ^ (Zpos (digits2_pos p) - 1) <= Zpos p < 2 ^ Zpos (digits2_pos p).
Proof.
  induction p as [p IH|p IH|]; simpl digits2_pos.
  - rewrite Pos2Z.inj_succ, Z.pow_succ_r by lia.
    replace (Z.succ (Zpos (digits2_pos p)) - 1)
      with (Z.succ (Zpos (digits2_pos p) - 1)) by lia.
    rewrite Z.pow_succ_r by lia. lia.
  - rewrite Pos2Z.inj_succ, Z.pow_succ_r by lia.
    replace (Z.succ (Zpos (digits2_pos p)) - 1)
      with (Z.succ (Zpos (digits2_pos p) - 1)) by lia.
    rewrite Z.pow_succ_r by lia. lia.
  - simpl. lia.
Qed.

Lemma digits2_pos_unique p k :
  2 ^ (k - 1) <= Zpos p < 2 ^ k -> Zpos (digits2_pos p) = k.
Proof.
  intros [L U]. pose proof (digits2_pos_bounds p) as [L' U'].
  assert (0 < k).
  { destruct (Z.le_gt_cases k 0) as [N|P]; [|exact P].
    assert (2 ^ k <= 2 ^ 0) by (apply Z.pow_le_mono_r; lia).
    simpl in *. lia. }
  assert (k - 1 < Zpos (digits2_pos p)).
  { apply (Z.pow_lt_mono_r_iff 2); lia. }
  assert (Zpos (digits2_pos p) - 1 < k).
  { apply (Z.pow_lt_mono_r_iff 2); lia. }
  lia.
Qed.

Lemma Zdigits2_le m j : 0 <= j -> 0 <= m <= 2 ^ j -> Zdigits2 m <= j + 1.
Proof.
  intros Hj [L U]. destruct m as [|p|p]; simpl; try lia.
  pose proof (digits2_pos_bounds p) as [L' _].
  assert (Zpos (digits2_pos p) - 1 < j + 1); [|lia].
  apply (Z.pow_lt_mono_r_iff 2); try lia.
  assert (2 ^ j < 2 ^ (j + 1)) by (apply Z.pow_lt_mono_r; lia). lia.
Qed.

Lemma Zdigits2_lt m j : 0 <= j -> 0 <= m < 2 ^ j -> Zdigits2 m <= j.
Proof.
  intros Hj [L U]. destruct m as [|p|p]; simpl; try lia.
  pose proof (digits2_pos_bounds p) as [L' _].
  assert (Zpos (digits2_pos p) - 1 < j); [|lia].
  apply (Z.pow_lt_mono_r_iff 2); lia.
Qed.

Lemma iter_xO_value m d : Zpos (Pos.iter xO m d) = Zpos m * 2 ^ Zpos d.
Proof.
  induction d as [|d IH] using Pos.peano_ind.
  - simpl. lia.
  - rewrite Pos.iter_succ, Pos2Z.inj_succ, Z.pow_succ_r by lia.
    rewrite Pos2Z.inj_xO, IH. lia.
Qed.

Lemma iter_xO_digits m d :
  Zpos (digits2_pos (Pos.iter xO m d)) = Zpos (digits2_pos m) + Zpos d.
Proof.
  induction d as [|d IH] using Pos.peano_ind.
  - simpl. lia.
  - rewrite Pos.iter_succ. simpl digits2_pos.
    rewrite !Pos2Z.inj_succ, IH. lia.
Qed.

(** ** Shifting right *)

Lemma shr_1_m mrs : 0 <= shr_m mrs -> shr_m (shr_1 mrs) = shr_m mrs / 2.
Proof.
  destruct mrs as [m r s]. simpl. intros H.
  rewrite <- Z.div2_div. destruct m as [|p|p]; [reflexivity| |lia].
  destruct p; reflexivity.
Qed.

Lemma iter_shr_1_m p mrs :
  0 <= shr_m mrs ->
  shr_m (iter_pos shr_1 p mrs) = shr_m mrs / 2 ^ Zpos p.
Proof.
  assert (N : forall x, 0 <= shr_m x -> 0 <= shr_m (shr_1 x)).
  { intros x H. rewrite shr_1_m by exact H. apply Z.div_pos; lia. }
  revert mrs. induction p as [p IH|p IH|]; intros mrs H; simpl iter_pos.
  - assert (H1 := N _ H).
    assert (H2 : 0 <= shr_m (iter_pos shr_1 p (shr_1 mrs))).
    { rewrite IH by exact H1. apply Z.div_pos; lia. }
    rewrite IH by exact H2. rewrite IH by exact H1. rewrite shr_1_m by exact H.
    rewrite !Z.div_div by lia. f_equal.
    replace (Zpos p~1) with (1 + Zpos p + Zpos p) by lia.
    rewrite !Z.pow_add_r by lia. change (2 ^ 1) with 2. ring.
  - assert (H2 : 0 <= shr_m (iter_pos shr_1 p mrs)).
    { rewrite IH by exact H. apply Z.div_pos; lia. }
    rewrite IH by exact H2. rewrite IH by exact H.
    rewrite !Z.div_div by lia. f_equal.
    replace (Zpos p~0) with (Zpos p + Zpos p) by lia.
    rewrite !Z.pow_add_r by lia. ring.
  - rewrite shr_1_m by exact H. reflexivity.
Qed.

Lemma shr_fexp_m m e l :
  0 <= m ->
  let e' := Z.max e (fexp prec emax (Zdigits2 m + e)) in
  snd (shr_fexp prec emax m e l) = e'
  /\ shr_m (fst (shr_fexp prec emax m e l)) = m / 2 ^ (e' - e).
Proof.
  intros H e'. unfold shr_fexp, shr.
  assert (M : shr_m (shr_record_of_loc m l) = m)
    by (destruct l as [|[]]; reflexivity).
  destruct (fexp prec emax (Zdigits2 m + e) - e) as [|p|p] eqn:E; simpl.
  - assert (e' = e) as -> by (unfold e'; lia).
    rewrite Z.sub_diag, Z.div_1_r. auto.
  - assert (Ee : e' = e + Zpos p) by (unfold e'; lia). split; [lia|].
    rewrite iter_shr_1_m by lia. rewrite M. f_equal. f_equal. lia.
  - assert (e' = e) as -> by (unfold e'; lia).
    rewrite Z.sub_diag, Z.div_1_r. auto.
Qed.

Lemma round_nearest_even_bounds m l :
  m <= round_nearest_even m l <= m + 1.
Proof.
  unfold round_nearest_even. destruct l as [|[]]; try lia.
  destruct (Z.even m); lia.
Qed.

(** The specification of the format is written with the integer
    operations of the core library; this names them as the library of
    integers does. *)
Ltac std_Z :=
  change IntDef.Z.max with Z.max in *;
  change IntDef.Z.min with Z.min in *;
  change IntDef.Z.sub with Z.sub in *;
  change IntDef.Z.add with Z.add in *;
  change IntDef.Z.mul with Z.mul in *;
  change IntDef.Z.opp with Z.opp in *;
  change IntDef.Z.leb with Z.leb in *;
  change IntDef.Z.eqb with Z.eqb in *;
  change IntDef.Z.compare with Z.compare in *;
  change IntDef.Z.even with Z.even in *;
  change IntDef.Z.shiftl with Z.shiftl in *;
  change IntDef.Z.div_eucl with Z.div_eucl in *;
  change @PosDef.Pos.iter with @Pos.iter in *;
  change PosDef.Pos.mul with Pos.mul in *.

Ltac format_lia :=
  unfold fexp, SpecFloat.emin, prec, emax in *; std_Z; lia.

(** ** Rounding keeps the sign and stays below a power of two *)

Lemma binary_round_aux_sign s m e l s' m' e' :
  binary_round_aux prec emax s m e l = S754_finite s' m' e' -> s' = s.
Proof.
  unfold binary_round_aux.
  destruct (shr_fexp prec emax m e l) as [mrs1 e1].
  destruct (shr_fexp prec emax _ e1 loc_Exact) as [mrs2 e2].
  destruct (shr_m mrs2); try discriminate.
  destruct (e2 <=? emax - prec); [|discriminate].
  now intros [= <- _ _].
Qed.

Lemma pow2_split a b : 0 <= a -> 0 <= b -> 2 ^ (a + b) = 2 ^ a * 2 ^ b.
Proof. intros. now apply Z.pow_add_r. Qed.

Lemma binary_round_aux_bound s mx ex lx k s' m e :
  0 < mx -> Zdigits2 mx + ex <= k -> emin <= k ->
  binary_round_aux prec emax s mx ex lx = S754_finite s' m e ->
  e <= k /\ Zpos m <= 2 ^ (k - e).
Proof.
  intros Hm Hd Hk. unfold binary_round_aux.
  assert (Hm0 : 0 <= mx) by lia.
  pose proof (shr_fexp_m mx ex lx Hm0) as [E1 M1].
  destruct (shr_fexp prec emax mx ex lx) as [mrs1 e1]. simpl in E1, M1.
  rewrite <- E1 in M1.
  set (m2 := round_nearest_even (shr_m mrs1) (loc_of_shr_record mrs1)).
  pose proof (round_nearest_even_bounds (shr_m mrs1)
                (loc_of_shr_record mrs1)) as R. fold m2 in R.
  assert (Dx : 1 <= Zdigits2 mx /\ mx < 2 ^ Zdigits2 mx).
  { destruct mx as [|p|p]; try lia. simpl.
    pose proof (digits2_pos_bounds p). lia. }
  assert (Le1 : ex <= e1 <= k).
  { rewrite E1. clear - Hd Hk Dx. format_lia. }
  assert (B1 : 0 <= shr_m mrs1 < 2 ^ (k - e1)).
  { rewrite M1. split; [apply Z.div_pos; lia|].
    apply Z.div_lt_upper_bound; [lia|].
    rewrite <- pow2_split by lia.
    replace (e1 - ex + (k - e1)) with (k - ex) by lia.
    assert (2 ^ Zdigits2 mx <= 2 ^ (k - ex))
      by (apply Z.pow_le_mono_r; lia). lia. }
  assert (Hm2 : 0 <= m2 <= 2 ^ (k - e1)) by lia.
  pose proof (shr_fexp_m m2 e1 loc_Exact (proj1 Hm2)) as [E2 M2].
  destruct (shr_fexp prec emax m2 e1 loc_Exact) as [mrs2 e2].
  simpl in E2, M2. rewrite <- E2 in M2.
  assert (D2 : Zdigits2 m2 <= k - e1 + 1) by (apply Zdigits2_le; lia).
  assert (Le2 : e1 <= e2 <= k).
  { rewrite E2. clear - D2 Le1 Hk. format_lia. }
  assert (B2 : shr_m mrs2 <= 2 ^ (k - e2)).
  { rewrite M2. apply Z.div_le_upper_bound; [lia|].
    rewrite <- pow2_split by lia.
    replace (e2 - e1 + (k - e2)) with (k - e1) by lia. lia. }
  destruct (shr_m mrs2) as [|p|p]; try discriminate.
  destruct (e2 <=? emax - prec); [|discriminate].
  intros [= _ <- <-]. split; [lia|exact B2].
Qed.

(** ** Conversion of a length *)

Lemma shl_align_value m e e' :
  e' <= e -> Zpos (fst (shl_align m e e')) = Zpos m * 2 ^ (e - e').
Proof.
  intros H. unfold shl_align. std_Z.
  destruct (e' - e) as [|p|p] eqn:E; cbn [fst].
  - replace (e - e') with 0 by lia. rewrite Z.pow_0_r. lia.
  - lia.
  - rewrite iter_xO_value. f_equal. f_equal. lia.
Qed.

(** A positive integer below 2^53 is converted exactly, to a mantissa of
    53 digits. *)
Lemma binary_normalize_small p :
  Zpos p < 2 ^ 53 ->
  exists m e,
    binary_normalize prec emax (Zpos p) 0 false = S754_finite false m e
    /\ e = Zpos (digits2_pos p) - 53
    /\ Zpos m = Zpos p * 2 ^ (- e)
    /\ Zpos (digits2_pos m) = 53.
Proof.
  intros Hp. pose proof (digits2_pos_bounds p) as [L U].
  assert (Dp : 1 <= Zpos (digits2_pos p) <= 53).
  { split; [lia|]. apply (Zdigits2_lt (Zpos p) 53); lia. }
  unfold binary_normalize, binary_round.
  set (e := Zpos (digits2_pos p) - 53).
  assert (Fe : fexp prec emax (Zpos (digits2_pos p) + 0) = e).
  { unfold e. format_lia. }
  rewrite Fe.
  assert (V : Zpos (fst (shl_align p 0 e)) = Zpos p * 2 ^ (- e)).
  { rewrite shl_align_value by (unfold e; lia). f_equal. }
  assert (X : snd (shl_align p 0 e) = e).
  { unfold shl_align. destruct (e - 0) as [|q|q] eqn:E; simpl; lia. }
  assert (D : Zpos (digits2_pos (fst (shl_align p 0 e))) = 53).
  { unfold shl_align. destruct (e - 0) as [|q|q] eqn:E; simpl.
    - unfold e in E. lia.
    - unfold e in E. lia.
    - rewrite iter_xO_digits. unfold e in E. lia. }
  destruct (shl_align p 0 e) as [mz ez]. cbn [fst snd] in V, X, D. subst ez.
  exists mz, e. split; [|auto].
  unfold binary_round_aux.
  assert (S1 : forall l, shr_fexp prec emax (Zpos mz) e l
                         = (shr_record_of_loc (Zpos mz) l, e)).
  { intros l. unfold shr_fexp. simpl Zdigits2. rewrite D.
    replace (fexp prec emax (53 + e) - e) with 0; [reflexivity|].
    unfold e. format_lia. }
  rewrite S1. simpl. rewrite S1. simpl. std_Z.
  destruct (Z.leb_spec e 971) as [_|N]; [reflexivity|].
  unfold e in N. lia.
Qed.

(** ** The quotient of two lengths *)

Lemma SFdiv_core_normal mx ex my ey :
  Zpos (digits2_pos mx) = 53 -> Zpos (digits2_pos my) = 53 ->
  -52 <= ex <= 0 -> -52 <= ey <= 0 ->
  SFdiv_core_binary prec emax (Zpos mx) ex (Zpos my) ey
  = ((Zpos mx * 2 ^ 53) / Zpos my, ex - ey - 53,
     new_location (Zpos my) ((Zpos mx * 2 ^ 53) mod Zpos my)).
Proof.
  intros Dx Dy Hx Hy. unfold SFdiv_core_binary.
  cbn [Zdigits2]. rewrite Dx, Dy. std_Z.
  replace (Z.min (fexp prec emax (53 + ex - (53 + ey))) (ex - ey))
    with (ex - ey - 53) by format_lia.
  replace (ex - ey - (ex - ey - 53)) with 53 by lia. cbv iota.
  rewrite Z.shiftl_mul_pow2 by lia.
  unfold Z.div, Z.modulo.
  now destruct (Z.div_eucl (Zpos mx * 2 ^ 53) (Zpos my)).
Qed.

Lemma SFdiv_at_most_one n1 n2 :
  Zpos n1 <= Zpos n2 < 2 ^ 53 ->
  at_most_one
    (SF64div (binary_normalize prec emax (Zpos n1) 0 false)
       (binary_normalize prec emax (Zpos n2) 0 false)).
Proof.
  intros [H12 H2].
  destruct (binary_normalize_small n1) as (mx & ex & -> & Ex & Vx & Dx);
    [lia|].
  destruct (binary_normalize_small n2) as (my & ey & -> & Ey & Vy & Dy);
    [lia|].
  pose proof (digits2_pos_bounds n1) as [L1 U1].
  pose proof (digits2_pos_bounds n2) as [L2 U2].
  pose proof (digits2_pos_bounds mx) as [Lx Ux].
  pose proof (digits2_pos_bounds my) as [Ly Uy].
  rewrite Dx in Lx, Ux. rewrite Dy in Ly, Uy.
  assert (R1 : 1 <= Zpos (digits2_pos n1) <= 53).
  { split; [lia|]. apply (Zdigits2_lt (Zpos n1) 53); lia. }
  assert (R2 : 1 <= Zpos (digits2_pos n2) <= 53).
  { split; [lia|]. apply (Zdigits2_lt (Zpos n2) 53); lia. }
  assert (Hex : -52 <= ex <= 0) by (clear - Ex R1; lia).
  assert (Hey : -52 <= ey <= 0) by (clear - Ey R2; lia).
  unfold SF64div, SFdiv.
  rewrite SFdiv_core_normal by assumption. cbn [xorb].
  destruct (Z.eq_dec (Zpos n1) (Zpos n2)) as [E|N].
  - injection E as ->. rewrite <- Ex in Ey. rewrite Ey in *. clear Ey Hey.
    assert (mx = my) by (apply Pos2Z.inj; rewrite Vx, Vy; reflexivity).
    subst my.
    rewrite Z.mul_comm, Z.div_mul, Z.mod_mul by lia.
    replace (ex - ex - 53) with (-53) by lia.
    assert (Loc : new_location (Zpos mx) 0 = loc_Exact).
    { unfold new_location, new_location_even, new_location_odd.
      now destruct (IntDef.Z.even (Zpos mx)). }
    rewrite Loc.
    assert (C : binary_round_aux prec emax false (2 ^ 53) (-53) loc_Exact
                = S754_finite false 4503599627370496 (-52))
      by (vm_compute; reflexivity).
    rewrite C. simpl. repeat split; lia.
  - assert (Hlt : Zpos n1 < Zpos n2) by lia.
    assert (Hd : Zpos (digits2_pos n1) <= Zpos (digits2_pos n2)).
    { assert (Zpos (digits2_pos n1) - 1 < Zpos (digits2_pos n2)); [|lia].
      apply (Z.pow_lt_mono_r_iff 2); lia. }
    assert (Hxy : Zpos mx < Zpos my * 2 ^ (ey - ex)).
    { rewrite Vx, Vy, <- Z.mul_assoc, <- pow2_split by lia.
      replace (- ey + (ey - ex)) with (- ex) by lia.
      apply Z.mul_lt_mono_pos_r; [|lia]. apply Z.pow_pos_nonneg; lia. }
    set (q := Zpos mx * 2 ^ 53 / Zpos my).
    assert (Hq : 0 < q < 2 ^ (53 + ey - ex)).
    { split.
      - apply Z.div_str_pos. split; [lia|].
        change (2 ^ 53) with 9007199254740992 in *.
        change (2 ^ (53 - 1)) with 4503599627370496 in *. lia.
      - apply Z.div_lt_upper_bound; [lia|].
        replace (53 + ey - ex) with ((ey - ex) + 53) by lia.
        rewrite pow2_split by lia.
        assert (0 < 2 ^ 53) by (apply Z.pow_pos_nonneg; lia). nia. }
    assert (Dq : Zdigits2 q <= 53 + ey - ex)
      by (apply Zdigits2_lt; lia).
    destruct (binary_round_aux prec emax false q (ex - ey - 53) _)
      as [| | |s m e] eqn:B; simpl; try exact I.
    pose proof (binary_round_aux_sign _ _ _ _ _ _ _ B) as ->.
    apply binary_round_aux_bound with (k := 0) in B;
      [|lia|lia|unfold SpecFloat.emin, prec, emax; std_Z; lia].
    replace (0 - e) with (- e) in B by lia. tauto.
Qed.

(** ** One minus the quotient, times one hundred, rounded *)

Lemma binary_normalize_not_negative z e :
  0 <= z -> not_negative (binary_normalize prec emax z e false).
Proof.
  intros H. destruct z as [|p|p]; simpl; [exact I| |lia].
  unfold binary_round. destruct (shl_align p e _) as [mz ez].
  destruct (binary_round_aux prec emax false (Zpos mz) ez loc_Exact)
    as [| | |s m e'] eqn:B; simpl; try exact I.
  now rewrite (binary_round_aux_sign _ _ _ _ _ _ _ B).
Qed.

Lemma SFsub_one_not_negative q :
  at_most_one q -> not_negative (SF64sub (Prim2SF 1%float) q).
Proof.
  intros H.
  change (Prim2SF 1%float) with (S754_finite false 4503599627370496 (-52)).
  unfold SF64sub, SFsub.
  destruct q as [s|s| |s m e]; cbv iota; try exact I.
  destruct H as (-> & He & Hm). cbn [cond_Zopp]. std_Z.
  apply binary_normalize_not_negative.
  set (ez := Z.min (-52) e).
  rewrite !shl_align_value by (unfold ez; lia).
  assert (P : Zpos m * 2 ^ (e - ez) <= 2 ^ (- e) * 2 ^ (e - ez)).
  { apply Z.mul_le_mono_nonneg_r; [apply Z.pow_nonneg; lia|exact Hm]. }
  rewrite <- pow2_split in P by (unfold ez; lia).
  replace (- e + (e - ez)) with (- ez) in P by lia.
  change 4503599627370496 with (2 ^ 52).
  rewrite <- pow2_split by (unfold ez; lia).
  replace (52 + (-52 - ez)) with (- ez) by lia. lia.
Qed.

Lemma SFmul_hundred_not_negative t :
  not_negative t -> not_negative (SF64mul t (Prim2SF 100%float)).
Proof.
  intros H.
  change (Prim2SF 100%float) with (S754_finite false 7036874417766400 (-46)).
  destruct t as [s|s| |s m e]; simpl; try exact I.
  destruct s; [contradiction|]. cbn [xorb].
  destruct (binary_round_aux prec emax false _ _ loc_Exact)
    as [| | |s' m' e'] eqn:B; simpl; try exact I.
  now rewrite (binary_round_aux_sign _ _ _ _ _ _ _ B).
Qed.

Lemma Math_round_not_negative x :
  not_negative (Prim2SF x) -> 0 <= Math_round x.
Proof.
  unfold Math_round. destruct (Prim2SF x) as [s|s| |s m e]; try lia.
  destruct s; [contradiction|]. intros _.
  destruct (Z.leb_spec 0 e) as [P|N].
  - apply Z.mul_nonneg_nonneg; [lia|]. apply Z.pow_nonneg. lia.
  - apply Z.div_pos.
    + assert (0 <= 2 ^ (- e)) by (apply Z.pow_nonneg; lia). lia.
    + apply Z.pow_pos_nonneg; lia.
Qed.

Lemma number_of_nat_spec n :
  Z.of_nat n < 2 ^ 53 ->
  Prim2SF (number_of_nat n)
  = binary_normalize prec emax (Z.of_nat n) 0 false.
Proof.
  intros H. unfold number_of_nat. rewrite of_uint63_spec, of_Z_spec.
  rewrite Z.mod_small; [reflexivity|].
  split; [lia|]. change wB with (2 ^ 63).
  assert (2 ^ 53 < 2 ^ 63) by (apply Z.pow_lt_mono_r; lia). lia.
Qed.

(** The rounded double of the similarity formula is never negative. *)
Lemma similarity_formula_not_negative (d m : nat) :
  (d <= m)%nat -> (0 < m)%nat -> Z.of_nat m < 2 ^ 53 ->
  0 <= Math_round
         ((1 - number_of_nat d / number_of_nat m) * 100)%float.
Proof.
  intros Hd Hm Hb. apply Math_round_not_negative.
  rewrite FloatAxioms.mul_spec. apply SFmul_hundred_not_negative.
  rewrite FloatAxioms.sub_spec. apply SFsub_one_not_negative.
  rewrite FloatAxioms.div_spec, !number_of_nat_spec by lia.
  destruct m as [|m']; [lia|].
  set (pm := Pos.of_succ_nat m').
  assert (Em : Z.of_nat (S m') = Zpos pm)
    by (unfold pm; now rewrite Zpos_P_of_succ_nat, Nat2Z.inj_succ).
  rewrite Em in *.
  destruct d as [|d'].
  - destruct (binary_normalize_small pm) as (my & ey & E & _); [exact Hb|].
    rewrite E. exact I.
  - set (pd := Pos.of_succ_nat d').
    assert (Ed : Z.of_nat (S d') = Zpos pd)
      by (unfold pd; now rewrite Zpos_P_of_succ_nat, Nat2Z.inj_succ).
    rewrite Ed. apply SFdiv_at_most_one.
    apply Nat2Z.inj_le in Hd. rewrite Ed, Em in Hd. lia.
Qed.

(** ** Rounding stays below a number of the format *)

Lemma binary_round_aux_below s mx ex lx b c s' m e :
  0 < mx -> 0 < b -> Zdigits2 b <= 53 -> emin <= c ->
  Z.max ex (fexp prec emax (Zdigits2 mx + ex)) <= c ->
  mx < b * 2 ^ (c - ex) ->
  binary_round_aux prec emax s mx ex lx = S754_finite s' m e ->
  e <= c /\ Zpos m <= b * 2 ^ (c - e).
Proof.
  intros Hm Hb Db Hc He Hv. unfold binary_round_aux.
  assert (Hm0 : 0 <= mx) by lia.
  pose proof (shr_fexp_m mx ex lx Hm0) as [E1 M1].
  destruct (shr_fexp prec emax mx ex lx) as [mrs1 e1]. simpl in E1, M1.
  rewrite <- E1 in M1. rewrite <- E1 in He.
  set (m2 := round_nearest_even (shr_m mrs1) (loc_of_shr_record mrs1)).
  pose proof (round_nearest_even_bounds (shr_m mrs1)
                (loc_of_shr_record mrs1)) as R. fold m2 in R.
  assert (Le1 : ex <= e1) by (rewrite E1; clear; lia).
  assert (B1 : 0 <= shr_m mrs1 < b * 2 ^ (c - e1)).
  { rewrite M1. split; [apply Z.div_pos; lia|].
    apply Z.div_lt_upper_bound; [lia|].
    replace (2 ^ (e1 - ex) * (b * 2 ^ (c - e1)))
      with (b * (2 ^ (e1 - ex) * 2 ^ (c - e1))) by ring.
    rewrite <- pow2_split by lia.
    replace (e1 - ex + (c - e1)) with (c - ex) by lia. exact Hv. }
  assert (Hm2 : 0 <= m2 <= b * 2 ^ (c - e1)) by lia.
  pose proof (shr_fexp_m m2 e1 loc_Exact (proj1 Hm2)) as [E2 M2].
  destruct (shr_fexp prec emax m2 e1 loc_Exact) as [mrs2 e2].
  simpl in E2, M2. rewrite <- E2 in M2.
  assert (Bb : 0 < b < 2 ^ 53).
  { split; [exact Hb|]. destruct b as [|p|p]; try lia.
    simpl in Db. pose proof (digits2_pos_bounds p) as [_ U].
    assert (2 ^ Zpos (digits2_pos p) <= 2 ^ 53)
      by (apply Z.pow_le_mono_r; lia). lia. }
  assert (D2 : Zdigits2 m2 <= 53 + (c - e1)).
  { apply Zdigits2_lt; [lia|]. split; [lia|].
    rewrite pow2_split by lia.
    assert (0 < 2 ^ (c - e1)) by (apply Z.pow_pos_nonneg; lia). nia. }
  assert (Le2 : e1 <= e2 <= c).
  { rewrite E2. clear - D2 He Hc. format_lia. }
  assert (B2 : shr_m mrs2 <= b * 2 ^ (c - e2)).
  { rewrite M2. apply Z.div_le_upper_bound; [lia|].
    replace (2 ^ (e2 - e1) * (b * 2 ^ (c - e2)))
      with (b * (2 ^ (e2 - e1) * 2 ^ (c - e2))) by ring.
    rewrite <- pow2_split by lia.
    replace (e2 - e1 + (c - e2)) with (c - e1) by lia. lia. }
  destruct (shr_m mrs2) as [|p|p]; try discriminate.
  destruct (e2 <=? emax - prec); [|discriminate].
  intros [= _ <- <-]. split; [lia|exact B2].
Qed.

Lemma shl_align_digits m e e' :
  Zpos (digits2_pos (fst (shl_align m e e'))) + snd (shl_align m e e')
  = Zpos (digits2_pos m) + e.
Proof.
  unfold shl_align. std_Z.
  destruct (e' - e) as [|p|p] eqn:E; cbn [fst snd]; try reflexivity.
  rewrite iter_xO_digits. lia.
Qed.

Lemma shl_align_exponent m e e' : snd (shl_align m e e') <= e.
Proof.
  unfold shl_align. std_Z.
  destruct (e' - e) as [|p|p] eqn:E; cbn [fst snd]; lia.
Qed.

(** ** One minus a quotient is at most one *)

Lemma SFsub_one_at_most_one q :
  at_most_one q -> at_most_one (SF64sub (Prim2SF 1%float) q).
Proof.
  intros H.
  change (Prim2SF 1%float) with (S754_finite false 4503599627370496 (-52)).
  unfold SF64sub, SFsub.
  destruct q as [s|s| |s m e]; cbv iota; try exact I.
  - simpl. repeat split; lia.
  - destruct H as (-> & He & Hm). cbn [cond_Zopp]. std_Z.
    set (ez := Z.min (-52) e).
    rewrite !shl_align_value by (unfold ez; lia).
    change 4503599627370496 with (2 ^ 52).
    rewrite <- pow2_split by (unfold ez; lia).
    replace (52 + (-52 - ez)) with (- ez) by lia.
    assert (Q : 0 < Zpos m * 2 ^ (e - ez)).
    { apply Z.mul_pos_pos; [lia|]. apply Z.pow_pos_nonneg; unfold ez; lia. }
    assert (P : Zpos m * 2 ^ (e - ez) <= 2 ^ (- ez)).
    { assert (P : Zpos m * 2 ^ (e - ez) <= 2 ^ (- e) * 2 ^ (e - ez)).
      { apply Z.mul_le_mono_nonneg_r; [apply Z.pow_nonneg; lia|exact Hm]. }
      rewrite <- pow2_split in P by (unfold ez; lia).
      replace (- e + (e - ez)) with (- ez) in P by lia. exact P. }
    set (aq := Zpos m * 2 ^ (e - ez)) in *.
    destruct (2 ^ (- ez) - aq) as [|z|z] eqn:Hz; [exact I| |lia].
    cbn [binary_normalize]. unfold binary_round.
    pose proof (shl_align_digits z ez
                  (fexp prec emax (Zpos (digits2_pos z) + ez))) as D.
    destruct (shl_align z ez _) as [mz ez']. cbn [fst snd] in D.
    destruct (binary_round_aux prec emax false (Zpos mz) ez' loc_Exact)
      as [| | |s' m' e'] eqn:B; simpl; try exact I.
    pose proof (binary_round_aux_sign _ _ _ _ _ _ _ B) as ->.
    apply binary_round_aux_bound with (k := 0) in B.
    + replace (0 - e') with (- e') in B by lia. tauto.
    + lia.
    + cbn [Zdigits2]. rewrite D.
      assert (Dz : Zdigits2 (Zpos z) <= - ez)
        by (apply Zdigits2_lt; [unfold ez; lia|lia]).
      cbn [Zdigits2] in Dz. lia.
    + unfold SpecFloat.emin, prec, emax; std_Z; lia.
Qed.

(** The one value of the format that is exactly one. *)
Lemma valid_one m e :
  valid_binary (S754_finite false m e) = true ->
  Zpos m = 2 ^ (- e) -> e <= 0 ->
  m = 4503599627370496%positive /\ e = -52.
Proof.
  intros V Hm He. unfold SpecFloat.valid_binary, bounded in V.
  apply andb_true_iff in V. destruct V as [C _].
  unfold canonical_mantissa in C. std_Z. apply Z.eqb_eq in C.
  assert (D : Zpos (digits2_pos m) = - e + 1).
  { apply digits2_pos_unique. rewrite Hm.
    replace (- e + 1 - 1) with (- e) by lia. split; [lia|].
    apply Z.pow_lt_mono_r; lia. }
  rewrite D in C.
  assert (E : e = -52) by (clear - C He; format_lia).
  split; [|exact E]. subst e. apply Pos2Z.inj. rewrite Hm. reflexivity.
Qed.

Lemma SFmul_hundred_at_most_hundred t :
  valid_binary t = true -> at_most_one t ->
  at_most_hundred (SF64mul t (Prim2SF 100%float)).
Proof.
  intros V H.
  change (Prim2SF 100%float) with (S754_finite false 7036874417766400 (-46)).
  unfold SF64mul, SFmul.
  destruct t as [s|s| |s m e]; cbv iota; try exact I.
  destruct H as (-> & He & Hm). cbn [xorb]. std_Z.
  destruct (Z.eq_dec (Zpos m) (2 ^ (- e))) as [E|N].
  - destruct (valid_one m e V E He) as [-> ->].
    vm_compute. split; discriminate.
  - destruct (binary_round_aux prec emax false _ _ loc_Exact)
      as [| | |s' m' e'] eqn:B; try exact I.
    pose proof (binary_round_aux_sign _ _ _ _ _ _ _ B) as ->.
    cbn [at_most_hundred].
    assert (P : 0 < 2 ^ (- e)) by (apply Z.pow_pos_nonneg; lia).
    assert (Hx : Zpos (m * 7036874417766400)
                 < 7036874417766400 * 2 ^ (- e)).
    { rewrite Pos2Z.inj_mul. nia. }
    assert (Dx : Zdigits2 (Zpos (m * 7036874417766400)) <= 53 + - e).
    { apply Zdigits2_lt; [lia|]. split; [lia|].
      rewrite pow2_split by lia.
      change (2 ^ 53) with 9007199254740992. nia. }
    apply binary_round_aux_below
      with (b := 7036874417766400) (c := -46) in B.
    + exact B.
    + lia.
    + lia.
    + vm_compute. discriminate.
    + unfold SpecFloat.emin, prec, emax. std_Z. lia.
    + clear - Dx He. format_lia.
    + replace (-46 - (e + -46)) with (- e) by lia. exact Hx.
Qed.

Lemma Math_round_at_most_hundred x :
  at_most_hundred (Prim2SF x) -> Math_round x <= 100.
Proof.
  unfold Math_round. destruct (Prim2SF x) as [s|s| |s m e]; try lia.
  destruct s; intros H.
  - destruct (Z.leb_spec 0 e) as [P|N].
    + assert (0 <= 2 ^ e) by (apply Z.pow_nonneg; lia). nia.
    + assert (Q : 0 < 2 ^ (- e)) by (apply Z.pow_pos_nonneg; lia).
      assert ((2 * Z.neg m + 2 ^ (- e)) / 2 ^ (1 - e) < 101); [|lia].
      apply Z.div_lt_upper_bound; [apply Z.pow_pos_nonneg; lia|].
      replace (1 - e) with (1 + - e) by lia. rewrite pow2_split by lia.
      change (2 ^ 1) with 2. lia.
  - destruct H as [He Hm].
    destruct (Z.leb_spec 0 e) as [P|N]; [lia|].
    assert (Q : 0 < 2 ^ (- e)) by (apply Z.pow_pos_nonneg; lia).
    assert (R : 7036874417766400 * 2 ^ (-46 - e) = 100 * 2 ^ (- e)).
    { replace (- e) with (46 + (-46 - e)) by lia.
      rewrite pow2_split by lia.
      change (2 ^ 46) with 70368744177664. ring. }
    rewrite R in Hm.
    assert ((2 * Zpos m + 2 ^ (- e)) / 2 ^ (1 - e) < 101); [|lia].
    apply Z.div_lt_upper_bound; [apply Z.pow_pos_nonneg; lia|].
    replace (1 - e) with (1 + - e) by lia. rewrite pow2_split by lia.
    change (2 ^ 1) with 2. lia.
Qed.

(** The rounded double of the similarity formula lies between 0 and
    100. *)
Lemma similarity_formula_range (d m : nat) :
  (d <= m)%nat -> (0 < m)%nat -> Z.of_nat m < 2 ^ 53 ->
  0 <= Math_round
         ((1 - number_of_nat d / number_of_nat m) * 100)%float
    <= 100.
Proof.
  intros Hd Hm Hb. split; [now apply similarity_formula_not_negative|].
  apply Math_round_at_most_hundred.
  rewrite FloatAxioms.mul_spec. apply SFmul_hundred_at_most_hundred.
  { apply Prim2SF_valid. }
  rewrite FloatAxioms.sub_spec. apply SFsub_one_at_most_one.
  rewrite FloatAxioms.div_spec, !number_of_nat_spec by lia.
  destruct m as [|m']; [lia|].
  set (pm := Pos.of_succ_nat m').
  assert (Em : Z.of_nat (S m') = Zpos pm)
    by (unfold pm; now rewrite Zpos_P_of_succ_nat, Nat2Z.inj_succ).
  rewrite Em in *.
  destruct d as [|d'].
  - destruct (binary_normalize_small pm) as (my & ey & E & _); [exact Hb|].
    rewrite E. exact I.
  - set (pd := Pos.of_succ_nat d').
    assert (Ed : Z.of_nat (S d') = Zpos pd)
      by (unfold pd; now rewrite Zpos_P_of_succ_nat, Nat2Z.inj_succ).
    rewrite Ed. apply SFdiv_at_most_one.
    apply Nat2Z.inj_le in Hd. rewrite Ed, Em in Hd. lia.
Qed.

End DoubleArithmetic.

Set Implicit Arguments.

(* ================================================================== *)
(** * 14. The similarity scorer and the match selector                *)
(* ================================================================== *)

Section MatchingFacts.
Variable nfd : jsstring -> jsstring.

Lemma calculateSimilarity_key_empty s1 s2 :
  normalizeString nfd s1 = [] \/ normalizeString nfd s2 = [] ->
  calculateSimilarity nfd s1 s2 = 0%Z.
Proof.
  intros H. unfold calculateSimilarity.
  destruct H as [-> | ->]; simpl; [reflexivity|]. now rewrite orb_true_r.
Qed.

Lemma calculateSimilarity_key_equal s1 s2 :
  normalizeString nfd s1 <> [] ->
  normalizeString nfd s1 = normalizeString nfd s2 ->
  calculateSimilarity nfd s1 s2 = 100%Z.
Proof.
  intros Hne E. unfold calculateSimilarity. rewrite <- E.
  destruct (normalizeString nfd s1) as [|c k]; [contradiction|].
  simpl. now rewrite str_eqb_refl.
Qed.

(** The remaining branch: the rounded double of the source, on the
    minimum number of edits between the two keys. *)
Lemma calculateSimilarity_formula s1 s2 :
  let norm1 := normalizeString nfd s1 in
  let norm2 := normalizeString nfd s2 in
  norm1 <> [] -> norm2 <> [] -> norm1 <> norm2 ->
  exists d,
    is_edit_distance norm1 norm2 d
    /\ d <= Nat.max (length norm1) (length norm2)
    /\ calculateSimilarity nfd s1 s2 =
       Math_round
         ((1 - number_of_nat d
               / number_of_nat (Nat.max (length norm1) (length norm2)))
          * 100)%float.
Proof.
  intros norm1 norm2 H1 H2 Hne.
  exists (levenshteinDistance norm1 norm2). split; [|split].
  - apply levenshteinDistance_correct.
  - apply levenshteinDistance_bound.
  - unfold calculateSimilarity. fold norm1 norm2.
    destruct norm1 as [|c1 k1]; [contradiction|].
    destruct norm2 as [|c2 k2]; [contradiction|].
    simpl isEmpty. simpl orb. cbv iota.
    destruct (str_eqb (c1 :: k1) (c2 :: k2)) eqn:E.
    { apply str_eqb_eq in E. contradiction. }
    reflexivity.
Qed.

(** A similarity is never negative. *)
Lemma calculateSimilarity_not_negative s1 s2 :
  fits_number (normalizeString nfd s1) ->
  fits_number (normalizeString nfd s2) ->
  (0 <= calculateSimilarity nfd s1 s2)%Z.
Proof.
  intros F1 F2. unfold calculateSimilarity.
  destruct (isEmpty _ || isEmpty _) eqn:E; [lia|].
  destruct (str_eqb _ _); [lia|].
  set (norm1 := normalizeString nfd s1) in *.
  set (norm2 := normalizeString nfd s2) in *.
  destruct (Nat.eqb_spec (Nat.max (length norm1) (length norm2)) 0) as [Z|NZ];
    [lia|].
  apply similarity_formula_not_negative.
  - apply levenshteinDistance_bound.
  - lia.
  - unfold fits_number in *. lia.
Qed.

(** A similarity is a percentage. *)
Lemma calculateSimilarity_range s1 s2 :
  fits_number (normalizeString nfd s1) ->
  fits_number (normalizeString nfd s2) ->
  (0 <= calculateSimilarity nfd s1 s2 <= 100)%Z.
Proof.
  intros F1 F2. unfold calculateSimilarity.
  destruct (isEmpty _ || isEmpty _) eqn:E; [lia|].
  destruct (str_eqb _ _); [lia|].
  set (norm1 := normalizeString nfd s1) in *.
  set (norm2 := normalizeString nfd s2) in *.
  destruct (Nat.eqb_spec (Nat.max (length norm1) (length norm2)) 0) as [Z|NZ];
    [lia|].
  apply similarity_formula_range.
  - apply levenshteinDistance_bound.
  - lia.
  - unfold fits_number in *. lia.
Qed.

Lemma fold_left_max xs x :
  In (fold_left Z.max xs x) (x :: xs)
  /\ forall y, In y (x :: xs) -> (y <= fold_left Z.max xs x)%Z.
Proof.
  revert x. induction xs as [|z xs IH]; intros x; simpl.
  - split; [now left|]. intros y [->|[]]. lia.
  - destruct (IH (Z.max x z)) as [Hin Hmax]. split.
    + destruct Hin as [E|Hin]; [|now right; right].
      rewrite <- E. destruct (Z.max_spec x z) as [[_ ->]|[_ ->]]; auto.
    + intros y Hy. assert (y <= Z.max x z \/ In y xs)%Z as [L|I].
      { destruct Hy as [->|[->|I]]; [left; lia|left; lia|now right]. }
      * specialize (Hmax (Z.max x z) (or_introl eq_refl)). lia.
      * apply Hmax. now right.
Qed.

End MatchingFacts.

(** C2.  For every query, primary name and alias list, the match selector
    returns the larger of the name's similarity and the best alias
    similarity, the best alias similarity being the largest similarity of
    an alias and 0 when there is none; it reports [Alias] exactly when the
    best alias similarity is strictly greater than the name's, and [Name]
    on a tie and when there is no alias (keys of a length that a string
    can have). *)
Theorem best_match_selects (nfd : jsstring -> jsstring)
  (q name : jsstring) (aliases : list jsstring) :
  let sim := calculateSimilarity nfd q in
  let r := getBestMatchScore nfd q name aliases in
  exists best,
    (aliases = [] -> best = 0%Z)
    /\ (aliases <> [] ->
        In best (map sim aliases)
        /\ forall alias, In alias aliases -> (sim alias <= best)%Z)
    /\ score r = Z.max (sim name) best
    /\ (matchedOn r = Alias <-> (best > sim name)%Z)
    /\ ((best <= sim name)%Z -> matchedOn r = Name)
    /\ (aliases = [] ->
        fits_number (normalizeString nfd q) ->
        fits_number (normalizeString nfd name) ->
        matchedOn r = Name /\ score r = sim name).
Proof.
  intros sim r. unfold r, getBestMatchScore. fold sim.
  set (best := match map (fun alias => sim alias) aliases with
               | [] => 0%Z
               | x :: xs => fold_left Z.max xs x
               end).
  exists best. cbn [score matchedOn].
  assert (Hon : forall b, (if (b >? sim name)%Z then Alias else Name) = Alias
                          <-> (b > sim name)%Z).
  { intros b. rewrite Z.gtb_ltb. destruct (Z.ltb_spec (sim name) b).
    - split; [lia|reflexivity].
    - split; [discriminate|lia]. }
  assert (Hname : (best <= sim name)%Z ->
                  (if (best >? sim name)%Z then Alias else Name) = Name).
  { intros Hle. destruct (best >? sim name)%Z eqn:E; [|reflexivity].
    apply Z.gtb_lt in E. lia. }
  split; [intros ->; reflexivity|]. split; [|split; [reflexivity|]].
  - intros Hne. destruct aliases as [|a0 rest]; [contradiction|].
    unfold best. simpl map. split; [apply fold_left_max|].
    intros alias Hin. apply fold_left_max.
    change (In (sim alias) (map (fun alias => sim alias) (a0 :: rest))).
    now apply in_map.
  - split; [apply Hon|]. split; [exact Hname|].
    intros -> Fq Fn.
    pose proof (calculateSimilarity_not_negative nfd q name Fq Fn) as P.
    fold sim in P. unfold best in *. simpl in *.
    split; [apply Hname; lia|lia].
Qed.

(** C5 as the source has it.  A string whose normalized key is not empty
    is 100% similar to itself.  (A non-empty string of punctuation or of
    white space has an empty key and scores 0 against itself.) *)
Theorem similarity_self (nfd : jsstring -> jsstring) (s : jsstring) :
  normalizeString nfd s <> [] -> calculateSimilarity nfd s s = 100%Z.
Proof. intros H. now apply calculateSimilarity_key_equal. Qed.

(** C6.  For every string [s], empty or not, [similarity(s, '')] and
    [similarity('', s)] are 0; so an empty alias contributes the score 0,
    never 100, and a subject whose only alias is empty is scored on its
    name and on that 0 alone. *)
Theorem similarity_empty (nfd : jsstring -> jsstring) (s : jsstring) :
  calculateSimilarity nfd s [] = 0%Z
  /\ calculateSimilarity nfd [] s = 0%Z
  /\ calculateSimilarity nfd s [] <> 100%Z
  /\ forall name,
       score (getBestMatchScore nfd s name [[]])
       = Z.max (calculateSimilarity nfd s name) 0.
Proof.
  assert (R : calculateSimilarity nfd s [] = 0%Z)
    by (apply calculateSimilarity_key_empty; now right).
  split; [exact R|]. split; [|split].
  - apply calculateSimilarity_key_empty. now left.
  - rewrite R. discriminate.
  - intros name. unfold getBestMatchScore. simpl. now rewrite R.
Qed.

(* ================================================================== *)
(** * 15. The screening engine                                        *)
(* ================================================================== *)

Section ScreeningFacts.
Variable nfd : jsstring -> jsstring.
Variable selectAtLeastOne : jsstring.

Lemma persons_loop sp persons acc :
  fold_left (person_step nfd sp) persons acc =
  acc ++ map (result_of nfd (query sp))
           (filter (in_reach nfd sp) (map PersonSubject persons)).
Proof.
  revert acc. induction persons as [|p r IH]; intros acc; simpl.
  - now rewrite app_nil_r.
  - rewrite IH. unfold person_step, in_reach, best_match. simpl.
    destruct (includes (sourceCountries sp) (person_source_country p));
      simpl; [|reflexivity].
    rewrite Z.geb_leb.
    destruct (fuzzyThreshold sp <=? _)%Z; simpl; [|reflexivity].
    now rewrite <- app_assoc.
Qed.

Lemma entities_loop sp entities acc :
  fold_left (entity_step nfd sp) entities acc =
  acc ++ map (result_of nfd (query sp))
           (filter (in_reach nfd sp) (map EntitySubject entities)).
Proof.
  revert acc. induction entities as [|e r IH]; intros acc; simpl.
  - now rewrite app_nil_r.
  - rewrite IH. unfold entity_step, in_reach, best_match. simpl.
    destruct (includes (sourceCountries sp) (entity_source_country e));
      simpl; [|reflexivity].
    rewrite Z.geb_leb.
    destruct (fuzzyThreshold sp <=? _)%Z; simpl; [|reflexivity].
    now rewrite <- app_assoc.
Qed.

Lemma is_hit_reach sp s :
  is_hit nfd sp s = variant_allowed (targetType sp) s && in_reach nfd sp s.
Proof.
  unfold is_hit, in_reach.
  destruct (includes _ _), (variant_allowed _ _), (_ <=? _)%Z; reflexivity.
Qed.

Lemma filter_hits_allowed sp l :
  (forall s, In s l -> variant_allowed (targetType sp) s = true) ->
  filter (is_hit nfd sp) l = filter (in_reach nfd sp) l.
Proof.
  intros H. apply filter_ext_in. intros s Hs.
  now rewrite is_hit_reach, (H s Hs).
Qed.

Lemma filter_hits_refused sp l :
  (forall s, In s l -> variant_allowed (targetType sp) s = false) ->
  filter (is_hit nfd sp) l = [].
Proof.
  intros H. induction l as [|s r IH]; [reflexivity|]. simpl.
  rewrite is_hit_reach, (H s (or_introl eq_refl)). simpl.
  apply IH. intros s' Hs'. apply H. now right.
Qed.

(** The two loops collect the hits in scan order. *)
Lemma scan_hits sp persons entities :
  scan nfd sp persons entities =
  map (result_of nfd (query sp))
    (filter (is_hit nfd sp) (subjects persons entities)).
Proof.
  unfold scan, subjects. rewrite filter_app, map_app.
  destruct (targetType sp) eqn:T.
  - rewrite persons_loop. simpl app.
    rewrite (filter_hits_allowed sp (map PersonSubject persons)).
    2:{ intros s Hs. apply in_map_iff in Hs. destruct Hs as (p & <- & _).
        now rewrite T. }
    rewrite (filter_hits_refused sp (map EntitySubject entities)).
    2:{ intros s Hs. apply in_map_iff in Hs. destruct Hs as (e & <- & _).
        now rewrite T. }
    simpl. now rewrite app_nil_r.
  - rewrite entities_loop. simpl app.
    rewrite (filter_hits_refused sp (map PersonSubject persons)).
    2:{ intros s Hs. apply in_map_iff in Hs. destruct Hs as (p & <- & _).
        now rewrite T. }
    rewrite (filter_hits_allowed sp (map EntitySubject entities)).
    2:{ intros s Hs. apply in_map_iff in Hs. destruct Hs as (e & <- & _).
        now rewrite T. }
    reflexivity.
  - rewrite entities_loop, persons_loop. simpl app.
    rewrite (filter_hits_allowed sp (map PersonSubject persons)).
    2:{ intros s Hs. now rewrite T. }
    rewrite (filter_hits_allowed sp (map EntitySubject entities)).
    2:{ intros s Hs. now rewrite T. }
    reflexivity.
Qed.

Lemma result_of_injective q s s' :
  result_of nfd q s = result_of nfd q s' -> s = s'.
Proof.
  destruct s, s'; simpl; intros H; try discriminate; now injection H as ->.
Qed.

Lemma result_of_score q s :
  result_score (result_of nfd q s) = score (best_match nfd q s).
Proof. now destruct s. Qed.

Lemma by_score_desc_total x y :
  by_score_desc x y = false -> by_score_desc y x = true.
Proof.
  unfold by_score_desc. intros H. apply Z.leb_gt in H. apply Z.leb_le. lia.
Qed.

(** The call passes both guards. *)
Lemma handleSearch_scans sp persons entities st :
  trim (query sp) <> [] -> sourceCountries sp <> [] ->
  handleSearch nfd selectAtLeastOne sp persons entities st =
  ({| matches := Array_sort by_score_desc (scan nfd sp persons entities);
      hasSearched := true;
      comment := [];
      screenerName := [];
      showValidationError := false |},
   [PreventDefault]).
Proof.
  intros Hq Hc. unfold handleSearch.
  destruct (trim (query sp)) as [|c k]; [contradiction|].
  destruct (sourceCountries sp) as [|c0 cs]; [contradiction|].
  reflexivity.
Qed.

End ScreeningFacts.

(** ** A stable sort has one possible result *)

Lemma Sorted_weaken (A : Type) (R R' : A -> A -> Prop) l :
  (forall x y, R x y -> R' x y) -> Sorted R l -> Sorted R' l.
Proof.
  intros H. induction 1 as [|x r Hr IH Hd]; constructor; [exact IH|].
  destruct Hd; constructor. now apply H.
Qed.

Section StableUnique.
Variable A : Type.
Variable key : A -> Z.

Lemma filter_class_head v x r l :
  filter (has_key key v) l = x :: r -> In x l /\ key x = v.
Proof.
  intros H. assert (I : In x (filter (has_key key v) l)) by (rewrite H; now left).
  apply filter_In in I. destruct I as [I K]. split; [exact I|].
  now apply Z.eqb_eq in K.
Qed.

Lemma sorted_classes_equal l1 l2 :
  StronglySorted (key_desc key) l1 -> StronglySorted (key_desc key) l2 ->
  (forall v, filter (has_key key v) l1 = filter (has_key key v) l2) -> l1 = l2.
Proof.
  assert (Cxx : forall z, has_key key (key z) z = true)
    by (intros; apply Z.eqb_refl).
  assert (Cne : forall v z, key z <> v -> has_key key v z = false)
    by (intros; now apply Z.eqb_neq).
  intros S1. revert l2.
  induction S1 as [|x r1 S1 IH F1]; intros l2 S2 H.
  - destruct l2 as [|y r2]; [reflexivity|].
    specialize (H (key y)). simpl in H. rewrite Cxx in H. discriminate.
  - destruct S2 as [|y r2 S2 F2].
    { specialize (H (key x)). simpl in H. rewrite Cxx in H. discriminate. }
    assert (K : key x = key y).
    { destruct (Z.eq_dec (key x) (key y)) as [E|N]; [exact E|exfalso].
      pose proof (H (key x)) as Hx. pose proof (H (key y)) as Hy.
      simpl in Hx, Hy.
      rewrite Cxx, (Cne (key x) y) in Hx by congruence.
      rewrite Cxx, (Cne (key y) x) in Hy by congruence.
      symmetry in Hx. apply filter_class_head in Hx, Hy.
      destruct Hx as [Ix _], Hy as [Iy _].
      rewrite Forall_forall in F1, F2.
      specialize (F1 _ Iy). specialize (F2 _ Ix). unfold key_desc in *. lia. }
    pose proof (H (key x)) as Hx. simpl in Hx.
    rewrite Cxx in Hx. rewrite K, Cxx in Hx. injection Hx as -> Hx.
    f_equal. apply IH; [exact S2|]. intros v. specialize (H v).
    simpl in H. destruct (has_key key v y); [now injection H|exact H].
Qed.

(** Whatever sorts by descending key and keeps ties in place returns what
    [Array_sort] returns. *)
Lemma stable_sort_unique l l' :
  StronglySorted (key_desc key) l' ->
  (forall v, filter (has_key key v) l' = filter (has_key key v) l) ->
  l' = Array_sort (fun a b => (key b - key a <=? 0)%Z) l.
Proof.
  intros S' H. apply sorted_classes_equal; [exact S'| |].
  - apply Sorted_StronglySorted.
    + intros x y z. unfold key_desc. lia.
    + eapply Sorted_weaken; [|apply Array_sort_sorted].
      * intros x y E. simpl in E. apply Z.leb_le in E. unfold key_desc. lia.
      * intros x y E. apply Z.leb_gt in E. apply Z.leb_le. lia.
  - intros v. rewrite H. symmetry. apply Array_sort_stable.
    intros a b Ha Hb. unfold has_key in *.
    apply Z.eqb_eq in Ha, Hb. apply Z.leb_le. lia.
Qed.

End StableUnique.

(** ** The four outcomes of a call *)

(** C1.  When the trimmed query text and the country filter are not
    empty, the result list holds exactly the subjects whose country is in
    the filter, whose variant the target filter allows ([All] allows
    both) and whose best score is at least the threshold: it is a
    rearrangement of the reports of those subjects.  A subject that
    scores exactly the threshold is reported, one that scores the
    threshold minus 1 is not. *)
Theorem screening_hits (nfd : jsstring -> jsstring) (msg : jsstring)
  (sp : SearchParams) (persons : list SanctionedPerson)
  (entities : list SanctionedEntity) (st : ScreenState) :
  trim (query sp) <> [] -> sourceCountries sp <> [] ->
  let rs := matches (fst (handleSearch nfd msg sp persons entities st)) in
  let q := query sp in
  let all := subjects persons entities in
  Permutation rs (map (result_of nfd q) (filter (is_hit nfd sp) all))
  /\ (forall s,
        In (result_of nfd q s) rs <->
        In s all
        /\ includes (sourceCountries sp) (subject_country s) = true
        /\ variant_allowed (targetType sp) s = true
        /\ (score (best_match nfd q s) >= fuzzyThreshold sp)%Z)
  /\ (forall s,
        In s all ->
        includes (sourceCountries sp) (subject_country s) = true ->
        variant_allowed (targetType sp) s = true ->
        score (best_match nfd q s) = fuzzyThreshold sp ->
        In (result_of nfd q s) rs)
  /\ (forall s,
        score (best_match nfd q s) = (fuzzyThreshold sp - 1)%Z ->
        ~ In (result_of nfd q s) rs).
Proof.
  intros Hq Hc rs q all. subst q all.
  set (all := subjects persons entities).
  assert (P : Permutation rs
                (map (result_of nfd (query sp))
                   (filter (is_hit nfd sp) all))).
  { unfold rs. rewrite handleSearch_scans by assumption. simpl.
    rewrite Array_sort_perm. now rewrite scan_hits. }
  assert (M : forall s,
            In (result_of nfd (query sp) s) rs <->
            In s all
            /\ includes (sourceCountries sp) (subject_country s) = true
            /\ variant_allowed (targetType sp) s = true
            /\ (score (best_match nfd (query sp) s) >= fuzzyThreshold sp)%Z).
  { intros s. split.
    - intros H. apply (Permutation_in _ P) in H.
      apply in_map_iff in H. destruct H as (s' & E & H).
      apply result_of_injective in E. subst s'.
      apply filter_In in H. destruct H as [I H]. unfold is_hit in H.
      apply andb_true_iff in H. destruct H as [H T].
      apply andb_true_iff in H. destruct H as [C V].
      apply Z.leb_le in T. repeat split; try assumption. lia.
    - intros (I & C & V & T). apply (Permutation_in _ (Permutation_sym P)).
      apply in_map, filter_In. split; [exact I|].
      unfold is_hit. rewrite C, V. cbn [andb]. apply Z.leb_le. lia. }
  split; [exact P|]. split; [exact M|]. split.
  - intros s I C V E. apply M. repeat split; try assumption. lia.
  - intros s E H. apply M in H. destruct H as (_ & _ & _ & T). lia.
Qed.

(** C3.  The result list of a call that passes the guards is in
    descending order of score; results of equal score stand in the order
    in which the scan met them (persons before entities, each list in its
    own order); and the list depends on nothing but the parameters and the
    two lists, so that the same call yields the same order again. *)
Theorem screening_order (nfd : jsstring -> jsstring) (msg : jsstring)
  (sp : SearchParams) (persons : list SanctionedPerson)
  (entities : list SanctionedEntity) (st : ScreenState) :
  trim (query sp) <> [] -> sourceCountries sp <> [] ->
  let rs := matches (fst (handleSearch nfd msg sp persons entities st)) in
  let met :=
    map (result_of nfd (query sp))
      (filter (is_hit nfd sp) (subjects persons entities)) in
  StronglySorted (fun x y => (result_score x >= result_score y)%Z) rs
  /\ (forall v,
        filter (fun r => (result_score r =? v)%Z) rs =
        filter (fun r => (result_score r =? v)%Z) met)
  /\ (forall st',
        matches (fst (handleSearch nfd msg sp persons entities st')) = rs).
Proof.
  intros Hq Hc rs met.
  assert (E : rs = Array_sort by_score_desc met).
  { unfold rs, met. rewrite handleSearch_scans by assumption. simpl.
    now rewrite scan_hits. }
  split; [|split].
  - rewrite E. apply Sorted_StronglySorted.
    + intros x y z. lia.
    + eapply Sorted_weaken; [|apply Array_sort_sorted].
      * intros x y H. simpl in H. unfold by_score_desc in H.
        apply Z.leb_le in H. lia.
      * apply by_score_desc_total.
  - intros v. rewrite E. apply Array_sort_stable.
    intros a b Ha Hb. apply Z.eqb_eq in Ha, Hb.
    unfold by_score_desc. apply Z.leb_le. lia.
  - intros st'. unfold rs. now rewrite !handleSearch_scans by assumption.
Qed.

(** C4 as the source has it.  A call whose country filter is empty and
    whose trimmed query text is not raises the alert that asks for a list
    and leaves the state as it was, whatever the two lists hold; no call
    that runs the scan, hits or no hits, has that outcome.  (With a blank
    query the call returns before it looks at the filter.) *)
Theorem no_lists_selected (nfd : jsstring -> jsstring) (msg : jsstring)
  (sp : SearchParams) (persons : list SanctionedPerson)
  (entities : list SanctionedEntity) (st : ScreenState) :
  trim (query sp) <> [] -> sourceCountries sp = [] ->
  handleSearch nfd msg sp persons entities st
  = (st, [PreventDefault; Alert msg])
  /\ forall sp' persons' entities' st',
       trim (query sp') <> [] -> sourceCountries sp' <> [] ->
       handleSearch nfd msg sp' persons' entities' st'
       <> handleSearch nfd msg sp persons entities st.
Proof.
  intros Hq Hc.
  assert (E : handleSearch nfd msg sp persons entities st
              = (st, [PreventDefault; Alert msg])).
  { unfold handleSearch. rewrite Hc.
    destruct (trim (query sp)); [contradiction|reflexivity]. }
  split; [exact E|].
  intros sp' persons' entities' st' Hq' Hc'.
  rewrite E, handleSearch_scans by assumption. intros H.
  injection H as _ H. discriminate.
Qed.

(** Against C4 as the specification words it: with a blank query and an
    empty country filter the call returns at the first guard, raises no
    alert and changes nothing. *)
Lemma blank_query_hides_empty_filter :
  sourceCountries blank_query_no_list = []
  /\ handleSearch nfd_latin1 alert_text blank_query_no_list [bande_hama] []
       fresh_state
     = (fresh_state, [PreventDefault])
  /\ ~ signalled fresh_state
         (handleSearch nfd_latin1 alert_text blank_query_no_list
            [bande_hama] [] fresh_state).
Proof.
  split; [reflexivity|]. split; [reflexivity|].
  intros [H|(m & H)].
  - now apply H.
  - simpl in H. destruct H as [H|[]]. discriminate.
Qed.

(** C8 as the source has it.  A call whose query text is empty or white
    space only returns at the first guard: no subject is scanned, the
    state (and with it the list of matches on display) stays as it was
    and no alert is raised.  The query is never taken to match
    everything, and the caller is told nothing. *)
Theorem blank_query_ignored (nfd : jsstring -> jsstring) (msg : jsstring)
  (sp : SearchParams) (persons : list SanctionedPerson)
  (entities : list SanctionedEntity) (st : ScreenState) :
  trim (query sp) = [] ->
  handleSearch nfd msg sp persons entities st = (st, [PreventDefault])
  /\ matches (fst (handleSearch nfd msg sp persons entities st)) = matches st
  /\ ~ signalled st (handleSearch nfd msg sp persons entities st).
Proof.
  intros Hq.
  assert (E : handleSearch nfd msg sp persons entities st
              = (st, [PreventDefault])).
  { unfold handleSearch. now rewrite Hq. }
  rewrite E. split; [reflexivity|]. split; [reflexivity|].
  intros [H|(m & H)].
  - now apply H.
  - simpl in H. destruct H as [H|[]]. discriminate.
Qed.

(** Against C8 as the specification words it: after a search without
    hits, a blank query leaves the screen as that search left it; nothing
    tells the caller that the query was refused. *)
Lemma blank_query_not_signalled :
  trim (query blank_query) = []
  /\ ~ signalled no_match_state
         (handleSearch nfd_latin1 alert_text blank_query [bande_hama] []
            no_match_state).
Proof.
  split; [reflexivity|]. intros [H|(m & H)].
  - now apply H.
  - simpl in H. destruct H as [H|[]]. discriminate.
Qed.

(* ================================================================== *)
(** * 16. Concrete runs                                               *)
(* ================================================================== *)

Lemma decompose_unit_ascii c : isAscii c = true -> decompose_unit c = [c].
Proof.
  intros H. unfold decompose_unit.
  destruct (find _ latin1_decomposition) as [e|] eqn:E; [|reflexivity].
  apply find_some in E. destruct E as [I K]. exfalso.
  assert (T : forallb (fun e => (192 <=? fst e)%N) latin1_decomposition
              = true) by reflexivity.
  rewrite forallb_forall in T. specialize (T e I). simpl in T.
  apply N.leb_le in T. apply N.eqb_eq in K. apply N.ltb_lt in H. lia.
Qed.

Lemma nfd_latin1_ascii : nfd_fixes_ascii nfd_latin1.
Proof.
  intros s. induction s as [|c r IH]; [reflexivity|].
  simpl. intros H. apply andb_true_iff in H. destruct H as [Hc Hr].
  unfold nfd_latin1 in *. simpl.
  now rewrite (decompose_unit_ascii _ Hc), (IH Hr).
Qed.

(** On ASCII input the key does not depend on the decomposition tables. *)
Lemma normalizeString_ascii nfd s :
  nfd_fixes_ascii nfd -> forallb isAscii s = true ->
  normalizeString nfd s = normalizeString (fun x => x) s.
Proof.
  intros H A. destruct s as [|c r]; [reflexivity|].
  unfold normalizeString. now rewrite (H _ A).
Qed.

Lemma calculateSimilarity_ascii nfd s1 s2 :
  nfd_fixes_ascii nfd ->
  forallb isAscii s1 = true -> forallb isAscii s2 = true ->
  calculateSimilarity nfd s1 s2 = calculateSimilarity (fun x => x) s1 s2.
Proof.
  intros H A1 A2. unfold calculateSimilarity.
  rewrite (@normalizeString_ascii nfd s1 H A1).
  now rewrite (@normalizeString_ascii nfd s2 H A2).
Qed.

(** The double of the source agrees with the exact quotient rounded half
    up as long as the longer key has fewer than 40 code units. *)
Lemma rounding_agrees_below_40 d m :
  1 <= m < 40 -> d <= m -> rounds_as_claimed d m = true.
Proof.
  intros Hm Hd.
  assert (T : forallb (fun m => forallb (fun d => rounds_as_claimed d m)
                                  (seq 0 (S m))) (seq 1 39) = true)
    by (vm_compute; reflexivity).
  rewrite forallb_forall in T.
  assert (Im : In m (seq 1 39)) by (apply in_seq; lia).
  specialize (T m Im). rewrite forallb_forall in T.
  apply T, in_seq. lia.
Qed.

(** C7 on a failing input.  The two keys are 40 code units long and 17
    substitutions apart, so that [(1 - 17/40) * 100] is 57.5 and rounds
    half up to 58; the source evaluates the expression in binary64, gets
    57.49999999999999 and returns 57. *)
Theorem similarity_half_rounds_down :
  normalizeString nfd_latin1 forty_a = forty_a
  /\ normalizeString nfd_latin1 forty_a_17_b = forty_a_17_b
  /\ forty_a <> forty_a_17_b
  /\ levenshteinDistance forty_a forty_a_17_b = 17
  /\ Nat.max (length forty_a) (length forty_a_17_b) = 40
  /\ round_half_up_percent 17 40 = 58%Z
  /\ calculateSimilarity nfd_latin1 forty_a forty_a_17_b = 57%Z.
Proof.
  split; [vm_compute; reflexivity|]. split; [vm_compute; reflexivity|].
  split; [intros E; apply str_eqb_eq in E; vm_compute in E; discriminate|].
  repeat split; vm_compute; reflexivity.
Qed.

(** C10.  A score of 100 does not say that the keys are equal: for a
    decomposition that leaves ASCII alone there are two strings whose
    keys are not empty, 200 code units long and one edit apart, for which
    the similarity is 100. *)
Theorem full_score_for_unequal_keys (nfd : jsstring -> jsstring) :
  nfd_fixes_ascii nfd ->
  exists s1 s2,
    normalizeString nfd s1 <> []
    /\ normalizeString nfd s2 <> []
    /\ normalizeString nfd s1 <> normalizeString nfd s2
    /\ length (normalizeString nfd s1) = 200
    /\ length (normalizeString nfd s2) = 200
    /\ is_edit_distance (normalizeString nfd s1) (normalizeString nfd s2) 1
    /\ calculateSimilarity nfd s1 s2 = 100%Z.
Proof.
  intros H. exists two_hundred_a, two_hundred_a_1_b.
  assert (A1 : forallb isAscii two_hundred_a = true)
    by (vm_compute; reflexivity).
  assert (A2 : forallb isAscii two_hundred_a_1_b = true)
    by (vm_compute; reflexivity).
  rewrite (calculateSimilarity_ascii _ _ H A1 A2).
  rewrite (@normalizeString_ascii nfd _ H A1).
  rewrite (@normalizeString_ascii nfd _ H A2).
  assert (N1 : normalizeString (fun x => x) two_hundred_a = two_hundred_a)
    by (vm_compute; reflexivity).
  assert (N2 : normalizeString (fun x => x) two_hundred_a_1_b
               = two_hundred_a_1_b) by (vm_compute; reflexivity).
  rewrite N1, N2.
  split; [discriminate|]. split; [discriminate|].
  split; [intros E; apply str_eqb_eq in E; vm_compute in E; discriminate|].
  split; [reflexivity|]. split; [vm_compute; reflexivity|].
  split; [|vm_compute; reflexivity].
  assert (D : levenshteinDistance two_hundred_a two_hundred_a_1_b = 1)
    by (vm_compute; reflexivity).
  rewrite <- D. apply levenshteinDistance_correct.
Qed.

(** Against C5 as the specification words it: a string of punctuation is
    not empty, its key is, and it scores 0 against itself. *)
Lemma similarity_self_punctuation :
  js "-" <> []
  /\ normalizeString nfd_latin1 (js "-") = []
  /\ calculateSimilarity nfd_latin1 (js "-") (js "-") = 0%Z
  /\ calculateSimilarity nfd_latin1 (js "-") (js "-") <> 100%Z.
Proof.
  split; [discriminate|]. split; [reflexivity|]. split; [reflexivity|].
  vm_compute. discriminate.
Qed.

(** The tie-break of the specification: the query [Bande Hama] against
    the name [BANDE Hama] with the alias [Balobo] scores 100 on the
    name. *)
Lemma tie_break_example :
  getBestMatchScore nfd_latin1 (js "Bande Hama") (js "BANDE Hama")
    [js "Balobo"]
  = {| score := 100; matchedOn := Name |}.
Proof. vm_compute. reflexivity. Qed.

(** A typing slip: [Jon Smth] against [John Smith] is two edits in ten
    code units, 80. *)
Lemma typing_slip_example :
  calculateSimilarity nfd_latin1 (js "Jon Smth") (js "John Smith") = 80%Z.
Proof. vm_compute. reflexivity. Qed.

(** ** The theorems with a premise, run on a concrete input *)

Lemma normalize_idempotent_witness :
  nfd_fixes_ascii nfd_latin1
  /\ normalizeString nfd_latin1
       (normalizeString nfd_latin1 (js "C" ++ [244%N] ++ js "te d'Ivoire"))
     = normalizeString nfd_latin1 (js "C" ++ [244%N] ++ js "te d'Ivoire").
Proof.
  split; [exact nfd_latin1_ascii|].
  exact (@normalize_idempotent nfd_latin1 _ nfd_latin1_ascii).
Defined.

Lemma similarity_self_witness :
  normalizeString nfd_latin1 (js "BANDE Hama") <> []
  /\ calculateSimilarity nfd_latin1 (js "BANDE Hama") (js "BANDE Hama")
     = 100%Z.
Proof.
  assert (H : normalizeString nfd_latin1 (js "BANDE Hama") <> [])
    by (vm_compute; discriminate).
  split; [exact H|]. exact (@similarity_self nfd_latin1 (js "BANDE Hama") H).
Defined.

Lemma full_score_for_unequal_keys_witness :
  nfd_fixes_ascii nfd_latin1
  /\ exists s1 s2,
       normalizeString nfd_latin1 s1 <> normalizeString nfd_latin1 s2
       /\ calculateSimilarity nfd_latin1 s1 s2 = 100%Z.
Proof.
  split; [exact nfd_latin1_ascii|].
  destruct (@full_score_for_unequal_keys nfd_latin1 nfd_latin1_ascii)
    as (s1 & s2 & _ & _ & N & _ & _ & _ & E).
  now exists s1, s2.
Defined.

Lemma screening_hits_witness :
  trim (query name_bf) <> []
  /\ sourceCountries name_bf <> []
  /\ score (best_match nfd_latin1 (query name_bf) (PersonSubject bande_hama))
     = fuzzyThreshold name_bf
  /\ In (result_of nfd_latin1 (query name_bf) (PersonSubject bande_hama))
       (matches
          (fst (handleSearch nfd_latin1 alert_text name_bf [bande_hama] []
                  fresh_state))).
Proof.
  assert (Hq : trim (query name_bf) <> []) by (vm_compute; discriminate).
  assert (Hc : sourceCountries name_bf <> []) by (vm_compute; discriminate).
  assert (Hs : score (best_match nfd_latin1 (query name_bf)
                        (PersonSubject bande_hama))
               = fuzzyThreshold name_bf) by (vm_compute; reflexivity).
  split; [exact Hq|]. split; [exact Hc|]. split; [exact Hs|].
  destruct (@screening_hits nfd_latin1 alert_text name_bf [bande_hama] []
              fresh_state Hq Hc) as (_ & _ & B & _).
  apply B.
  - left. reflexivity.
  - vm_compute. reflexivity.
  - reflexivity.
  - exact Hs.
Defined.

Lemma screening_order_witness :
  trim (query name_bf) <> []
  /\ sourceCountries name_bf <> []
  /\ StronglySorted (fun x y => (result_score x >= result_score y)%Z)
       (matches
          (fst (handleSearch nfd_latin1 alert_text name_bf [bande_hama] []
                  fresh_state))).
Proof.
  assert (Hq : trim (query name_bf) <> []) by (vm_compute; discriminate).
  assert (Hc : sourceCountries name_bf <> []) by (vm_compute; discriminate).
  split; [exact Hq|]. split; [exact Hc|].
  exact (proj1 (@screening_order nfd_latin1 alert_text name_bf [bande_hama] []
                  fresh_state Hq Hc)).
Defined.

Lemma no_lists_selected_witness :
  trim (query name_no_list) <> []
  /\ sourceCountries name_no_list = []
  /\ handleSearch nfd_latin1 alert_text name_no_list [bande_hama] []
       fresh_state
     = (fresh_state, [PreventDefault; Alert alert_text]).
Proof.
  assert (Hq : trim (query name_no_list) <> [])
    by (vm_compute; discriminate).
  split; [exact Hq|]. split; [reflexivity|].
  exact (proj1 (@no_lists_selected nfd_latin1 alert_text name_no_list
                  [bande_hama] [] fresh_state Hq eq_refl)).
Defined.

Lemma blank_query_ignored_witness :
  trim (query blank_query) = []
  /\ handleSearch nfd_latin1 alert_text blank_query [bande_hama] []
       no_match_state
     = (no_match_state, [PreventDefault]).
Proof.
  split; [reflexivity|].
  exact (proj1 (@blank_query_ignored nfd_latin1 alert_text blank_query
                  [bande_hama] [] no_match_state eq_refl)).
Defined.

Lemma best_match_selects_witness :
  fits_number (normalizeString nfd_latin1 (js "Hama Bande"))
  /\ fits_number (normalizeString nfd_latin1 (js "BANDE Hama"))
  /\ matchedOn
       (getBestMatchScore nfd_latin1 (js "Hama Bande") (js "BANDE Hama") [])
     = Name
  /\ score
       (getBestMatchScore nfd_latin1 (js "Hama Bande") (js "BANDE Hama") [])
     = 100%Z.
Proof.
  assert (Fq : fits_number (normalizeString nfd_latin1 (js "Hama Bande")))
    by (vm_compute; reflexivity).
  assert (Fn : fits_number (normalizeString nfd_latin1 (js "BANDE Hama")))
    by (vm_compute; reflexivity).
  split; [exact Fq|]. split; [exact Fn|].
  destruct (@best_match_selects nfd_latin1 (js "Hama Bande")
              (js "BANDE Hama") [])
    as (best & _ & _ & _ & _ & _ & H).
  destruct (H eq_refl Fq Fn) as [Hon Hscore].
  split; [exact Hon|]. rewrite Hscore. vm_compute. reflexivity.
Defined.

(* ================================================================== *)
(** * 17. The distance is a metric                                  *)
(* ================================================================== *)

Lemma edit_script_refl s : edit_script s s 0.
Proof. induction s; now constructor. Qed.

Lemma edit_script_zero s t n : edit_script s t n -> n = 0 -> s = t.
Proof.
  induction 1; intros E; try discriminate; [reflexivity|].
  now rewrite IHedit_script.
Qed.

Lemma edit_script_lengths s t n :
  edit_script s t n -> length s <= length t + n /\ length t <= length s + n.
Proof. induction 1; simpl; lia. Qed.

(** Two scripts in a row are never cheaper than one that does both. *)
Lemma edit_script_trans s t n :
  edit_script s t n ->
  forall u m, edit_script t u m ->
  exists k, k <= n + m /\ edit_script s u k.
Proof.
  induction 1 as [|c a b n H IH|c c' a b n H IH|c a b n H IH|c a b n H IH];
    intros u m H2.
  - exists m. split; [lia|exact H2].
  - remember (c :: b) as l eqn:El. revert El.
    induction H2 as [|d x y p H2 IH2|d d' x y p H2 IH2|d x y p H2 IH2
                    |d x y p H2 IH2]; intros El; try discriminate.
    + injection El as -> ->. destruct (IH _ _ H2) as (k & Lk & Hk).
      exists k. split; [lia|now constructor].
    + injection El as -> ->. destruct (IH _ _ H2) as (k & Lk & Hk).
      exists (S k). split; [lia|now constructor].
    + injection El as -> ->. destruct (IH _ _ H2) as (k & Lk & Hk).
      exists (S k). split; [lia|now constructor].
    + destruct (IH2 El) as (k & Lk & Hk).
      exists (S k). split; [lia|now constructor].
  - remember (c' :: b) as l eqn:El. revert El.
    induction H2 as [|d x y p H2 IH2|d d' x y p H2 IH2|d x y p H2 IH2
                    |d x y p H2 IH2]; intros El; try discriminate.
    + injection El as -> ->. destruct (IH _ _ H2) as (k & Lk & Hk).
      exists (S k). split; [lia|now constructor].
    + injection El as -> ->. destruct (IH _ _ H2) as (k & Lk & Hk).
      exists (S k). split; [lia|now constructor].
    + injection El as -> ->. destruct (IH _ _ H2) as (k & Lk & Hk).
      exists (S k). split; [lia|now constructor].
    + destruct (IH2 El) as (k & Lk & Hk).
      exists (S k). split; [lia|now constructor].
  - destruct (IH _ _ H2) as (k & Lk & Hk).
    exists (S k). split; [lia|now constructor].
  - remember (c :: b) as l eqn:El. revert El.
    induction H2 as [|d x y p H2 IH2|d d' x y p H2 IH2|d x y p H2 IH2
                    |d x y p H2 IH2]; intros El; try discriminate.
    + injection El as -> ->. destruct (IH _ _ H2) as (k & Lk & Hk).
      exists (S k). split; [lia|now constructor].
    + injection El as -> ->. destruct (IH _ _ H2) as (k & Lk & Hk).
      exists (S k). split; [lia|now constructor].
    + injection El as -> ->. destruct (IH _ _ H2) as (k & Lk & Hk).
      exists k. split; [lia|exact Hk].
    + destruct (IH2 El) as (k & Lk & Hk).
      exists (S k). split; [lia|now constructor].
Qed.

Lemma lev_zero s t : lev s t = 0 <-> s = t.
Proof.
  split.
  - intros E. apply (edit_script_zero (lev_script s t) E).
  - intros ->. pose proof (lev_least (edit_script_refl t)). lia.
Qed.

Lemma lev_triangle s t u : lev s u <= lev s t + lev t u.
Proof.
  destruct (edit_script_trans (lev_script s t) (lev_script t u))
    as (k & Lk & Hk).
  pose proof (lev_least Hk). lia.
Qed.

(** X1.  [levenshteinDistance a b] is the edit distance of [a] and [b]:
    some sequence of that many single-character insertions, deletions and
    substitutions turns [a] into [b], and no sequence does it with
    fewer. *)
Theorem distance_is_edit_distance (a b : jsstring) :
  is_edit_distance a b (levenshteinDistance a b).
Proof. rewrite levenshteinDistance_lev. apply lev_is_edit_distance. Qed.

(** X2.  The distance is a metric on strings: it is 0 exactly for equal
    strings, it does not depend on the order of its arguments, and going
    through a third string is never shorter. *)
Theorem distance_is_metric (a b c : jsstring) :
  (levenshteinDistance a b = 0 <-> a = b)
  /\ levenshteinDistance a b = levenshteinDistance b a
  /\ levenshteinDistance a c
     <= levenshteinDistance a b + levenshteinDistance b c.
Proof.
  rewrite !levenshteinDistance_lev.
  split; [apply lev_zero|]. split; [apply lev_sym|apply lev_triangle].
Qed.

(** X3.  The distance is at least the difference of the two lengths and
    at most the larger length; against the empty string it is the length
    of the other string. *)
Theorem distance_bounds (a b : jsstring) :
  length a - length b <= levenshteinDistance a b
  /\ length b - length a <= levenshteinDistance a b
  /\ levenshteinDistance a b <= Nat.max (length a) (length b)
  /\ levenshteinDistance a [] = length a
  /\ levenshteinDistance [] b = length b.
Proof.
  pose proof (levenshteinDistance_bound a b) as U.
  rewrite !levenshteinDistance_lev in *.
  pose proof (edit_script_lengths (lev_script a b)) as [L1 L2].
  repeat split; try lia.
  apply lev_nil_r.
Qed.

(* ================================================================== *)
(** * 18. More about keys                                           *)
(* ================================================================== *)

(** ** The shape of a key *)

Lemma single_spaced_token t :
  Forall (fun c => isWhiteSpace c = false) t -> single_spaced t = true.
Proof.
  induction 1 as [|c r Hc Hr IH]; [reflexivity|].
  destruct r as [|d r']; [reflexivity|].
  change (negb (isWhiteSpace c && isWhiteSpace d) && single_spaced (d :: r')
          = true).
  now rewrite Hc, IH.
Qed.

Lemma single_spaced_app t d rest :
  Forall (fun c => isWhiteSpace c = false) t ->
  isWhiteSpace d = false ->
  single_spaced (d :: rest) = true ->
  single_spaced (t ++ 32%N :: d :: rest) = true.
Proof.
  intros Ht Hd Hr. induction Ht as [|c r Hc Hr' IH].
  - change (negb (isWhiteSpace 32 && isWhiteSpace d)
            && single_spaced (d :: rest) = true).
    now rewrite Hd, Hr, andb_false_r.
  - destruct r as [|e r'].
    + change (negb (isWhiteSpace c && isWhiteSpace 32)
              && single_spaced (32%N :: d :: rest) = true).
      rewrite Hc. exact IH.
    + change (negb (isWhiteSpace c && isWhiteSpace e)
              && single_spaced ((e :: r') ++ 32%N :: d :: rest) = true).
      rewrite Hc. exact IH.
Qed.

Lemma single_spaced_join l :
  Forall is_token l -> single_spaced (join [32%N] l) = true.
Proof.
  induction 1 as [|t r Ht Hr IH]; [reflexivity|].
  destruct r as [|u r']; [apply single_spaced_token, token_no_space, Ht|].
  rewrite join_cons_cons.
  destruct u as [|d u']; [inversion Hr as [|? ? [Hu _] _]; now destruct Hu|].
  destruct (join_head [32%N] d u' r') as (rest & E).
  rewrite E in *. apply single_spaced_app.
  - apply token_no_space, Ht.
  - inversion Hr as [|? ? Hu _]. apply token_no_space in Hu.
    now inversion Hu.
  - exact IH.
Qed.

(** X4.  A key holds nothing but lower-case ASCII letters, digits and
    spaces; it neither starts nor ends with a space, no two spaces are
    adjacent, and its words stand in ascending code-unit order. *)
Theorem key_shape (nfd : jsstring -> jsstring) (s : jsstring) :
  let k := normalizeString nfd s in
  Forall (fun c => isLower c = true \/ isDigit c = true \/ c = 32%N) k
  /\ starts_clean k = true
  /\ ends_clean k = true
  /\ single_spaced k = true
  /\ Sorted (stays_before str_leb) (split_ws k).
Proof.
  intros k.
  destruct (normalize_shape nfd s) as [E|K]; fold k in E || fold k in K.
  - rewrite E. repeat split; try reflexivity; repeat constructor.
  - destruct K as (toks & Hne & Htok & Hsorted & E). rewrite E.
    destruct (join_clean Hne Htok) as (_ & Hs & He).
    split; [|split; [exact Hs|split; [exact He|split]]].
    + eapply Forall_impl; [|apply (join_units Htok)].
      intros c [H| ->]; [|now right; right].
      unfold isKey in H. apply orb_true_iff in H. tauto.
    + now apply single_spaced_join.
    + now rewrite split_join.
Qed.

(** ** When a key is empty *)

Lemma trimStart_In c s :
  In c s -> isWhiteSpace c = false -> In c (trimStart s).
Proof.
  intros Hin Hc. induction s as [|d r IH]; [easy|]. simpl.
  destruct (isWhiteSpace d) eqn:Hd.
  - destruct Hin as [->|Hin]; [congruence|now apply IH].
  - exact Hin.
Qed.

Lemma trimEnd_In c s :
  In c s -> isWhiteSpace c = false -> In c (trimEnd s).
Proof.
  intros Hin Hc. induction s as [|d r IH]; [easy|]. simpl.
  destruct Hin as [->|Hin].
  - destruct (trimEnd r); [rewrite Hc|]; now left.
  - specialize (IH Hin). destruct (trimEnd r); [easy|now right].
Qed.

Lemma split_ws_In c s :
  In c s -> isWhiteSpace c = false ->
  exists t, In t (split_ws s) /\ In c t.
Proof.
  intros Hin Hc. induction s as [|d r IH]; [easy|].
  destruct (isWhiteSpace d) eqn:Hd.
  - destruct Hin as [->|Hin]; [congruence|].
    destruct (IH Hin) as (t & Ht & Hct).
    exists t. split; [|exact Hct]. simpl. rewrite Hd.
    destruct r as [|e r']; [easy|].
    destruct (isWhiteSpace e); [exact Ht|now right].
  - destruct (@split_ws_head d r Hd) as (t0 & ts & E). rewrite E.
    destruct Hin as [->|Hin].
    + exists (c :: t0). split; now left.
    + destruct (IH Hin) as (t & Ht & Hct).
      assert (E' : split_ws r = t0 :: ts).
      { destruct (split_ws_cons r) as (t1 & ts1 & E1).
        simpl in E. rewrite Hd, E1 in E. rewrite E1. congruence. }
      rewrite E' in Ht. destruct Ht as [<-|Ht].
      * exists (d :: t0). split; [now left|now right].
      * exists t. split; [now right|exact Hct].
Qed.

Lemma join_In sep c t l : In t l -> In c t -> In c (join sep l).
Proof.
  intros Ht Hc. induction l as [|u r IH]; [easy|].
  destruct r as [|v r'].
  - destruct Ht as [->|[]]. exact Hc.
  - rewrite join_cons_cons. apply in_or_app.
    destruct Ht as [->|Ht]; [now left|].
    right. apply in_or_app. right. now apply IH.
Qed.

Lemma trimStart_blank s :
  Forall (fun c => isWhiteSpace c = true) s -> trimStart s = [].
Proof. induction 1 as [|c r Hc Hr IH]; simpl; [reflexivity|now rewrite Hc]. Qed.

Lemma alnum_kept c : isAlnum c = true -> isKept c = true.
Proof. unfold isAlnum, isKept. intros ->. reflexivity. Qed.

Lemma alnum_units c :
  isAlnum c = true ->
  isCombiningMark c = false /\ isKept c = true
  /\ isWhiteSpace (lowerUnit c) = false.
Proof.
  intros H. pose proof (alnum_kept _ H) as K.
  split; [|split; [exact K|]].
  - unfold isAlnum in H. units.
  - destruct (kept_lower _ K) as [L|W]; [now apply key_not_space|].
    exfalso. unfold isAlnum, lowerUnit in *.
    destruct (isUpper c) eqn:U; units.
Qed.

Lemma not_alnum_units c :
  isAlnum c = false -> isKept c = true ->
  isWhiteSpace (lowerUnit c) = true.
Proof.
  unfold isAlnum, isKept. intros H K.
  rewrite H in K. simpl in K.
  apply orb_false_iff in H. destruct H as [H U].
  apply orb_false_iff in H. destruct H as [L U'].
  unfold lowerUnit. now rewrite U'.
Qed.

Lemma normalizeString_empty (nfd : jsstring -> jsstring) (s : jsstring) :
  normalizeString nfd s = [] <-> s = [] \/ unreadable nfd s.
Proof.
  destruct s as [|c0 s0]; [split; [now left|reflexivity]|].
  rewrite normalizeString_nonempty by discriminate.
  set (s := c0 :: s0). unfold unreadable.
  set (w := toLowerCase _).
  split.
  - intros E. right. apply Forall_forall. intros c Hc.
    destruct (isAlnum c) eqn:A; [exfalso|reflexivity].
    destruct (alnum_units _ A) as (M & K & W).
    assert (Hw : In (lowerUnit c) w).
    { unfold w, toLowerCase, replace_class. apply in_map.
      apply filter_In. split; [|now rewrite K].
      apply filter_In. split; [exact Hc|now rewrite M]. }
    assert (Ht : In (lowerUnit c) (trim w))
      by (apply trimEnd_In, W; apply trimStart_In, W; exact Hw).
    destruct (split_ws_In _ _ Ht W) as (t & Ht' & Hct).
    assert (Hs : In t (Array_sort str_leb (split_ws (trim w)))).
    { eapply Permutation_in; [|exact Ht'].
      symmetry. apply Array_sort_perm. }
    pose proof (join_In [32%N] _ _ _ Hs Hct) as Hj.
    rewrite E in Hj. exact Hj.
  - intros [E|U]; [discriminate|].
    assert (B : Forall (fun c => isWhiteSpace c = true) w).
    { unfold w, toLowerCase, replace_class. apply Forall_map, Forall_forall.
      intros c Hc. apply filter_In in Hc. destruct Hc as [Hc K].
      apply filter_In in Hc. destruct Hc as [Hc _].
      rewrite Forall_forall in U. apply not_alnum_units; [now apply U|].
      now rewrite negb_involutive in K. }
    unfold trim. rewrite (trimStart_blank B). reflexivity.
Qed.

(** X5.  The key is empty exactly when the string is empty or its
    decomposition holds no ASCII letter and no digit. *)
Theorem key_empty_iff (nfd : jsstring -> jsstring) (s : jsstring) :
  normalizeString nfd s = [] <-> s = [] \/ unreadable nfd s.
Proof. apply normalizeString_empty. Qed.

(** ** Word order *)

Lemma str_leb_refl x : str_leb x x = true.
Proof.
  induction x as [|a x IH]; simpl; [reflexivity|]. now rewrite N.ltb_irrefl.
Qed.

Lemma str_leb_antisym x y :
  str_leb x y = true -> str_leb y x = true -> x = y.
Proof.
  revert y. induction x as [|a x IH]; intros [|b y]; simpl; try easy.
  destruct (N.ltb_spec a b), (N.ltb_spec b a); try easy; try lia.
  intros H1 H2. f_equal; [lia|now apply IH].
Qed.

Lemma str_leb_trans x y z :
  str_leb x y = true -> str_leb y z = true -> str_leb x z = true.
Proof.
  revert y z. induction x as [|a x IH]; intros [|b y] [|c z]; simpl; try easy.
  destruct (N.ltb_spec a b), (N.ltb_spec b c), (N.ltb_spec a c),
    (N.ltb_spec b a), (N.ltb_spec c b), (N.ltb_spec c a);
    try easy; try lia.
  apply IH.
Qed.

Lemma sorted_perm_unique (l1 l2 : list jsstring) :
  StronglySorted (stays_before str_leb) l1 ->
  StronglySorted (stays_before str_leb) l2 ->
  Permutation l1 l2 -> l1 = l2.
Proof.
  intros S1. revert l2.
  induction S1 as [|x r1 S1 IH F1]; intros l2 S2 P.
  - now apply Permutation_nil in P.
  - destruct S2 as [|y r2 S2 F2];
      [now apply Permutation_sym, Permutation_nil in P|].
    assert (E : x = y).
    { rewrite Forall_forall in F1, F2.
      assert (I1 : In y (x :: r1))
        by (eapply Permutation_in; [symmetry; exact P|now left]).
      assert (I2 : In x (y :: r2))
        by (eapply Permutation_in; [exact P|now left]).
      destruct I1 as [I1|I1]; [easy|]. destruct I2 as [I2|I2]; [easy|].
      apply str_leb_antisym; [now apply F1|now apply F2]. }
    subst y. f_equal. apply IH; [exact S2|].
    now apply Permutation_cons_inv in P.
Qed.

Lemma Array_sort_perm_eq (l1 l2 : list jsstring) :
  Permutation l1 l2 -> Array_sort str_leb l1 = Array_sort str_leb l2.
Proof.
  intros P. apply sorted_perm_unique.
  - apply Sorted_StronglySorted; [intros x y z; apply str_leb_trans|].
    apply Array_sort_sorted, str_leb_total.
  - apply Sorted_StronglySorted; [intros x y z; apply str_leb_trans|].
    apply Array_sort_sorted, str_leb_total.
  - rewrite !Array_sort_perm. exact P.
Qed.

Lemma map_join (f : N -> N) sep l :
  map f (join sep l) = join (map f sep) (map (map f) l).
Proof.
  induction l as [|t r IH]; [reflexivity|].
  destruct r as [|u r']; [reflexivity|].
  rewrite join_cons_cons. simpl map at 3. 
  change (map (map f) (t :: u :: r'))
    with (map f t :: map f u :: map (map f) r').
  rewrite join_cons_cons, !map_app, IH. reflexivity.
Qed.

Lemma word_units c :
  isAlnum c = true ->
  isAscii c = true /\ negb (isCombiningMark c) = true
  /\ negb (negb (isKept c)) = true /\ isKey (lowerUnit c) = true.
Proof.
  intros H. destruct (alnum_units _ H) as (M & K & W).
  rewrite M, K. repeat split.
  - unfold isAlnum in H. units.
  - destruct (kept_lower _ K) as [L|W']; [exact L|congruence].
Qed.

Lemma lowered_word t : is_word t -> is_token (map lowerUnit t).
Proof.
  intros [Hne H]. split; [now destruct t|].
  apply Forall_map. eapply Forall_impl; [|exact H].
  intros c Hc. apply (word_units _ Hc).
Qed.

Section WordOrder.
Variable nfd : jsstring -> jsstring.
Hypothesis nfd_ascii : nfd_fixes_ascii nfd.

(** The key of a list of words: the words in lower case, sorted. *)
Lemma normalizeString_words ws :
  ws <> [] -> Forall is_word ws ->
  normalizeString nfd (join [32%N] ws)
  = join [32%N] (Array_sort str_leb (map toLowerCase ws)).
Proof.
  intros Hne Hw.
  set (s := join [32%N] ws).
  assert (U : Forall (fun c => isAlnum c = true \/ c = 32%N) s).
  { clear Hne. unfold s. induction Hw as [|t r Ht Hr IH]; [constructor|].
    assert (Hk : Forall (fun c => isAlnum c = true \/ c = 32%N) t).
    { destruct Ht as [_ Ht]. eapply Forall_impl; [|exact Ht]. now left. }
    destruct r as [|u r']; [exact Hk|].
    rewrite join_cons_cons. apply Forall_app. split; [exact Hk|].
    simpl app. constructor; [now right|exact IH]. }
  assert (F : Forall (fun c => isAscii c = true
                        /\ negb (isCombiningMark c) = true
                        /\ negb (negb (isKept c)) = true) s).
  { eapply Forall_impl; [|exact U]. intros c [H| ->]; [|now vm_compute].
    destruct (word_units _ H) as (A & B & C & _). now repeat split. }
  assert (Hs : s <> []).
  { unfold s. destruct ws as [|t r]; [easy|].
    inversion Hw as [|? ? [Ht _] _]. destruct t as [|c t']; [easy|].
    destruct (join_head [32%N] c t' r) as (rest & E). rewrite E. discriminate. }
  rewrite normalizeString_nonempty by exact Hs.
  rewrite nfd_ascii.
  2:{ apply forallb_forall. rewrite Forall_forall in F.
      intros c Hc. apply (F c Hc). }
  unfold replace_class.
  rewrite (@filter_fixed (fun c => negb (isCombiningMark c))).
  2:{ eapply Forall_impl; [|exact F]. now intros c (_ & H & _). }
  rewrite (@filter_fixed (fun c => negb (negb (isKept c)))).
  2:{ eapply Forall_impl; [|exact F]. now intros c (_ & _ & H). }
  unfold toLowerCase at 1, s. rewrite map_join.
  change (map lowerUnit [32%N]) with [32%N].
  assert (Ht : Forall is_token (map (map lowerUnit) ws)).
  { apply Forall_map. eapply Forall_impl; [|exact Hw].
    intros t. apply lowered_word. }
  assert (Hne' : map (map lowerUnit) ws <> []) by now destruct ws.
  destruct (join_clean Hne' Ht) as (_ & Hs' & He').
  rewrite trim_fixed by assumption.
  rewrite split_join by assumption.
  reflexivity.
Qed.

End WordOrder.

(** X6.  Word order does not matter.  Two strings made of the same words
    (ASCII letters and digits, one space between two words) in a
    different order have the same key, and they score 100 against each
    other. *)
Theorem word_order_ignored (nfd : jsstring -> jsstring)
  (ws ws' : list jsstring) :
  nfd_fixes_ascii nfd -> Forall is_word ws -> Permutation ws ws' ->
  normalizeString nfd (join [32%N] ws) = normalizeString nfd (join [32%N] ws')
  /\ (ws <> [] ->
      calculateSimilarity nfd (join [32%N] ws) (join [32%N] ws') = 100%Z).
Proof.
  intros Hn Hw P.
  assert (Hw' : Forall is_word ws')
    by (eapply Permutation_Forall; [exact P|exact Hw]).
  assert (E : normalizeString nfd (join [32%N] ws)
              = normalizeString nfd (join [32%N] ws')).
  { destruct ws as [|t r].
    - apply Permutation_nil in P. now subst ws'.
    - assert (N' : ws' <> []).
      { intros ->. now apply Permutation_sym, Permutation_nil in P. }
      rewrite !normalizeString_words by (assumption || discriminate).
      f_equal. apply Array_sort_perm_eq. now apply Permutation_map. }
  split; [exact E|]. intros Hne.
  apply calculateSimilarity_key_equal; [|exact E].
  rewrite normalizeString_words by assumption.
  assert (Ht : Forall is_token (Array_sort str_leb (map toLowerCase ws))).
  { apply Array_sort_Forall, Forall_map.
    eapply Forall_impl; [|exact Hw]. intros t. apply lowered_word. }
  apply join_clean; [|exact Ht].
  intros N0. pose proof (Array_sort_perm str_leb (map toLowerCase ws)) as Q.
  rewrite N0 in Q. apply Permutation_nil in Q. now destruct ws.
Qed.

(** ** Case and punctuation *)

Lemma map_filter_commute (f : N -> N) (p : N -> bool) s :
  (forall c, p (f c) = p c) -> map f (filter p s) = filter p (map f s).
Proof.
  intros H. induction s as [|c r IH]; [reflexivity|]. simpl.
  rewrite H. destruct (p c); simpl; now rewrite IH.
Qed.

Lemma ascii_no_mark s :
  forallb isAscii s = true ->
  replace_class isCombiningMark s = s.
Proof.
  intros A. apply filter_fixed, Forall_forall. intros c Hc.
  rewrite forallb_forall in A. specialize (A c Hc).
  apply negb_true_iff. units.
Qed.

Section CaseAndPunctuation.
Variable nfd : jsstring -> jsstring.
Hypothesis nfd_ascii : nfd_fixes_ascii nfd.

Lemma normalizeString_cleaned s :
  forallb isAscii s = true ->
  normalizeString nfd s
  = join [32%N]
      (Array_sort str_leb
         (split_ws
            (trim
               (toLowerCase (replace_class (fun c => negb (isKept c)) s))))).
Proof.
  intros A. destruct s as [|c r]; [reflexivity|].
  rewrite normalizeString_nonempty by discriminate.
  now rewrite nfd_ascii, ascii_no_mark.
Qed.

End CaseAndPunctuation.

Lemma lowerUnit_kept c : isKept (lowerUnit c) = isKept c.
Proof.
  unfold lowerUnit. destruct (isUpper c) eqn:U; [|reflexivity].
  unfold isKept at 2. rewrite U, orb_true_r. simpl.
  unfold isKept. replace (isLower (c + 32)) with true; [reflexivity|].
  symmetry. units.
Qed.

(** X7.  Case does not matter: two ASCII strings that agree once they
    are put in lower case have the same key. *)
Theorem case_ignored (nfd : jsstring -> jsstring) (s t : jsstring) :
  nfd_fixes_ascii nfd ->
  forallb isAscii s = true -> forallb isAscii t = true ->
  toLowerCase s = toLowerCase t ->
  normalizeString nfd s = normalizeString nfd t.
Proof.
  intros Hn As At E.
  rewrite !normalizeString_cleaned by assumption.
  unfold toLowerCase, replace_class in *.
  rewrite !(@map_filter_commute lowerUnit (fun c => negb (negb (isKept c))))
    by (intros c; now rewrite lowerUnit_kept).
  now rewrite E.
Qed.

(** X8.  Punctuation does not count: deleting from an ASCII string
    characters that are neither letters, digits nor white space leaves
    the key as it is.  (The neighbours of a deleted character close up:
    [Jean-Pierre] has the key of [JeanPierre], not of [Jean Pierre].) *)
Theorem punctuation_ignored (nfd : jsstring -> jsstring) (p : N -> bool)
  (s : jsstring) :
  nfd_fixes_ascii nfd ->
  forallb isAscii s = true ->
  (forall c, p c = true -> isKept c = false) ->
  normalizeString nfd (replace_class p s) = normalizeString nfd s.
Proof.
  intros Hn As Hp.
  assert (As' : forallb isAscii (replace_class p s) = true).
  { apply forallb_forall. intros c Hc. apply filter_In in Hc.
    rewrite forallb_forall in As. now apply As. }
  rewrite !normalizeString_cleaned by assumption.
  do 5 f_equal. unfold replace_class.
  clear - Hp. induction s as [|c r IH]; [reflexivity|].
  simpl. destruct (p c) eqn:P; simpl.
  - rewrite (Hp _ P). simpl. exact IH.
  - now rewrite IH.
Qed.

(** ** Spacing *)

(** The pieces of [split_ws] as a first piece and the others. *)
Lemma split_ws_eta s : split_ws s = hd [] (split_ws s) :: tl (split_ws s).
Proof. destruct (split_ws_cons s) as (t & ts & E). now rewrite E. Qed.

Lemma split_ws_letter c r :
  isWhiteSpace c = false ->
  split_ws (c :: r) = (c :: hd [] (split_ws r)) :: tl (split_ws r).
Proof.
  intros H. destruct (split_ws_cons r) as (t & ts & E).
  simpl. now rewrite H, E.
Qed.

Lemma split_ws_blank c r :
  isWhiteSpace c = true ->
  split_ws (c :: r)
  = match r with
    | [] => [[]; []]
    | d :: _ => if isWhiteSpace d then split_ws r else [] :: split_ws r
    end.
Proof. intros H. destruct r; simpl; rewrite H; reflexivity. Qed.

Lemma split_ws_blank_hd c r :
  isWhiteSpace c = true -> hd [] (split_ws (c :: r)) = [].
Proof.
  revert c. induction r as [|d r IH]; intros c H;
    rewrite (@split_ws_blank _ _ H); [reflexivity|].
  destruct (isWhiteSpace d) eqn:D; [|reflexivity].
  now apply IH.
Qed.

Section Pieces.
Variable g : jsstring -> jsstring.
Hypothesis g_nil : g [] = [].

Lemma kept_pieces_cons t l :
  kept_pieces g (t :: l)
  = (if isEmpty (g t) then [] else [g t]) ++ kept_pieces g l.
Proof. unfold kept_pieces. simpl. now destruct (isEmpty (g t)). Qed.

Lemma kept_pieces_nil_cons l : kept_pieces g ([] :: l) = kept_pieces g l.
Proof. now rewrite kept_pieces_cons, g_nil. Qed.

Lemma split_ws_blank_tl c r :
  isWhiteSpace c = true ->
  kept_pieces g (tl (split_ws (c :: r))) = kept_pieces g (split_ws r).
Proof.
  intros H. rewrite (@split_ws_blank _ _ H). destruct r as [|d r].
  - reflexivity.
  - destruct (isWhiteSpace d) eqn:D; [|reflexivity].
    rewrite (split_ws_eta (d :: r)) at 2.
    now rewrite (@split_ws_blank_hd _ r D), kept_pieces_nil_cons.
Qed.

Lemma kept_pieces_words l :
  kept_pieces g (filter (fun t => negb (isEmpty t)) l) = kept_pieces g l.
Proof.
  induction l as [|t l IH]; [reflexivity|]. simpl.
  destruct t as [|c t]; simpl.
  - now rewrite kept_pieces_nil_cons.
  - now rewrite !kept_pieces_cons, IH.
Qed.

End Pieces.

Lemma kept_pieces_id l :
  kept_pieces (fun t => t) l = filter (fun t => negb (isEmpty t)) l.
Proof. unfold kept_pieces. now rewrite map_id. Qed.

(** Deleting code units that are not white space deletes them inside the
    pieces. *)
Lemma filter_cons (p : N -> bool) c l :
  filter p (c :: l) = if p c then c :: filter p l else filter p l.
Proof. reflexivity. Qed.

Lemma split_ws_filter (p : N -> bool) s :
  (forall c, isWhiteSpace c = true -> p c = true) ->
  hd [] (split_ws (filter p s)) = filter p (hd [] (split_ws s))
  /\ kept_pieces (fun t => t) (tl (split_ws (filter p s)))
     = kept_pieces (filter p) (tl (split_ws s)).
Proof.
  intros Hp. induction s as [|c r [IH1 IH2]]; [easy|].
  rewrite filter_cons. destruct (isWhiteSpace c) eqn:W.
  - rewrite (Hp _ W).
    rewrite !(@split_ws_blank_hd c _ W). split; [reflexivity|].
    rewrite !split_ws_blank_tl by (exact W || reflexivity).
    rewrite (split_ws_eta (filter p r)), (split_ws_eta r).
    rewrite !kept_pieces_cons, IH1, IH2. reflexivity.
  - rewrite (@split_ws_letter c r W). cbn [hd tl].
    rewrite filter_cons. destruct (p c) eqn:P.
    + rewrite (@split_ws_letter c (filter p r) W). cbn [hd tl].
      rewrite IH1. split; [reflexivity|exact IH2].
    + rewrite IH1. split; [reflexivity|exact IH2].
Qed.

Lemma words_filter (p : N -> bool) s :
  (forall c, isWhiteSpace c = true -> p c = true) ->
  words (filter p s) = kept_pieces (filter p) (words s).
Proof.
  intros Hp. destruct (@split_ws_filter p s Hp) as [H1 H2].
  unfold words. rewrite kept_pieces_words by reflexivity.
  rewrite <- kept_pieces_id.
  rewrite (split_ws_eta (filter p s)), (split_ws_eta s).
  rewrite !kept_pieces_cons, H1, H2. reflexivity.
Qed.

Lemma split_ws_map (f : N -> N) s :
  (forall c, isWhiteSpace (f c) = isWhiteSpace c) ->
  split_ws (map f s) = map (map f) (split_ws s).
Proof.
  intros Hf. induction s as [|c r IH]; [reflexivity|].
  change (map f (c :: r)) with (f c :: map f r).
  destruct (isWhiteSpace c) eqn:W.
  - rewrite (@split_ws_blank (f c) _) by now rewrite Hf.
    rewrite (@split_ws_blank c _ W).
    destruct r as [|d r]; [reflexivity|].
    change (map f (d :: r)) with (f d :: map f r) in *.
    cbv iota. rewrite Hf, IH. now destruct (isWhiteSpace d).
  - rewrite (@split_ws_letter c r W).
    rewrite (@split_ws_letter (f c) (map f r)) by now rewrite Hf.
    rewrite IH. now destruct (split_ws r).
Qed.

Lemma words_map (f : N -> N) s :
  (forall c, isWhiteSpace (f c) = isWhiteSpace c) ->
  words (map f s) = map (map f) (words s).
Proof.
  intros Hf. unfold words. rewrite split_ws_map by exact Hf.
  induction (split_ws s) as [|t l IH]; [reflexivity|]. simpl.
  destruct t; simpl; now rewrite IH.
Qed.

(** Trimming keeps the words. *)
Lemma words_blank c r : isWhiteSpace c = true -> words (c :: r) = words r.
Proof.
  intros W. unfold words. rewrite <- !kept_pieces_id.
  rewrite (split_ws_eta (c :: r)), kept_pieces_cons.
  rewrite (@split_ws_blank_hd _ r W). simpl app.
  now apply split_ws_blank_tl.
Qed.

Lemma words_trimStart s : words (trimStart s) = words s.
Proof.
  induction s as [|c r IH]; [reflexivity|]. simpl.
  destruct (isWhiteSpace c) eqn:W; [|reflexivity].
  now rewrite IH, words_blank.
Qed.

Lemma split_ws_trimEnd s :
  hd [] (split_ws (trimEnd s)) = hd [] (split_ws s)
  /\ kept_pieces (fun t => t) (tl (split_ws (trimEnd s)))
     = kept_pieces (fun t => t) (tl (split_ws s)).
Proof.
  induction s as [|c r [IH1 IH2]]; [easy|].
  simpl trimEnd. destruct (trimEnd r) as [|d r'] eqn:E.
  - simpl in IH1, IH2. destruct (isWhiteSpace c) eqn:W.
    + rewrite split_ws_blank_hd by exact W. split; [reflexivity|].
      rewrite split_ws_blank_tl by (exact W || reflexivity).
      rewrite (split_ws_eta r), kept_pieces_cons, <- IH1, <- IH2.
      reflexivity.
    + rewrite (@split_ws_letter _ r W), (@split_ws_letter _ [] W).
      simpl. rewrite <- IH1. split; [reflexivity|exact IH2].
  - destruct (isWhiteSpace c) eqn:W.
    + rewrite !split_ws_blank_hd by exact W. split; [reflexivity|].
      rewrite !split_ws_blank_tl by (exact W || reflexivity).
      rewrite (split_ws_eta (d :: r')), (split_ws_eta r).
      now rewrite !kept_pieces_cons, IH1, IH2.
    + rewrite (@split_ws_letter _ (d :: r') W), (@split_ws_letter _ r W).
      cbn [hd tl]. rewrite IH1. split; [reflexivity|exact IH2].
Qed.

Lemma words_trimEnd s : words (trimEnd s) = words s.
Proof.
  destruct (split_ws_trimEnd s) as [H1 H2].
  unfold words. rewrite <- !kept_pieces_id.
  rewrite (split_ws_eta (trimEnd s)), (split_ws_eta s).
  now rewrite !kept_pieces_cons, H1, H2.
Qed.

Lemma words_trim s : words (trim s) = words s.
Proof. unfold trim. now rewrite words_trimEnd, words_trimStart. Qed.

(** What [split] makes of a trimmed string: its words, or one empty
    piece when there is none. *)
Lemma split_ws_trim s :
  split_ws (trim s) = match words s with [] => [[]] | l => l end.
Proof.
  rewrite <- words_trim. destruct (trim_clean s) as [Hs He].
  destruct (split_ws_clean _ Hs He) as [E|F].
  - rewrite E. reflexivity.
  - unfold words.
    assert (I : filter (fun t => negb (isEmpty t)) (split_ws (trim s))
                = split_ws (trim s)).
    { induction F as [|t l Ht Hl IH]; [reflexivity|]. simpl.
      destruct t; [easy|]. simpl. now rewrite IH. }
    rewrite I. now destruct (split_ws_cons (trim s)) as (t & ts & ->).
Qed.

Lemma lowerUnit_space c : isWhiteSpace (lowerUnit c) = isWhiteSpace c.
Proof.
  unfold lowerUnit. destruct (isUpper c) eqn:U; [|reflexivity].
  transitivity false; [|symmetry]; units.
Qed.

Lemma space_kept c : isWhiteSpace c = true -> negb (negb (isKept c)) = true.
Proof. intros W. unfold isKept. now rewrite W, !orb_true_r. Qed.

(** X25.  Spacing does not matter: two ASCII strings with the same words
    (maximal runs of code units that are not white space) have the same
    key, whatever white space stands before, between and after the
    words. *)
Theorem spacing_ignored (nfd : jsstring -> jsstring) (s t : jsstring) :
  nfd_fixes_ascii nfd ->
  forallb isAscii s = true -> forallb isAscii t = true ->
  words s = words t ->
  normalizeString nfd s = normalizeString nfd t.
Proof.
  intros Hn As At E.
  assert (K : forall x, forallb isAscii x = true ->
                normalizeString nfd x
                = join [32%N]
                    (Array_sort str_leb
                       match
                         map toLowerCase
                           (kept_pieces
                              (filter (fun c => negb (negb (isKept c))))
                              (words x))
                       with [] => [[]] | l => l end)).
  { intros x Ax. destruct x as [|c r]; [reflexivity|].
    rewrite normalizeString_nonempty by discriminate.
    rewrite Hn by exact Ax.
    assert (M : replace_class isCombiningMark (c :: r) = c :: r).
    { apply filter_fixed, Forall_forall. intros u Hu.
      rewrite forallb_forall in Ax. specialize (Ax u Hu).
      apply negb_true_iff. units. }
    rewrite M, split_ws_trim. unfold toLowerCase at 1, replace_class.
    rewrite words_map by apply lowerUnit_space.
    rewrite words_filter by apply space_kept.
    reflexivity. }
  rewrite (K s As), (K t At), E. reflexivity.
Qed.

(* ================================================================== *)
(** * 19. More about scores                                         *)
(* ================================================================== *)

Lemma str_eqb_sym x y : str_eqb x y = str_eqb y x.
Proof.
  destruct (str_eqb x y) eqn:E.
  - apply str_eqb_eq in E. subst. symmetry. apply str_eqb_refl.
  - destruct (str_eqb y x) eqn:E'; [|reflexivity].
    apply str_eqb_eq in E'. subst. now rewrite str_eqb_refl in E.
Qed.

(** One edit or more in fewer than 200 code units scores below 100. *)
Lemma below_full_score_200 d m :
  1 <= d <= m -> m < 200 -> below_full_score d m = true.
Proof.
  intros Hd Hm.
  assert (T : forallb (fun m => forallb (fun d => below_full_score d m)
                                  (seq 1 m)) (seq 1 199) = true)
    by (vm_compute; reflexivity).
  rewrite forallb_forall in T.
  assert (Im : In m (seq 1 199)) by (apply in_seq; lia).
  specialize (T m Im). rewrite forallb_forall in T.
  apply T, in_seq. lia.
Qed.

Section SimilarityFacts.
Variable nfd : jsstring -> jsstring.

(** X9.  A similarity is a percentage: it lies between 0 and 100 (for
    keys of a length that a string can have), although the source does
    not clamp it. *)
Theorem similarity_is_percentage (s1 s2 : jsstring) :
  fits_number (normalizeString nfd s1) ->
  fits_number (normalizeString nfd s2) ->
  (0 <= calculateSimilarity nfd s1 s2 <= 100)%Z.
Proof. apply calculateSimilarity_range. Qed.

(** X10.  The similarity does not depend on the order of its
    arguments. *)
Theorem similarity_symmetric (s1 s2 : jsstring) :
  calculateSimilarity nfd s1 s2 = calculateSimilarity nfd s2 s1.
Proof.
  unfold calculateSimilarity.
  rewrite orb_comm, str_eqb_sym.
  rewrite !levenshteinDistance_lev, lev_sym, Nat.max_comm.
  reflexivity.
Qed.

(** X11.  Below 200 code units a score of 100 means equal keys: when
    both keys are shorter than 200 code units, the similarity is 100
    exactly when the keys are equal and not empty. *)
Theorem full_score_means_equal_keys (s1 s2 : jsstring) :
  length (normalizeString nfd s1) < 200 ->
  length (normalizeString nfd s2) < 200 ->
  (calculateSimilarity nfd s1 s2 = 100%Z <->
   normalizeString nfd s1 <> []
   /\ normalizeString nfd s1 = normalizeString nfd s2).
Proof.
  intros L1 L2. split.
  - intros E.
    destruct (list_eq_dec N.eq_dec (normalizeString nfd s1) [])
      as [E1|N1].
    { rewrite calculateSimilarity_key_empty in E by now left. discriminate. }
    destruct (list_eq_dec N.eq_dec (normalizeString nfd s2) [])
      as [E2|N2].
    { rewrite calculateSimilarity_key_empty in E by now right. discriminate. }
    split; [exact N1|].
    destruct (list_eq_dec N.eq_dec (normalizeString nfd s1)
                (normalizeString nfd s2)) as [E12|N12]; [exact E12|].
    exfalso.
    destruct (calculateSimilarity_formula nfd s1 s2 N1 N2 N12)
      as (d & Hd & Ld & F).
    rewrite F in E.
    assert (D : d = lev (normalizeString nfd s1) (normalizeString nfd s2)).
    { eapply is_edit_distance_unique; [exact Hd|apply lev_is_edit_distance]. }
    assert (P : 1 <= d).
    { destruct d; [|lia]. exfalso. apply N12.
      symmetry in D. now apply lev_zero in D. }
    pose proof (@below_full_score_200 d
                  (Nat.max (length (normalizeString nfd s1))
                     (length (normalizeString nfd s2)))) as B.
    unfold below_full_score in B. rewrite E in B.
    discriminate B; lia.
  - intros [N1 E]. now apply calculateSimilarity_key_equal.
Qed.

(** X12.  For keys of fewer than 40 code units the score is exact: it
    is [100 (1 - d/m)] rounded to the nearest integer, a half going up,
    where [d] is the edit distance of the two keys and [m] the length of
    the longer one. *)
Theorem similarity_exact_for_short_keys (s1 s2 : jsstring) (d : nat) :
  normalizeString nfd s1 <> [] -> normalizeString nfd s2 <> [] ->
  length (normalizeString nfd s1) < 40 ->
  length (normalizeString nfd s2) < 40 ->
  is_edit_distance (normalizeString nfd s1) (normalizeString nfd s2) d ->
  calculateSimilarity nfd s1 s2
  = round_half_up_percent d
      (Nat.max (length (normalizeString nfd s1))
         (length (normalizeString nfd s2))).
Proof.
  intros N1 N2 L1 L2 Hd.
  set (k1 := normalizeString nfd s1) in *.
  set (k2 := normalizeString nfd s2) in *.
  assert (M : 1 <= Nat.max (length k1) (length k2) < 40).
  { destruct k1; [easy|]. simpl length in *. lia. }
  destruct (list_eq_dec N.eq_dec k1 k2) as [E|N12].
  - rewrite calculateSimilarity_key_equal by assumption.
    assert (D : d = 0).
    { eapply is_edit_distance_unique; [exact Hd|].
      rewrite E. split; [apply edit_script_refl|lia]. }
    subst d. unfold round_half_up_percent.
    set (m := Z.of_nat (Nat.max (length k1) (length k2))).
    assert (0 < m)%Z by lia.
    replace (2 * (100 * (m - Z.of_nat 0)) + m)%Z with (100 * (2 * m) + m)%Z
      by lia.
    apply Z.div_unique with (r := m); lia.
  - destruct (calculateSimilarity_formula nfd s1 s2 N1 N2 N12)
      as (d' & Hd' & Ld & F).
    fold k1 k2 in Hd', Ld, F.
    assert (D : d' = d) by (eapply is_edit_distance_unique; eassumption).
    subst d'. rewrite F.
    pose proof (@rounding_agrees_below_40 d _ M Ld) as R.
    unfold rounds_as_claimed in R. now apply Z.eqb_eq in R.
Qed.

End SimilarityFacts.

Section SelectorFacts.
Variable nfd : jsstring -> jsstring.

Lemma max_alias_range (xs : list Z) :
  Forall (fun x => 0 <= x <= 100)%Z xs ->
  (0 <= match xs with [] => 0 | x :: r => fold_left Z.max r x end <= 100)%Z.
Proof.
  intros H. destruct xs as [|x r]; [lia|].
  destruct (fold_left_max r x) as [Hin _].
  rewrite Forall_forall in H. now apply H.
Qed.

(** X13.  The score the match selector returns is a percentage: it lies
    between 0 and 100, whatever the name and the aliases (keys of a
    length that a string can have). *)
Theorem best_score_is_percentage (q name : jsstring) (aliases : list jsstring) :
  fits_number (normalizeString nfd q) ->
  fits_number (normalizeString nfd name) ->
  Forall (fun alias => fits_number (normalizeString nfd alias)) aliases ->
  (0 <= score (getBestMatchScore nfd q name aliases) <= 100)%Z.
Proof.
  intros Fq Fn Fa. unfold getBestMatchScore. cbn [score].
  pose proof (@calculateSimilarity_range nfd q name Fq Fn) as Rn.
  assert (Ra : Forall (fun x => 0 <= x <= 100)%Z
                 (map (fun alias => calculateSimilarity nfd q alias) aliases)).
  { apply Forall_map. eapply Forall_impl; [|exact Fa].
    intros a Ha. now apply calculateSimilarity_range. }
  pose proof (max_alias_range Ra). lia.
Qed.

(** A query whose key is empty scores 0 against every subject. *)
Lemma empty_key_best_match (q name : jsstring) (aliases : list jsstring) :
  normalizeString nfd q = [] ->
  getBestMatchScore nfd q name aliases = {| score := 0; matchedOn := Name |}.
Proof.
  intros E. unfold getBestMatchScore.
  rewrite (@calculateSimilarity_key_empty nfd q name) by now left.
  assert (Z0 : match map (fun alias => calculateSimilarity nfd q alias) aliases
               with [] => 0%Z | x :: r => fold_left Z.max r x end = 0%Z).
  { assert (A : Forall (fun x => x = 0%Z)
                  (map (fun alias => calculateSimilarity nfd q alias) aliases)).
    { apply Forall_map, Forall_forall. intros a _.
      apply calculateSimilarity_key_empty. now left. }
    destruct (map _ aliases) as [|x r]; [reflexivity|].
    destruct (fold_left_max r x) as [Hin _].
    rewrite Forall_forall in A. now apply A. }
  rewrite Z0. reflexivity.
Qed.

(** A name whose key is the key of the query wins with the full score. *)
Lemma equal_key_best_match (q name : jsstring) (aliases : list jsstring) :
  normalizeString nfd q <> [] ->
  normalizeString nfd name = normalizeString nfd q ->
  fits_number (normalizeString nfd q) ->
  Forall (fun alias => fits_number (normalizeString nfd alias)) aliases ->
  getBestMatchScore nfd q name aliases = {| score := 100; matchedOn := Name |}.
Proof.
  intros Nq E Fq Fa. unfold getBestMatchScore.
  rewrite (@calculateSimilarity_key_equal nfd q name) by (assumption || easy).
  assert (Ra : Forall (fun x => 0 <= x <= 100)%Z
                 (map (fun alias => calculateSimilarity nfd q alias) aliases)).
  { apply Forall_map. eapply Forall_impl; [|exact Fa].
    intros a Ha. now apply calculateSimilarity_range. }
  pose proof (max_alias_range Ra) as R.
  set (best := match map _ aliases with [] => 0%Z | x :: r => _ end) in *.
  f_equal.
  - lia.
  - destruct (Z.gtb_spec best 100); [lia|reflexivity].
Qed.

End SelectorFacts.

(** ** The order of the aliases *)

Section AliasOrder.
Variable nfd : jsstring -> jsstring.

Lemma best_alias_same (xs ys : list Z) :
  (forall x, In x xs <-> In x ys) ->
  match xs with [] => 0%Z | x :: r => fold_left Z.max r x end
  = match ys with [] => 0%Z | y :: r => fold_left Z.max r y end.
Proof.
  intros H. destruct xs as [|x xr], ys as [|y yr]; [reflexivity| | |].
  - exfalso. apply (proj2 (H y)). now left.
  - exfalso. apply (proj1 (H x)). now left.
  - destruct (fold_left_max xr x) as [I1 U1].
    destruct (fold_left_max yr y) as [I2 U2].
    apply H in I1. apply U2 in I1. apply H in I2. apply U1 in I2. lia.
Qed.

(** X26.  Neither the order of the aliases matters nor an alias listed
    twice: two alias lists with the same members give the same score and
    the same [matchedOn]. *)
Theorem alias_order_ignored (q name : jsstring)
  (aliases aliases' : list jsstring) :
  (forall alias, In alias aliases <-> In alias aliases') ->
  getBestMatchScore nfd q name aliases = getBestMatchScore nfd q name aliases'.
Proof.
  intros H. unfold getBestMatchScore.
  rewrite (@best_alias_same
             (map (fun alias => calculateSimilarity nfd q alias) aliases)
             (map (fun alias => calculateSimilarity nfd q alias) aliases')).
  - reflexivity.
  - intros x. rewrite !in_map_iff.
    split; intros (a & E & Ha); exists a; (split; [exact E|now apply H]).
Qed.

End AliasOrder.

(* ================================================================== *)
(** * 20. More about the screening engine                           *)
(* ================================================================== *)

Section SearchFacts.
Variable nfd : jsstring -> jsstring.
Variable msg : jsstring.

(** What a search that passes the guards puts on display. *)
Lemma handleSearch_matches sp persons entities st r :
  trim (query sp) <> [] -> sourceCountries sp <> [] ->
  (In r (matches (fst (handleSearch nfd msg sp persons entities st))) <->
   exists s, In s (subjects persons entities)
             /\ is_hit nfd sp s = true
             /\ r = result_of nfd (query sp) s).
Proof.
  intros Hq Hc.
  rewrite (@handleSearch_scans nfd msg sp persons entities st Hq Hc).
  cbn [fst matches]. rewrite scan_hits.
  split.
  - intros H.
    apply (Permutation_in _ (Array_sort_perm by_score_desc _)) in H.
    apply in_map_iff in H. destruct H as (s & <- & Hs).
    apply filter_In in Hs. now exists s.
  - intros (s & Hs & Hh & ->).
    apply (Permutation_in _
             (Permutation_sym (Array_sort_perm by_score_desc _))).
    apply in_map, filter_In. now split.
Qed.

Lemma includes_nonempty l c : includes l c = true -> l <> [].
Proof. now destruct l. Qed.

End SearchFacts.

(** X14.  A subject whose name has the key of the query is always
    found.  If it is in one of the two lists, its country is selected,
    the target type allows its variant and the threshold is at most 100,
    the result list reports it with the score 100, matched on its name
    (keys of a length that a string can have). *)
Theorem exact_name_is_reported (nfd : jsstring -> jsstring) (msg : jsstring)
  (sp : SearchParams) (persons : list SanctionedPerson)
  (entities : list SanctionedEntity) (st : ScreenState) (s : Subject) :
  trim (query sp) <> [] ->
  In s (subjects persons entities) ->
  includes (sourceCountries sp) (subject_country s) = true ->
  variant_allowed (targetType sp) s = true ->
  (fuzzyThreshold sp <= 100)%Z ->
  normalizeString nfd (query sp) <> [] ->
  normalizeString nfd (subject_name s) = normalizeString nfd (query sp) ->
  fits_number (normalizeString nfd (query sp)) ->
  Forall (fun alias => fits_number (normalizeString nfd alias))
    (subject_aliases s) ->
  In (match s with
      | PersonSubject p => PersonMatchResult p 100 Name
      | EntitySubject e => EntityMatchResult e 100 Name
      end)
    (matches (fst (handleSearch nfd msg sp persons entities st))).
Proof.
  intros Hq Hs Hc Hv Ht Nq E Fq Fa.
  pose proof (@includes_nonempty _ _ Hc) as Hne.
  apply (@handleSearch_matches nfd msg sp persons entities st _ Hq Hne).
  pose proof (@equal_key_best_match nfd _ _ (subject_aliases s) Nq E Fq Fa)
    as B.
  exists s. split; [exact Hs|]. split.
  - unfold is_hit, best_match. rewrite Hc, Hv, B. cbn [score andb].
    now apply Z.leb_le.
  - unfold result_of, best_match. rewrite B. now destruct s.
Qed.

(** X15.  Widening a search loses no result.  With the same query, a
    threshold that is not higher, a selection that holds every country of
    the narrower one, and the same target type or [All], every result of
    the narrower search is a result of the wider one. *)
Theorem wider_search_keeps_hits (nfd : jsstring -> jsstring) (msg : jsstring)
  (sp sp' : SearchParams) (persons : list SanctionedPerson)
  (entities : list SanctionedEntity) (st st' : ScreenState) :
  trim (query sp) <> [] -> sourceCountries sp <> [] ->
  query sp' = query sp ->
  (fuzzyThreshold sp' <= fuzzyThreshold sp)%Z ->
  (forall code, includes (sourceCountries sp) code = true ->
                includes (sourceCountries sp') code = true) ->
  targetType sp' = targetType sp \/ targetType sp' = All ->
  incl (matches (fst (handleSearch nfd msg sp persons entities st)))
       (matches (fst (handleSearch nfd msg sp' persons entities st'))).
Proof.
  intros Hq Hc Eq Ht Hi Hv r Hr.
  assert (Hc' : sourceCountries sp' <> []).
  { destruct (sourceCountries sp) as [|c l] eqn:E; [easy|].
    apply (@includes_nonempty _ c). apply Hi. simpl.
    now rewrite str_eqb_refl. }
  assert (Hq' : trim (query sp') <> []) by now rewrite Eq.
  apply (@handleSearch_matches nfd msg sp persons entities st _ Hq Hc) in Hr.
  apply (@handleSearch_matches nfd msg sp' persons entities st' _ Hq' Hc').
  destruct Hr as (s & Hs & Hh & ->). exists s.
  split; [exact Hs|]. split; [|now rewrite Eq].
  unfold is_hit in *. rewrite Eq.
  apply andb_true_iff in Hh. destruct Hh as [Hh H3].
  apply andb_true_iff in Hh. destruct Hh as [H1 H2].
  rewrite (Hi _ H1). cbn [andb].
  apply andb_true_iff. split.
  - destruct Hv as [->| ->]; [exact H2|reflexivity].
  - apply Z.leb_le in H3. apply Z.leb_le. lia.
Qed.

(** X16.  A query without an ASCII letter or digit (a name in Arabic
    script, say) is not blank, so the search runs; but it scores 0
    against every name and alias, and with a threshold above 0 the search
    ends with an empty result list. *)
Theorem unreadable_query_finds_nothing (nfd : jsstring -> jsstring)
  (msg : jsstring)
  (sp : SearchParams) (persons : list SanctionedPerson)
  (entities : list SanctionedEntity) (st : ScreenState) :
  trim (query sp) <> [] -> sourceCountries sp <> [] ->
  unreadable nfd (query sp) ->
  (0 < fuzzyThreshold sp)%Z ->
  (forall name aliases,
     getBestMatchScore nfd (query sp) name aliases
     = {| score := 0; matchedOn := Name |})
  /\ handleSearch nfd msg sp persons entities st
     = ({| matches := [];
           hasSearched := true;
           comment := [];
           screenerName := [];
           showValidationError := false |},
        [PreventDefault]).
Proof.
  intros Hq Hc Hu Ht.
  assert (E : normalizeString nfd (query sp) = [])
    by (apply normalizeString_empty; now right).
  split; [intros; now apply empty_key_best_match|].
  rewrite (@handleSearch_scans nfd msg sp persons entities st Hq Hc).
  rewrite scan_hits.
  assert (F : forall l, filter (is_hit nfd sp) l = []).
  { induction l as [|s l IH]; [reflexivity|]. simpl.
    replace (is_hit nfd sp s) with false; [exact IH|].
    symmetry. unfold is_hit, best_match.
    rewrite empty_key_best_match by exact E. cbn [score].
    apply andb_false_iff. right. apply Z.leb_gt. exact Ht. }
  rewrite F. reflexivity.
Qed.

(* ================================================================== *)
(** * 21. The page                                                  *)
(* ================================================================== *)

(** ** The selection of lists *)

Lemma includes_In l x : includes l x = true <-> In x l.
Proof.
  unfold includes. rewrite existsb_exists. split.
  - intros (y & Hy & E). apply str_eqb_eq in E. now subst.
  - intros H. exists x. split; [exact H|apply str_eqb_refl].
Qed.

Lemma includes_false l x : includes l x = false <-> ~ In x l.
Proof.
  rewrite <- includes_In. destruct (includes l x); split; congruence.
Qed.

Lemma includes_app l l' x :
  includes (l ++ l') x = includes l x || includes l' x.
Proof. apply existsb_app. Qed.

Lemma includes_filter l code x :
  includes (filter (fun c => negb (str_eqb c code)) l) x
  = includes l x && negb (str_eqb x code).
Proof.
  induction l as [|y l IH]; [reflexivity|]. simpl filter.
  destruct (str_eqb y code) eqn:E; simpl.
  - rewrite IH. apply str_eqb_eq in E. subst y.
    destruct (str_eqb x code) eqn:E'; simpl; [|reflexivity].
    now rewrite !andb_false_r.
  - rewrite IH. destruct (str_eqb x y) eqn:E'; simpl; [|reflexivity].
    apply str_eqb_eq in E'. subst y. now rewrite E.
Qed.

Lemma filter_absent l code :
  ~ In code l -> filter (fun c => negb (str_eqb c code)) l = l.
Proof.
  intros H. induction l as [|y l IH]; [reflexivity|]. simpl.
  destruct (str_eqb y code) eqn:E.
  - apply str_eqb_eq in E. subst. exfalso. apply H. now left.
  - simpl. f_equal. apply IH. intros I. apply H. now right.
Qed.

Lemma filter_present l code :
  NoDup l -> In code l ->
  Permutation (filter (fun c => negb (str_eqb c code)) l ++ [code]) l.
Proof.
  intros D. induction D as [|y l Hy D IH]; [easy|].
  intros [->|I]; simpl.
  - rewrite str_eqb_refl. simpl. rewrite filter_absent by exact Hy.
    symmetry. apply Permutation_cons_append.
  - destruct (str_eqb y code) eqn:E.
    + apply str_eqb_eq in E. now subst.
    + simpl. constructor. now apply IH.
Qed.

(** X17.  [toggleCountry] flips the membership of the code it is given
    in the selection, leaves the membership of every other code as it
    is, and touches no other search parameter. *)
Theorem toggleCountry_flips (code : jsstring) (prev : SearchParams) :
  let next := toggleCountry code prev in
  includes (sourceCountries next) code
  = negb (includes (sourceCountries prev) code)
  /\ (forall other,
        other <> code ->
        includes (sourceCountries next) other
        = includes (sourceCountries prev) other)
  /\ query next = query prev
  /\ targetType next = targetType prev
  /\ fuzzyThreshold next = fuzzyThreshold prev.
Proof.
  unfold toggleCountry.
  destruct (includes (sourceCountries prev) code) eqn:I; cbn zeta;
    cbn [with_sourceCountries sourceCountries query targetType fuzzyThreshold].
  - split; [|split; [|easy]].
    + rewrite includes_filter, str_eqb_refl. now rewrite andb_false_r.
    + intros other Ho. rewrite includes_filter.
      destruct (str_eqb other code) eqn:E;
        [now apply str_eqb_eq in E|now rewrite andb_true_r].
  - split; [|split; [|easy]].
    + rewrite includes_app, I. simpl. now rewrite str_eqb_refl.
    + intros other Ho. rewrite includes_app. simpl.
      destruct (str_eqb other code) eqn:E;
        [now apply str_eqb_eq in E|now rewrite orb_false_r].
Qed.

(** X18.  Toggling a code twice gives the selection back: the same
    codes are selected afterwards; if the code was not selected, the
    search parameters are what they were; if it was, the selection is the
    old one up to the order of the codes (provided no code is in it
    twice). *)
Theorem toggleCountry_twice (code : jsstring) (prev : SearchParams) :
  let twice := toggleCountry code (toggleCountry code prev) in
  (forall other,
     includes (sourceCountries twice) other
     = includes (sourceCountries prev) other)
  /\ (includes (sourceCountries prev) code = false -> twice = prev)
  /\ (NoDup (sourceCountries prev) ->
      Permutation (sourceCountries twice) (sourceCountries prev)).
Proof.
  destruct prev as [q t l th]. unfold toggleCountry.
  cbn [with_sourceCountries sourceCountries query targetType fuzzyThreshold].
  destruct (includes l code) eqn:I; cbn zeta;
    cbn [with_sourceCountries sourceCountries query targetType fuzzyThreshold].
  - rewrite includes_filter, str_eqb_refl, andb_false_r.
    cbn [with_sourceCountries sourceCountries query targetType fuzzyThreshold].
    split; [|split; [discriminate|]].
    + intros other. rewrite includes_app, includes_filter. simpl.
      destruct (str_eqb other code) eqn:E.
      * apply str_eqb_eq in E. subst. now rewrite I.
      * now rewrite andb_true_r, orb_false_r.
    + intros D. apply filter_present; [exact D|now apply includes_In].
  - rewrite includes_app, I. simpl. rewrite str_eqb_refl. simpl.
    cbn [with_sourceCountries sourceCountries query targetType fuzzyThreshold].
    apply includes_false in I.
    assert (E : filter (fun c => negb (str_eqb c code)) (l ++ [code]) = l).
    { rewrite filter_app. simpl. rewrite str_eqb_refl. simpl.
      rewrite app_nil_r. now apply filter_absent. }
    rewrite E. split; [easy|]. split; [easy|reflexivity].
Qed.

Lemma keys_NoDup : NoDup (Object_keys COUNTRY_CODES).
Proof.
  vm_compute. repeat constructor; simpl; intuition discriminate.
Qed.

Lemma selection_ok_keys : selection_ok (Object_keys COUNTRY_CODES).
Proof. split; [apply keys_NoDup|apply incl_refl]. Qed.

Lemma selection_ok_nil : selection_ok [].
Proof. split; [constructor|easy]. Qed.

Lemma selection_ok_toggle code prev :
  In code (Object_keys COUNTRY_CODES) ->
  selection_ok (sourceCountries prev) ->
  selection_ok (sourceCountries (toggleCountry code prev)).
Proof.
  intros Hk [D I]. unfold toggleCountry.
  destruct (includes (sourceCountries prev) code) eqn:E; cbn zeta;
    cbn [with_sourceCountries sourceCountries].
  - split; [now apply NoDup_filter|].
    intros x Hx. apply filter_In in Hx. now apply I.
  - apply includes_false in E. split.
    + apply NoDup_app; [exact D|repeat constructor; easy|].
      intros x Hx [<-|[]]. now apply E.
    + intros x Hx. apply in_app_or in Hx.
      destruct Hx as [Hx|[<-|[]]]; [now apply I|exact Hk].
Qed.

Lemma selection_full l :
  selection_ok l ->
  (length l = length (Object_keys COUNTRY_CODES) <->
   forall code, In code (Object_keys COUNTRY_CODES) -> includes l code = true).
Proof.
  intros [D I]. split.
  - intros E code Hc. apply includes_In.
    apply (@NoDup_length_incl _ l (Object_keys COUNTRY_CODES) D);
      [lia|exact I|exact Hc].
  - intros H.
    assert (I' : incl (Object_keys COUNTRY_CODES) l)
      by (intros c Hc; now apply includes_In, H).
    pose proof (NoDup_incl_length D I).
    pose proof (NoDup_incl_length keys_NoDup I'). lia.
Qed.

Section PageFacts.
Variable nfd : jsstring -> jsstring.
Variable language : Language.
Variable msg : jsstring.
Variable persons : list SanctionedPerson.
Variable entities : list SanctionedEntity.

Lemma generatePDF_keeps c :
  searchParams (fst (generatePDF language c)) = searchParams c
  /\ isGeneratingPdf (fst (generatePDF language c)) = isGeneratingPdf c
  /\ matches (screen (fst (generatePDF language c))) = matches (screen c)
  /\ hasSearched (screen (fst (generatePDF language c)))
     = hasSearched (screen c)
  /\ comment (screen (fst (generatePDF language c))) = comment (screen c)
  /\ screenerName (screen (fst (generatePDF language c)))
     = screenerName (screen c).
Proof.
  unfold generatePDF.
  destruct (isEmpty _ || isEmpty _); [easy|].
  destruct (isGeneratingPdf c) eqn:G; cbn; now rewrite ?G.
Qed.

Lemma result_of_country q s :
  result_country (result_of nfd q s) = subject_country s.
Proof. now destruct s. Qed.

(** What every state of the page satisfies. *)
Lemma reachable_invariant c :
  reachable nfd language msg persons entities c ->
  selection_ok (sourceCountries (searchParams c))
  /\ isGeneratingPdf c = false
  /\ (forall r, In r (matches (screen c)) ->
                In (result_country r) (Object_keys COUNTRY_CODES))
  /\ (hasSearched (screen c) = false -> screen c = screen mounted).
Proof.
  induction 1 as [|c ev R (S & G & M & F) O].
  - split; [apply selection_ok_keys|]. split; [reflexivity|].
    split; [intros r []|reflexivity].
  - destruct ev; cbn [handle with_searchParams with_screen searchParams
                        screen isGeneratingPdf sourceCountries];
      try (split; [exact S|split; [exact G|split; [exact M|exact F]]]).
    + (* a country tile *)
      split; [|now repeat split].
      apply selection_ok_toggle; [|exact S].
      now apply includes_In.
    + (* check all, uncheck all *)
      split; [|now repeat split].
      unfold setAllCountries. cbn [with_sourceCountries sourceCountries].
      destruct selectAll; [apply selection_ok_keys|apply selection_ok_nil].
    + (* the form is submitted *)
      split; [exact S|]. split; [exact G|].
      unfold handleSearch.
      destruct (isEmpty (trim (query (searchParams c)))) eqn:Q;
        [now split|].
      destruct (length (sourceCountries (searchParams c)) =? 0) eqn:L;
        [now split|].
      cbn [fst matches hasSearched]. split; [|discriminate].
      intros r Hr.
      apply (Permutation_in _ (Array_sort_perm by_score_desc _)) in Hr.
      rewrite scan_hits in Hr. apply in_map_iff in Hr.
      destruct Hr as (s & <- & Hs). apply filter_In in Hs.
      destruct Hs as [_ Hs]. unfold is_hit in Hs.
      apply andb_true_iff in Hs. destruct Hs as [Hs _].
      apply andb_true_iff in Hs. destruct Hs as [Hs _].
      rewrite result_of_country. apply S. now apply includes_In.
    + (* the reset button *)
      split; [apply selection_ok_keys|]. split; [exact G|].
      split; [intros r []|reflexivity].
    + (* the analyst field *)
      split; [exact S|]. split; [exact G|]. split; [exact M|].
      cbn in O. cbn. congruence.
    + (* the comment field *)
      split; [exact S|]. split; [exact G|]. split; [exact M|].
      cbn in O. cbn. congruence.
    + (* the report button *)
      destruct (generatePDF_keeps c) as (K1 & K2 & K3 & K4 & K5 & K6).
      rewrite K1, K2, K3, K4. split; [exact S|]. split; [exact G|].
      split; [exact M|].
      cbn in O. apply andb_true_iff in O. destruct O as [O _]. congruence.
Qed.

End PageFacts.

(** X19.  Whatever the user does on the page, the selection holds keys
    of [COUNTRY_CODES] only and none of them twice.  Hence it has as many
    entries as [COUNTRY_CODES] has keys exactly when every list is
    selected, which is what [generatePDF] takes the equality of the two
    lengths for. *)
Theorem selection_stays_well_formed (nfd : jsstring -> jsstring)
  (language : Language) (msg : jsstring) (persons : list SanctionedPerson)
  (entities : list SanctionedEntity) (c : Component) :
  reachable nfd language msg persons entities c ->
  let selected := sourceCountries (searchParams c) in
  NoDup selected
  /\ incl selected (Object_keys COUNTRY_CODES)
  /\ (length selected = length (Object_keys COUNTRY_CODES) <->
      forall code, In code (Object_keys COUNTRY_CODES) ->
                   includes selected code = true).
Proof.
  intros R selected.
  destruct (reachable_invariant R) as (S & _).
  split; [apply S|]. split; [apply S|]. now apply selection_full.
Qed.

(** X20.  The label of the scanned lists in the report says what was
    scanned.  For a selection as the page produces it: when every list is
    selected the label is the text for all lists; when one is missing,
    the label is the names of the selected countries in the order of the
    selection, separated by a comma and a space, each name the one
    [COUNTRY_CODES] gives, and nothing is looked up outside
    [COUNTRY_CODES]. *)
Theorem sourceLabel_truthful (inherited : jsstring -> jsstring)
  (sp : SearchParams) :
  selection_ok (sourceCountries sp) ->
  ((forall code, In code (Object_keys COUNTRY_CODES) ->
                 includes (sourceCountries sp) code = true) ->
   sourceLabel inherited sp
   = js "Toutes les listes (Consolid" ++ [233%N] ++ js ")")
  /\ ((exists code, In code (Object_keys COUNTRY_CODES)
                    /\ includes (sourceCountries sp) code = false) ->
      exists names,
        Forall2 (fun code name => In (code, name) COUNTRY_CODES)
          (sourceCountries sp) names
        /\ sourceLabel inherited sp = join (js ", ") names).
Proof.
  intros S. pose proof (selection_full S) as [F1 F2]. split.
  - intros H. unfold sourceLabel. rewrite (F2 H), Nat.eqb_refl. reflexivity.
  - intros (code & Hc & Hn).
    exists (map (country_text inherited) (sourceCountries sp)). split.
    + destruct S as [_ I]. clear - I.
      induction (sourceCountries sp) as [|c l IH]; [constructor|].
      simpl map. constructor.
      * assert (Hc : In c (Object_keys COUNTRY_CODES)) by (apply I; now left).
        vm_compute in Hc.
        destruct Hc as [<-|[<-|[<-|[<-|[]]]]]; vm_compute; tauto.
      * apply IH. intros x Hx. apply I. now right.
    + unfold sourceLabel.
      destruct (Nat.eqb_spec (length (sourceCountries sp))
                  (length (Object_keys COUNTRY_CODES))) as [E|E];
        [|reflexivity].
      rewrite (F1 E code Hc) in Hn. discriminate.
Qed.

(** X21.  A report needs an analysis of the search it reports.  A
    search that passes the guards clears the analyst and the comment, so
    asking for the report right after it only raises the validation
    error and schedules the alert; once an analyst and a comment that
    are not blank are typed in, the report is built from them, from the
    parameters of the search and from its matches. *)
Theorem report_needs_fresh_analysis (nfd : jsstring -> jsstring)
  (language : Language) (msg : jsstring) (persons : list SanctionedPerson)
  (entities : list SanctionedEntity) (c : Component)
  (analyst remarks : jsstring) :
  trim (query (searchParams c)) <> [] ->
  sourceCountries (searchParams c) <> [] ->
  let run := handle nfd language msg persons entities in
  let searched := run c Submit in
  generatePDF language searched
  = ({| searchParams := searchParams c;
        screen :=
          {| matches := matches (screen searched);
             hasSearched := true;
             comment := [];
             screenerName := [];
             showValidationError := true |};
        isGeneratingPdf := isGeneratingPdf c |},
     [AlertAfter 10 (actionRequired language)])
  /\ (trim analyst <> [] -> trim remarks <> [] ->
      isGeneratingPdf c = false ->
      snd (generatePDF language
             (run (run searched (TypeAnalyst analyst)) (TypeComment remarks)))
      = [Report analyst remarks (searchParams c) (matches (screen searched))]).
Proof.
  intros Hq Hc run searched. unfold searched, run.
  cbn [handle with_screen].
  rewrite (@handleSearch_scans nfd msg (searchParams c) persons entities
             (screen c) Hq Hc).
  cbn [fst]. split; [reflexivity|].
  intros Ha Hr G. unfold generatePDF.
  cbn [screen screenerName comment searchParams isGeneratingPdf matches
         with_screen handle].
  destruct (trim analyst) eqn:Ea; [easy|].
  destruct (trim remarks) eqn:Er; [easy|].
  cbn [isEmpty orb]. rewrite G. reflexivity.
Qed.

(** X22.  Whatever the user does on the page, every match on display
    comes from one of the lists of [COUNTRY_CODES]: a record whose
    [source_country] is none of its keys is never reported. *)
Theorem reported_countries_are_known (nfd : jsstring -> jsstring)
  (language : Language) (msg : jsstring) (persons : list SanctionedPerson)
  (entities : list SanctionedEntity) (c : Component) (r : MatchResult) :
  reachable nfd language msg persons entities c ->
  In r (matches (screen c)) ->
  In (result_country r) (Object_keys COUNTRY_CODES).
Proof.
  intros R. destruct (reachable_invariant R) as (_ & _ & M & _). apply M.
Qed.

(** X23.  Whatever the user has done on the page, the reset button
    brings back the state the page was mounted with.  On the way
    [isGeneratingPdf] is never observed to be [true], and as long as no
    search has been run the matches, the analyst and the comment are the
    initial ones. *)
Theorem reset_restores_mounted (nfd : jsstring -> jsstring)
  (language : Language) (msg : jsstring) (persons : list SanctionedPerson)
  (entities : list SanctionedEntity) (c : Component) :
  reachable nfd language msg persons entities c ->
  isGeneratingPdf c = false
  /\ handle nfd language msg persons entities c Reset = mounted
  /\ (hasSearched (screen c) = false -> screen c = screen mounted).
Proof.
  intros R. destruct (reachable_invariant R) as (_ & G & _ & F).
  split; [exact G|]. split; [|exact F].
  cbn [handle]. unfold handleReset, mounted. now rewrite G.
Qed.

(** X24.  After [Uncheck all] a search with a query that is not blank
    only raises the alert; after a click on one tile the selection is
    that one code, and every result of a search comes from that list. *)
Theorem single_list_search (nfd : jsstring -> jsstring)
  (language : Language) (msg : jsstring) (persons : list SanctionedPerson)
  (entities : list SanctionedEntity) (c : Component) (code : jsstring) :
  trim (query (searchParams c)) <> [] ->
  let run := handle nfd language msg persons entities in
  let none := run c (ClickAll false) in
  let one := run none (ClickCountry code) in
  handleSearch nfd msg (searchParams none) persons entities (screen none)
  = (screen c, [PreventDefault; Alert msg])
  /\ sourceCountries (searchParams one) = [code]
  /\ forall r, In r (matches (screen (run one Submit))) ->
               result_country r = code.
Proof.
  intros Hq run none one.
  assert (Q : isEmpty (trim (query (searchParams c))) = false)
    by (destruct (trim (query (searchParams c))); easy).
  split; [|split].
  - unfold none, run.
    cbn [handle with_searchParams searchParams screen].
    unfold setAllCountries, handleSearch.
    cbn [with_sourceCountries query sourceCountries length Nat.eqb].
    now rewrite Q.
  - reflexivity.
  - intros r Hr. unfold one, none, run in Hr.
    cbn [handle with_screen with_searchParams screen searchParams] in Hr.
    unfold setAllCountries, toggleCountry in Hr. cbn in Hr.
    rewrite (@handleSearch_matches nfd msg _ persons entities (screen c) r)
      in Hr by (cbn; easy).
    destruct Hr as (s & _ & Hs & ->). unfold is_hit in Hs. cbn in Hs.
    rewrite orb_false_r in Hs.
    apply andb_true_iff in Hs. destruct Hs as [Hs _].
    apply andb_true_iff in Hs. destruct Hs as [Hs _].
    apply str_eqb_eq in Hs. now destruct s.
Qed.

(** X27.  The report shows the parameters as they are when it is asked
    for, not as they were when the matches were found.  If the query is
    edited after a search, the matches on display stay, and the report
    pairs the edited query with the matches of the search before. *)
Theorem report_shows_current_parameters (nfd : jsstring -> jsstring)
  (language : Language) (msg : jsstring) (persons : list SanctionedPerson)
  (entities : list SanctionedEntity) (c : Component)
  (analyst remarks other : jsstring) :
  trim (query (searchParams c)) <> [] ->
  sourceCountries (searchParams c) <> [] ->
  trim analyst <> [] -> trim remarks <> [] ->
  isGeneratingPdf c = false ->
  let run := handle nfd language msg persons entities in
  let searched := run c Submit in
  let analysed :=
    run (run searched (TypeAnalyst analyst)) (TypeComment remarks) in
  let edited := run analysed (TypeQuery other) in
  matches (screen edited) = matches (screen searched)
  /\ snd (generatePDF language edited)
     = [Report analyst remarks
          {| query := other;
             targetType := targetType (searchParams c);
             sourceCountries := sourceCountries (searchParams c);
             fuzzyThreshold := fuzzyThreshold (searchParams c) |}
          (matches (screen searched))].
Proof.
  intros Hq Hc Ha Hr G run searched analysed edited.
  unfold edited, analysed, searched, run, handle, with_searchParams,
    with_screen, generatePDF.
  cbn [screen screenerName comment searchParams isGeneratingPdf matches].
  split; [reflexivity|].
  destruct (trim analyst) eqn:Ea; [easy|].
  destruct (trim remarks) eqn:Er; [easy|].
  cbn [isEmpty orb]. rewrite G. reflexivity.
Qed.

(* ================================================================== *)
(** * 22. Runs of sections 17 to 21                                 *)
(* ================================================================== *)

(** The theorems of sections 17 to 21 that have a premise, run on a
    concrete input. *)

Lemma word_order_ignored_witness :
  nfd_fixes_ascii nfd_latin1
  /\ Forall is_word [js "BANDE"; js "Hama"]
  /\ Permutation [js "BANDE"; js "Hama"] [js "Hama"; js "BANDE"]
  /\ normalizeString nfd_latin1 (js "BANDE Hama")
     = normalizeString nfd_latin1 (js "Hama BANDE").
Proof.
  assert (W : Forall is_word [js "BANDE"; js "Hama"]).
  { repeat (constructor; [split; [discriminate|repeat constructor]|]).
    constructor. }
  assert (P : Permutation [js "BANDE"; js "Hama"] [js "Hama"; js "BANDE"])
    by apply perm_swap.
  split; [exact nfd_latin1_ascii|]. split; [exact W|]. split; [exact P|].
  exact (proj1 (@word_order_ignored nfd_latin1 _ _ nfd_latin1_ascii W P)).
Defined.

Lemma case_ignored_witness :
  nfd_fixes_ascii nfd_latin1
  /\ toLowerCase (js "BANDE Hama") = toLowerCase (js "bande hama")
  /\ normalizeString nfd_latin1 (js "BANDE Hama")
     = normalizeString nfd_latin1 (js "bande hama").
Proof.
  split; [exact nfd_latin1_ascii|]. split; [reflexivity|].
  apply (@case_ignored nfd_latin1 (js "BANDE Hama") (js "bande hama")
           nfd_latin1_ascii); reflexivity.
Defined.

Lemma punctuation_ignored_witness :
  nfd_fixes_ascii nfd_latin1
  /\ replace_class (fun c => (c =? 45)%N) (js "Jean-Pierre") = js "JeanPierre"
  /\ normalizeString nfd_latin1 (js "JeanPierre")
     = normalizeString nfd_latin1 (js "Jean-Pierre").
Proof.
  split; [exact nfd_latin1_ascii|]. split; [reflexivity|].
  apply (@punctuation_ignored nfd_latin1 (fun c => (c =? 45)%N)
           (js "Jean-Pierre") nfd_latin1_ascii); [reflexivity|].
  intros c H. apply N.eqb_eq in H. subst c. reflexivity.
Defined.

Lemma similarity_is_percentage_witness :
  fits_number (normalizeString nfd_latin1 (js "Jon Smth"))
  /\ fits_number (normalizeString nfd_latin1 (js "John Smith"))
  /\ (0 <= calculateSimilarity nfd_latin1 (js "Jon Smth") (js "John Smith")
      <= 100)%Z.
Proof.
  assert (F1 : fits_number (normalizeString nfd_latin1 (js "Jon Smth")))
    by (vm_compute; reflexivity).
  assert (F2 : fits_number (normalizeString nfd_latin1 (js "John Smith")))
    by (vm_compute; reflexivity).
  split; [exact F1|]. split; [exact F2|].
  exact (@similarity_is_percentage nfd_latin1 _ _ F1 F2).
Defined.

Lemma full_score_means_equal_keys_witness :
  length (normalizeString nfd_latin1 (js "Hama Bande")) < 200
  /\ length (normalizeString nfd_latin1 (js "BANDE Hama")) < 200
  /\ (calculateSimilarity nfd_latin1 (js "Hama Bande") (js "BANDE Hama")
      = 100%Z ->
      normalizeString nfd_latin1 (js "Hama Bande")
      = normalizeString nfd_latin1 (js "BANDE Hama")).
Proof.
  assert (L1 : length (normalizeString nfd_latin1 (js "Hama Bande")) < 200)
    by (vm_compute; lia).
  assert (L2 : length (normalizeString nfd_latin1 (js "BANDE Hama")) < 200)
    by (vm_compute; lia).
  split; [exact L1|]. split; [exact L2|].
  intros E.
  exact (proj2 (proj1 (@full_score_means_equal_keys nfd_latin1 _ _ L1 L2) E)).
Defined.

Lemma similarity_exact_for_short_keys_witness :
  is_edit_distance (normalizeString nfd_latin1 (js "Jon Smth"))
    (normalizeString nfd_latin1 (js "John Smith")) 2
  /\ calculateSimilarity nfd_latin1 (js "Jon Smth") (js "John Smith")
     = round_half_up_percent 2 10.
Proof.
  assert (D : is_edit_distance (normalizeString nfd_latin1 (js "Jon Smth"))
                (normalizeString nfd_latin1 (js "John Smith")) 2).
  { assert (E : levenshteinDistance
                  (normalizeString nfd_latin1 (js "Jon Smth"))
                  (normalizeString nfd_latin1 (js "John Smith")) = 2)
      by (vm_compute; reflexivity).
    rewrite <- E. apply levenshteinDistance_correct. }
  split; [exact D|].
  apply (@similarity_exact_for_short_keys nfd_latin1 (js "Jon Smth")
           (js "John Smith") 2).
  - vm_compute. discriminate.
  - vm_compute. discriminate.
  - vm_compute. lia.
  - vm_compute. lia.
  - exact D.
Defined.

Lemma best_score_is_percentage_witness :
  fits_number (normalizeString nfd_latin1 (js "Balobo"))
  /\ (0 <= score (getBestMatchScore nfd_latin1 (js "Balobo") (js "BANDE Hama")
                    [js "Balobo"]) <= 100)%Z.
Proof.
  assert (F : fits_number (normalizeString nfd_latin1 (js "Balobo")))
    by (vm_compute; reflexivity).
  split; [exact F|].
  apply (@best_score_is_percentage nfd_latin1 (js "Balobo") (js "BANDE Hama")
           [js "Balobo"] F).
  - vm_compute. reflexivity.
  - constructor; [exact F|constructor].
Defined.

Lemma exact_name_is_reported_witness :
  normalizeString nfd_latin1 (full_name bande_hama)
  = normalizeString nfd_latin1 (query name_bf)
  /\ In (PersonMatchResult bande_hama 100 Name)
       (matches
          (fst (handleSearch nfd_latin1 alert_text name_bf [bande_hama] []
                  fresh_state))).
Proof.
  split; [vm_compute; reflexivity|].
  apply (@exact_name_is_reported nfd_latin1 alert_text name_bf [bande_hama] []
           fresh_state (PersonSubject bande_hama)).
  - vm_compute. discriminate.
  - left. reflexivity.
  - vm_compute. reflexivity.
  - reflexivity.
  - vm_compute. discriminate.
  - vm_compute. discriminate.
  - vm_compute. reflexivity.
  - vm_compute. reflexivity.
  - constructor; [vm_compute; reflexivity|constructor].
Defined.

Lemma wider_search_keeps_hits_witness :
  (fuzzyThreshold name_ci_bf <= fuzzyThreshold name_bf)%Z
  /\ incl
       (matches
          (fst (handleSearch nfd_latin1 alert_text name_bf [bande_hama] []
                  fresh_state)))
       (matches
          (fst (handleSearch nfd_latin1 alert_text name_ci_bf [bande_hama] []
                  no_match_state))).
Proof.
  split; [vm_compute; discriminate|].
  apply (@wider_search_keeps_hits nfd_latin1 alert_text name_bf name_ci_bf
           [bande_hama] [] fresh_state no_match_state).
  - vm_compute. discriminate.
  - vm_compute. discriminate.
  - reflexivity.
  - vm_compute. discriminate.
  - intros code H. apply includes_In in H. apply includes_In.
    right. exact H.
  - left. reflexivity.
Defined.

Lemma unreadable_query_finds_nothing_witness :
  trim (query muhammad_bf) <> []
  /\ unreadable nfd_latin1 (query muhammad_bf)
  /\ handleSearch nfd_latin1 alert_text muhammad_bf [bande_hama] []
       fresh_state
     = (no_match_state, [PreventDefault]).
Proof.
  assert (Hq : trim (query muhammad_bf) <> []) by (vm_compute; discriminate).
  assert (Hu : unreadable nfd_latin1 (query muhammad_bf))
    by (vm_compute; repeat constructor).
  split; [exact Hq|]. split; [exact Hu|].
  apply (@unreadable_query_finds_nothing nfd_latin1 alert_text muhammad_bf
           [bande_hama] [] fresh_state Hq); [|exact Hu|].
  - vm_compute. discriminate.
  - vm_compute. reflexivity.
Defined.

Lemma selection_stays_well_formed_witness :
  reachable nfd_latin1 en alert_text [bande_hama] []
    (handle nfd_latin1 en alert_text [bande_hama] [] mounted
       (ClickCountry (js "BF")))
  /\ NoDup
       (sourceCountries
          (searchParams
             (handle nfd_latin1 en alert_text [bande_hama] [] mounted
                (ClickCountry (js "BF"))))).
Proof.
  assert (R : reachable nfd_latin1 en alert_text [bande_hama] []
                (handle nfd_latin1 en alert_text [bande_hama] [] mounted
                   (ClickCountry (js "BF")))).
  { apply reachable_handle; [apply reachable_mounted|reflexivity]. }
  split; [exact R|].
  exact (proj1 (@selection_stays_well_formed nfd_latin1 en alert_text
                  [bande_hama] [] _ R)).
Defined.

Lemma sourceLabel_truthful_witness :
  selection_ok (sourceCountries name_ml_ci)
  /\ exists names,
       Forall2 (fun code name => In (code, name) COUNTRY_CODES)
         (sourceCountries name_ml_ci) names
       /\ sourceLabel (fun _ => []) name_ml_ci = join (js ", ") names.
Proof.
  assert (S : selection_ok (sourceCountries name_ml_ci)).
  { split.
    - repeat constructor; simpl; intuition discriminate.
    - intros c [<-|[<-|[]]]; vm_compute; tauto. }
  split; [exact S|].
  apply (proj2 (@sourceLabel_truthful (fun _ => []) name_ml_ci S)).
  exists (js "BF"). split; [vm_compute; tauto|reflexivity].
Defined.

Lemma report_needs_fresh_analysis_witness :
  trim (query (searchParams name_typed)) <> []
  /\ sourceCountries (searchParams name_typed) <> []
  /\ snd (generatePDF en
            (handle nfd_latin1 en alert_text [bande_hama] [] name_typed
               Submit))
     = [AlertAfter 10 (actionRequired en)].
Proof.
  assert (Hq : trim (query (searchParams name_typed)) <> [])
    by (vm_compute; discriminate).
  assert (Hc : sourceCountries (searchParams name_typed) <> [])
    by (vm_compute; discriminate).
  split; [exact Hq|]. split; [exact Hc|].
  rewrite (proj1 (@report_needs_fresh_analysis nfd_latin1 en alert_text
                    [bande_hama] [] name_typed [] [] Hq Hc)).
  reflexivity.
Defined.

Lemma reported_countries_are_known_witness :
  reachable nfd_latin1 en alert_text [bande_hama] []
    (handle nfd_latin1 en alert_text [bande_hama] []
       (handle nfd_latin1 en alert_text [bande_hama] [] mounted
          (TypeQuery (js "Hama Bande")))
       Submit)
  /\ In (js "BF") (Object_keys COUNTRY_CODES).
Proof.
  assert (R : reachable nfd_latin1 en alert_text [bande_hama] []
                (handle nfd_latin1 en alert_text [bande_hama] []
                   (handle nfd_latin1 en alert_text [bande_hama] [] mounted
                      (TypeQuery (js "Hama Bande")))
                   Submit)).
  { apply reachable_handle; [|reflexivity].
    apply reachable_handle; [apply reachable_mounted|reflexivity]. }
  split; [exact R|].
  apply (@reported_countries_are_known nfd_latin1 en alert_text [bande_hama]
           [] _ (PersonMatchResult bande_hama 100 Name) R).
  vm_compute. left. reflexivity.
Defined.

Lemma reset_restores_mounted_witness :
  reachable nfd_latin1 en alert_text [bande_hama] []
    (handle nfd_latin1 en alert_text [bande_hama] []
       (handle nfd_latin1 en alert_text [bande_hama] [] mounted
          (TypeQuery (js "Hama Bande")))
       Submit)
  /\ handle nfd_latin1 en alert_text [bande_hama] []
       (handle nfd_latin1 en alert_text [bande_hama] []
          (handle nfd_latin1 en alert_text [bande_hama] [] mounted
             (TypeQuery (js "Hama Bande")))
          Submit)
       Reset
     = mounted.
Proof.
  assert (R : reachable nfd_latin1 en alert_text [bande_hama] []
                (handle nfd_latin1 en alert_text [bande_hama] []
                   (handle nfd_latin1 en alert_text [bande_hama] [] mounted
                      (TypeQuery (js "Hama Bande")))
                   Submit)).
  { apply reachable_handle; [|reflexivity].
    apply reachable_handle; [apply reachable_mounted|reflexivity]. }
  split; [exact R|].
  exact (proj1 (proj2 (@reset_restores_mounted nfd_latin1 en alert_text
                         [bande_hama] [] _ R))).
Defined.

Lemma single_list_search_witness :
  trim (query (searchParams name_typed)) <> []
  /\ sourceCountries
       (searchParams
          (handle nfd_latin1 en alert_text [bande_hama] []
             (handle nfd_latin1 en alert_text [bande_hama] [] name_typed
                (ClickAll false))
             (ClickCountry (js "ML"))))
     = [js "ML"].
Proof.
  assert (Hq : trim (query (searchParams name_typed)) <> [])
    by (vm_compute; discriminate).
  split; [exact Hq|].
  exact (proj1 (proj2 (@single_list_search nfd_latin1 en alert_text
                         [bande_hama] [] name_typed (js "ML") Hq))).
Defined.

Lemma spacing_ignored_witness :
  nfd_fixes_ascii nfd_latin1
  /\ words (js "  BANDE   Hama ") = words (js "BANDE Hama")
  /\ normalizeString nfd_latin1 (js "  BANDE   Hama ")
     = normalizeString nfd_latin1 (js "BANDE Hama").
Proof.
  split; [exact nfd_latin1_ascii|]. split; [reflexivity|].
  apply (@spacing_ignored nfd_latin1 (js "  BANDE   Hama ") (js "BANDE Hama")
           nfd_latin1_ascii); reflexivity.
Defined.

Lemma alias_order_ignored_witness :
  getBestMatchScore nfd_latin1 (js "Balobo") (js "BANDE Hama")
    [js "Balobo"; js "Hama"]
  = getBestMatchScore nfd_latin1 (js "Balobo") (js "BANDE Hama")
      [js "Hama"; js "Balobo"; js "Hama"].
Proof.
  apply (@alias_order_ignored nfd_latin1 (js "Balobo") (js "BANDE Hama")
           [js "Balobo"; js "Hama"] [js "Hama"; js "Balobo"; js "Hama"]).
  intros alias. simpl. tauto.
Defined.

Lemma report_shows_current_parameters_witness :
  trim (query (searchParams name_typed)) <> []
  /\ snd (generatePDF en
            (handle nfd_latin1 en alert_text [bande_hama] []
               (handle nfd_latin1 en alert_text [bande_hama] []
                  (handle nfd_latin1 en alert_text [bande_hama] []
                     (handle nfd_latin1 en alert_text [bande_hama] []
                        name_typed Submit)
                     (TypeAnalyst (js "A. Analyst")))
                  (TypeComment (js "True match.")))
               (TypeQuery (js "Someone Else"))))
     = [Report (js "A. Analyst") (js "True match.")
          {| query := js "Someone Else"; targetType := All;
             sourceCountries := [js "BF"]; fuzzyThreshold := 100 |}
          [PersonMatchResult bande_hama 100 Name]].
Proof.
  assert (Hq : trim (query (searchParams name_typed)) <> [])
    by (vm_compute; discriminate).
  split; [exact Hq|].
  assert (M : matches
                (screen
                   (handle nfd_latin1 en alert_text [bande_hama] []
                      name_typed Submit))
              = [PersonMatchResult bande_hama 100 Name])
    by (vm_compute; reflexivity).
  rewrite <- M.
  apply (@report_shows_current_parameters nfd_latin1 en alert_text
           [bande_hama] [] name_typed (js "A. Analyst") (js "True match.")
           (js "Someone Else") Hq).
  - vm_compute. discriminate.
  - vm_compute. discriminate.
  - vm_compute. discriminate.
  - reflexivity.
Defined.
